(** * Sorter pipeline stage and causality detector of ticdc

    A shallow embedding of [cdc/processor/pipeline/sorter.go] (the per-table
    sorter node: its constructor, [StartActorNode], the dispatch loop that
    [StartActorNode] launches, [TryHandleDataMessage] and [ResolvedTs]) and
    of the causality detector and relay exercised by the syncer tests
    [TestDetectConflict], [TestCasuality] and [TestCasualityWithPrefixIndex].

    Conventions.
    - [uint64] timestamps are [N]; the code only compares and assigns them,
      so no wrap-around arises.  The one conversion [uint64(int64)] is
      written out with [mod 2^64].
    - Everything the node obtains from a collaborator (the clock, the result
      of [Consume], of [CheckDir], of [TryAddEntry], which [select] case
      fires) is an explicit input of the step that asks for it.
    - Everything the node does to a collaborator (sends, throws, log lines)
      is appended to a trace of [Action]s, in program order.
    - A Go panic is a result of its own, carrying the node state at the
      moment of the panic. *)

From Stdlib Require Import ZArith NArith List Bool Lia Sorted.
From stdpp Require Import gmap strings list pretty.
Import ListNotations.

Module Sorter.

(** ** Data model *)

Definition Ts := N.          (* model.Ts = uint64 *)
Definition Time := Z.        (* a reading of the monotonic clock, in ns *)
Definition Duration := Z.    (* time.Duration, in ns *)
Definition TableID := Z.     (* model.TableID = int64 *)

(** [model.OpType] of a raw KV entry. *)
Inductive model_OpType := OpTypeUnknow | OpTypePut | OpTypeDelete | OpTypeResolved.

Definition OpType_eqb (a b : model_OpType) : bool :=
  match a, b with
  | OpTypeUnknow, OpTypeUnknow | OpTypePut, OpTypePut
  | OpTypeDelete, OpTypeDelete | OpTypeResolved, OpTypeResolved => true
  | _, _ => false
  end.

(** [model.RawKVEntry], restricted to the fields the node reads. *)
Record RawKVEntry := mkRawKV {
  OpType : model_OpType;
  rawCRTs : Ts;
  RegionID : N;
  ApproximateSize : Z          (* int64 *)
}.
Arguments mkRawKV _ _%_N _%_N _%_Z.

(** [model.PolymorphicEvent]; [RawKV] is a pointer and may be nil. *)
Record PolymorphicEvent := mkEvent {
  StartTs : Ts;
  CRTs : Ts;
  RawKV : option RawKVEntry
}.

(** [model.NewResolvedPolymorphicEvent(regionID, resolvedTs)]. *)
Definition NewResolvedPolymorphicEvent (regionID : N) (resolvedTs : Ts)
  : PolymorphicEvent :=
  {| StartTs := resolvedTs;
     CRTs := resolvedTs;
     RawKV := Some {| OpType := OpTypeResolved; rawCRTs := resolvedTs;
                      RegionID := regionID; ApproximateSize := 0 |} |}.
Arguments NewResolvedPolymorphicEvent _%_N _%_N.

(** Errors the node handles or produces. *)
Inductive Err :=
| ErrFlowControllerAborted
| ErrUnknownSortEngine (engine : string)
| ErrInjected (what : string)
| ErrOther (code : string).

(** [cerror.ErrFlowControllerAborted.Equal(err)] *)
Definition isFlowControllerAborted (e : Err) : bool :=
  match e with ErrFlowControllerAborted => true | _ => false end.

(** [pipeline.MessageType] and [pipeline.Message]. *)
Inductive MessageType :=
| MessageTypeUnknown | MessageTypeCommand | MessageTypePolymorphicEvent
| MessageTypeBarrier | MessageTypeTick.

Record Message := mkMessage {
  Tp : MessageType;
  MsgEvent : option PolymorphicEvent;   (* msg.PolymorphicEvent, a pointer *)
  BarrierTs : Ts
}.
Arguments mkMessage _ _ _%_N.

Definition PolymorphicEventMessage (ev : PolymorphicEvent) : Message :=
  {| Tp := MessageTypePolymorphicEvent; MsgEvent := Some ev; BarrierTs := 0%N |}.

(** What the node does to the outside world. *)
Inductive Action :=
| SendBarrier (ts : Ts)            (* tableActorRouter.Send(id, BarrierMessage(ts)) *)
| SendTick                         (* tableActorRouter.Send(id, TickMessage()) *)
| SendStopB                        (* tableActorRouter.SendB(ctx, id, StopMessage()) *)
| SendToNextNode (m : Message)     (* ctx.SendToNextNode(m) *)
| OutputChSend (m : Message)       (* n.outputCh <- m *)
| MounterInput (ev : PolymorphicEvent)   (* n.mounter.Input() <- msg *)
| Throw (e : Err)                  (* ctx.Throw(e) *)
| ObserveMemory (consumption : N)  (* metrics histogram *)
| ConsumeCall (commitTs : Ts) (size : Z)   (* n.flowController.Consume(..) *)
| AddEntry (ev : PolymorphicEvent)         (* n.sorter.AddEntry(ctx, ev) *)
| TryAddEntry (ev : PolymorphicEvent)      (* n.sorter.TryAddEntry(ctx, ev) *)
| TrySendToNextNode (m : Message)          (* trySendMessageToNextNode(..) *)
| LogInfo (text : string)
| LogWarn (text : string)
| LogError (text : string).

(** A panic raised through [log.Panic], with its structured fields, or a
    nil dereference of the Go runtime. *)
Inductive PanicInfo :=
| LogPanic (text : string) (fields : list (string * Z))
| NilDereference.

(** ** The dispatch loop *)

(** The three variables the dispatch goroutine closes over. *)
Record LoopState := mkLoop {
  lastSentResolvedTs : Ts;
  lastSendResolvedTsTime : Time;
  lastCRTs : Ts
}.
Arguments mkLoop _%_N _%_Z _%_N.

(** What [flowController.Consume] does during one call: it invokes the block
    callback some number of times (each invocation reads the clock) and then
    returns nil or an error. *)
Record ConsumeOutcome := mkConsume {
  callbackTimes : list Time;
  consumeErr : option Err
}.

(** What the environment decides while one sorter output is handled. *)
Record DataEnv := mkDataEnv {
  sinceNow : Time;         (* clock read by time.Since *)
  interpNow : Time;        (* clock read by time.Now() when interpolating *)
  consume : ConsumeOutcome;
  mounterAccepts : bool;   (* false: ctx.Done() won the select *)
  resolvedNow : Time       (* clock read by time.Now() for a sorter marker *)
}.

(** Which case of the loop's [select] fires. *)
Inductive SelectCase :=
| CtxDone
| MetricsTick (consumption : N)
| SorterClosed
| SorterOutput (msg : option PolymorphicEvent) (env : DataEnv).

(** Result of one iteration. *)
Inductive StepResult :=
| Continue (s : LoopState) (tr : list Action)
| Exit (tr : list Action)
| LoopPanic (p : PanicInfo) (tr : list Action).

Section Loop.

(** [resolvedTsInterpolateInterval], a package constant declared outside
    sorter.go. *)
Variable resolvedTsInterpolateInterval : Duration.

(** [n.isTableActorMode] *)
Variable isTableActorMode : bool.

(** The two-armed send used for an interpolated marker: a barrier message to
    the table actor, or a fresh resolved event to the next node. *)
Definition sendInterpolated (ts : Ts) : list Action :=
  if isTableActorMode then [SendBarrier ts]
  else [SendToNextNode (PolymorphicEventMessage (NewResolvedPolymorphicEvent 0 ts))].

(** Lines 166-181. *)
Definition interpolate (s : LoopState) (commitTs : Ts) (env : DataEnv)
  : LoopState * list Action :=
  if (resolvedTsInterpolateInterval <? sinceNow env - lastSendResolvedTsTime s)%Z then
    if (lastSentResolvedTs s <? lastCRTs s)%N && (lastCRTs s <? commitTs)%N then
      ({| lastSentResolvedTs := lastCRTs s;
          lastSendResolvedTsTime := interpNow env;
          lastCRTs := lastCRTs s |},
       sendInterpolated (lastCRTs s))
    else (s, [])
  else (s, []).

(** The block callback handed to [Consume], lines 184-197.  It always
    returns nil. *)
Definition blockCallback (s : LoopState) (now : Time) : LoopState * list Action :=
  if (lastSentResolvedTs s <? lastCRTs s)%N then
    ({| lastSentResolvedTs := lastCRTs s;
        lastSendResolvedTsTime := now;
        lastCRTs := lastCRTs s |},
     sendInterpolated (lastCRTs s))
  else (s, []).

(** All callback invocations of one [Consume] call, in order. *)
Fixpoint runCallbacks (s : LoopState) (times : list Time) : LoopState * list Action :=
  match times with
  | [] => (s, [])
  | t :: rest =>
      let '(s1, a1) := blockCallback s t in
      let '(s2, a2) := runCallbacks s1 rest in
      (s2, a1 ++ a2)
  end.

(** Lines 198-212: what the loop does with a non-nil error of [Consume]. *)
Definition consumeFailed (e : Err) : list Action :=
  if isFlowControllerAborted e then [LogInfo "flow control cancelled for table"]
  else if isTableActorMode then [LogError "sorter stopped"; SendStopB]
  else [Throw e].

(** Lines 232-237: the forward at the bottom of the loop body. *)
Definition forward (ev : PolymorphicEvent) : list Action :=
  if isTableActorMode then [OutputChSend (PolymorphicEventMessage ev); SendTick]
  else [SendToNextNode (PolymorphicEventMessage ev)].

(** [uint64(x)] for an [int64] x. *)
Definition uint64_of_int64 (x : Z) : Z := (x mod 2 ^ 64)%Z.

(** Lines 163-222: a data event. *)
Definition handleData (s : LoopState) (ev : PolymorphicEvent) (raw : RawKVEntry)
    (env : DataEnv) : StepResult :=
  let size := uint64_of_int64 (ApproximateSize raw) in
  let commitTs := CRTs ev in
  let '(s1, a1) := interpolate s commitTs env in
  let '(s2, a2) := runCallbacks s1 (callbackTimes (consume env)) in
  let pre := a1 ++ [ConsumeCall commitTs size] ++ a2 in
  match consumeErr (consume env) with
  | Some e => Exit (pre ++ consumeFailed e)
  | None =>
      let s3 := {| lastSentResolvedTs := lastSentResolvedTs s2;
                   lastSendResolvedTsTime := lastSendResolvedTsTime s2;
                   lastCRTs := commitTs |} in
      if mounterAccepts env then Continue s3 (pre ++ MounterInput ev :: forward ev)
      else Exit pre
  end.

(** Lines 224-230 and 232-237: a resolved marker from the sorter. *)
Definition handleResolved (s : LoopState) (ev : PolymorphicEvent) (env : DataEnv)
  : StepResult :=
  if (CRTs ev <? lastSentResolvedTs s)%N then Continue s []
  else Continue {| lastSentResolvedTs := CRTs ev;
                   lastSendResolvedTsTime := resolvedNow env;
                   lastCRTs := lastCRTs s |}
                (forward ev).

(** One iteration of the [for { select { ... } }] loop, lines 148-239. *)
Definition loopStep (s : LoopState) (c : SelectCase) : StepResult :=
  match c with
  | CtxDone => Exit []
  | MetricsTick v => Continue s [ObserveMemory v]
  | SorterClosed => Exit []
  | SorterOutput None _ => LoopPanic (LogPanic "unexpected empty msg" []) []
  | SorterOutput (Some ev) env =>
      match RawKV ev with
      | None => LoopPanic (LogPanic "unexpected empty msg" []) []
      | Some raw =>
          if negb (OpType_eqb (OpType raw) OpTypeResolved) then handleData s ev raw env
          else handleResolved s ev env
      end
  end.

(** How a run of the loop ends, as far as the given inputs go. *)
Inductive LoopEnd :=
| Running (s : LoopState)      (* inputs exhausted, loop still alive *)
| Returned                     (* the goroutine returned nil *)
| Panicked (p : PanicInfo).

(** The loop over a finite sequence of [select] outcomes; inputs after the
    loop has ended are not consumed. *)
Fixpoint runLoop (s : LoopState) (cs : list SelectCase) : LoopEnd * list Action :=
  match cs with
  | [] => (Running s, [])
  | c :: rest =>
      match loopStep s c with
      | Continue s' tr => let '(e, tr') := runLoop s' rest in (e, tr ++ tr')
      | Exit tr => (Returned, tr)
      | LoopPanic p tr => (Panicked p, tr)
      end
  end.

End Loop.

Arguments blockCallback _ _ _%_Z.
Arguments ConsumeCall _%_N _%_Z.
Arguments SendBarrier _%_N.

(** Lines 140-142: the loop's variables when the goroutine starts;
    [startTime] is the clock read by the first [time.Now()]. *)
Definition initLoop (startTime : Time) : LoopState :=
  {| lastSentResolvedTs := 0%N; lastSendResolvedTsTime := startTime;
     lastCRTs := 0%N |}.
Arguments initLoop _%_Z.

(** The timestamp of a resolved marker leaving the stage, if the action is
    one: a barrier message, or a forwarded event whose raw entry is a
    resolved entry. *)
Definition isResolvedEvent (ev : PolymorphicEvent) : bool :=
  match RawKV ev with
  | Some raw => OpType_eqb (OpType raw) OpTypeResolved
  | None => false
  end.

Definition resolvedOfMessage (m : Message) : option Ts :=
  match Tp m, MsgEvent m with
  | MessageTypePolymorphicEvent, Some ev =>
      if isResolvedEvent ev then Some (CRTs ev) else None
  | _, _ => None
  end.

Definition resolvedOfAction (a : Action) : option Ts :=
  match a with
  | SendBarrier ts => Some ts
  | SendToNextNode m => resolvedOfMessage m
  | OutputChSend m => resolvedOfMessage m
  | _ => None
  end.

(** The resolved-marker timestamps of a trace, in the order sent. *)
Definition forwardedResolved (tr : list Action) : list Ts :=
  omap resolvedOfAction tr.

(** The trace of one iteration, however it ends. *)
Definition traceOf (r : StepResult) : list Action :=
  match r with
  | Continue _ tr => tr
  | Exit tr => tr
  | LoopPanic _ tr => tr
  end.


(** A [select] outcome that delivers a data event which passes flow control
    and is accepted by the mounter. *)
Definition isPassingData (c : SelectCase) : bool :=
  match c with
  | SorterOutput (Some ev) env =>
      match RawKV ev with
      | Some raw =>
          negb (OpType_eqb (OpType raw) OpTypeResolved)
          && match consumeErr (consume env) with None => true | Some _ => false end
          && mounterAccepts env
      | None => false
      end
  | _ => false
  end.

(** Commit timestamp and [time.Since] clock reading of a sorter output. *)
Definition commitOf (c : SelectCase) : Ts :=
  match c with
  | SorterOutput (Some ev) _ => CRTs ev
  | _ => 0%N
  end.

Definition sinceNowOf (c : SelectCase) : Time :=
  match c with
  | SorterOutput _ env => sinceNow env
  | _ => 0%Z
  end.


(** ** The node *)

(** The sorter implementations [StartActorNode] can construct. *)
Inductive EventSorter :=
| EntrySorter                                  (* memory.NewEntrySorter() *)
| UnifiedSorter (dir changefeed table : string) (tableID : TableID) (addr : string).

(** [sorterNode], without the opaque collaborators (flow controller,
    mounter, error group, output channel). *)
Record sorterNode := mkNode {
  sorter : option EventSorter;       (* nil until StartActorNode succeeds *)
  tableID : TableID;
  tableName : string;
  cancelSet : bool;                  (* n.cancel assigned *)
  resolvedTs : Ts;
  hasRouter : bool;                  (* n.tableActorRouter != nil *)
  isTableActorMode : bool;
  tableActorID : option (string * TableID)   (* system.ActorID(info.ID, n.tableID) *)
}.

(** Lines 66-78. *)
Definition newSorterNode (tableName : string) (tableID : TableID) (startTs : Ts)
  : sorterNode :=
  {| sorter := None; tableID := tableID; tableName := tableName;
     cancelSet := false; resolvedTs := startTs; hasRouter := false;
     isTableActorMode := false; tableActorID := None |}.
Arguments newSorterNode _%_string _%_Z _%_N.

(** Lines 284-286. *)
Definition ResolvedTs (n : sorterNode) : Ts := resolvedTs n.

Definition set_resolvedTs (n : sorterNode) (ts : Ts) : sorterNode :=
  {| sorter := sorter n; tableID := tableID n; tableName := tableName n;
     cancelSet := cancelSet n; resolvedTs := ts; hasRouter := hasRouter n;
     isTableActorMode := isTableActorMode n; tableActorID := tableActorID n |}.

(** A call on the node either returns or panics; both leave a node state
    and a trace behind. *)
Inductive CallResult (A : Type) :=
| Ret (n : sorterNode) (tr : list Action) (a : A)
| Panics (n : sorterNode) (tr : list Action) (p : PanicInfo).
Arguments Ret {A} n tr a.
Arguments Panics {A} n tr p.

(** What the sorter and the output channel answer during one
    [TryHandleDataMessage]. *)
Record HandleEnv := mkHandleEnv {
  tryAddEntryResult : bool * option Err;
  trySendResult : bool
}.

Definition regressionPanic (tid : TableID) (resolved old : Ts) : PanicInfo :=
  LogPanic "resolved ts regression"
    [("tableID", tid); ("resolvedTs", Z.of_N resolved); ("oldResolvedTs", Z.of_N old)].

(** Lines 251-276. *)
Definition TryHandleDataMessage (n : sorterNode) (msg : Message) (env : HandleEnv)
  : CallResult (bool * option Err) :=
  match Tp msg with
  | MessageTypePolymorphicEvent =>
      match MsgEvent msg with
      | None => Panics n [] NilDereference
      | Some ev =>
          let addEntry (n1 : sorterNode) :=
            match sorter n1 with
            | None => Panics n1 [] NilDereference
            | Some _ =>
                if isTableActorMode n1 then Ret n1 [TryAddEntry ev] (tryAddEntryResult env)
                else Ret n1 [AddEntry ev] (true, None)
            end in
          match RawKV ev with
          | Some raw =>
              if OpType_eqb (OpType raw) OpTypeResolved then
                let newResolvedTs := rawCRTs raw in
                let oldResolvedTs := resolvedTs n in
                let swapped := set_resolvedTs n newResolvedTs in   (* SwapUint64 *)
                if (newResolvedTs <? oldResolvedTs)%N then
                  Panics swapped [] (regressionPanic (tableID n) newResolvedTs oldResolvedTs)
                else addEntry (set_resolvedTs swapped (rawCRTs raw))  (* StoreUint64 *)
              else addEntry n
          | None => addEntry n
          end
      end
  | _ => Ret n [TrySendToNextNode msg] (trySendResult env, None)
  end.

(** The part of [ChangefeedVars] and [GlobalVars] that [StartActorNode]
    reads. *)
Record ChangefeedInfo := mkInfo {
  changefeedID : string;
  Engine : string;
  SortDir : string;
  AdvertiseAddr : string
}.

(** The sort-engine names of package [model], declared outside sorter.go. *)
Record EngineNames := mkNames {
  SortInMemory : string;
  SortUnified : string;
  SortInFile : string
}.

(** What the collaborators answer during [StartActorNode]. *)
Record StartEnv := mkStartEnv {
  checkDirErr : option Err;            (* unified.CheckDir(sortDir) *)
  newUnifiedSorterErr : option Err;    (* unified.NewUnifiedSorter(..) *)
  failpointAddTableError : bool        (* failpoint ProcessorAddTableError active *)
}.

(** The goroutines handed to [n.eg.Go]. *)
Inductive Activity :=
| SorterRun (s : EventSorter)
| AbortWatcher
| DispatchLoop (s : EventSorter) (actorMode : bool).

Record StartResult := mkStartResult {
  startNode : sorterNode;
  startErr : option Err;
  startTrace : list Action;
  launched : list Activity
}.

(** Lines 94-115: the engine switch.  [inl] is an early return. *)
Definition selectSorter (names : EngineNames) (n : sorterNode) (info : ChangefeedInfo)
    (env : StartEnv) : (Err * list Action) + (EventSorter * list Action) :=
  let sortEngine := Engine info in
  if String.eqb sortEngine (SortInMemory names) then inr (EntrySorter, [])
  else if String.eqb sortEngine (SortUnified names)
          || String.eqb sortEngine (SortInFile names) then
    let warn :=
      if String.eqb sortEngine (SortInFile names)
      then [LogWarn "File sorter is obsolete and replaced by unified sorter. Please revise your changefeed settings"]
      else [] in
    match checkDirErr env with
    | Some e => inl (e, warn)
    | None =>
        match newUnifiedSorterErr env with
        | Some e => inl (e, warn)
        | None => inr (UnifiedSorter (SortDir info) (changefeedID info) (tableName n)
                         (tableID n) (AdvertiseAddr info), warn)
        end
    end
  else inl (ErrUnknownSortEngine sortEngine, []).

(** Lines 85-243. *)
Definition StartActorNode (names : EngineNames) (n : sorterNode)
    (tableActorRouter : bool) (info : ChangefeedInfo) (env : StartEnv) : StartResult :=
  let n1 :=
    {| sorter := sorter n; tableID := tableID n; tableName := tableName n;
       cancelSet := true; resolvedTs := resolvedTs n;
       hasRouter := if tableActorRouter then true else hasRouter n;
       isTableActorMode := if tableActorRouter then true else isTableActorMode n;
       tableActorID := if tableActorRouter then Some (changefeedID info, tableID n)
                       else tableActorID n |} in
  match selectSorter names n1 info env with
  | inl (e, tr) => {| startNode := n1; startErr := Some e; startTrace := tr; launched := [] |}
  | inr (srt, tr) =>
      if failpointAddTableError env then
        {| startNode := n1; startErr := Some (ErrInjected "processor add table injected error");
           startTrace := tr; launched := [] |}
      else
        {| startNode :=
             {| sorter := Some srt; tableID := tableID n1; tableName := tableName n1;
                cancelSet := true; resolvedTs := resolvedTs n1; hasRouter := hasRouter n1;
                isTableActorMode := isTableActorMode n1; tableActorID := tableActorID n1 |};
           startErr := None; startTrace := tr;
           launched := [SorterRun srt; AbortWatcher;
                        DispatchLoop srt (isTableActorMode n1)] |}
  end.

(** Calls a client can make on a node, and the values successive
    [ResolvedTs()] calls return around them: one reading before each call
    and one after the last; a panicking call ends the readings. *)
Inductive NodeCall :=
| CallStart (names : EngineNames) (router : bool) (info : ChangefeedInfo) (env : StartEnv)
| CallHandle (msg : Message) (env : HandleEnv).

Fixpoint resolvedTsReadings (n : sorterNode) (calls : list NodeCall) : list Ts :=
  match calls with
  | [] => [ResolvedTs n]
  | CallStart names router info env :: rest =>
      ResolvedTs n :: resolvedTsReadings (startNode (StartActorNode names n router info env)) rest
  | CallHandle msg env :: rest =>
      ResolvedTs n ::
      match TryHandleDataMessage n msg env with
      | Ret n' _ _ => resolvedTsReadings n' rest
      | Panics _ _ _ => []
      end
  end.

(** A message that carries a resolved event of the puller. *)
Definition isPullerResolved (msg : Message) : bool :=
  match Tp msg, MsgEvent msg with
  | MessageTypePolymorphicEvent, Some ev => isResolvedEvent ev
  | _, _ => false
  end.

Definition callIsPullerResolved (c : NodeCall) : bool :=
  match c with
  | CallHandle msg _ => isPullerResolved msg
  | CallStart _ _ _ _ => false
  end.

(** ** Sample inputs

    Concrete events, environments and nodes on which the statements below
    are exercised. *)

(** 200ms in nanoseconds. *)
Definition sample_interval : Duration := 200000000%Z.

Definition sample_put (commit : Ts) : PolymorphicEvent :=
  {| StartTs := commit; CRTs := commit;
     RawKV := Some {| OpType := OpTypePut; rawCRTs := commit; RegionID := 1%N;
                      ApproximateSize := 64%Z |} |}.
Arguments sample_put _%_N.

Definition sample_env (now : Time) (outcome : ConsumeOutcome) : DataEnv :=
  {| sinceNow := now; interpNow := now; consume := outcome;
     mounterAccepts := true; resolvedNow := now |}.
Arguments sample_env _%_Z _.

Definition consume_ok : ConsumeOutcome := {| callbackTimes := []; consumeErr := None |}.

Definition sample_data (commit : Ts) (now : Time) : SelectCase :=
  SorterOutput (Some (sample_put commit)) (sample_env now consume_ok).
Arguments sample_data _%_N _%_Z.

Definition sample_names : EngineNames :=
  {| SortInMemory := "memory"; SortUnified := "unified"; SortInFile := "file" |}.

Definition sample_info (engine : string) : ChangefeedInfo :=
  {| changefeedID := "cf-1"; Engine := engine; SortDir := "/tmp/sorter";
     AdvertiseAddr := "127.0.0.1:8300" |}.

Definition sample_start_env : StartEnv :=
  {| checkDirErr := None; newUnifiedSorterErr := None; failpointAddTableError := false |}.

Definition sample_handle_env : HandleEnv :=
  {| tryAddEntryResult := (true, None); trySendResult := true |}.

(** A node for table 42 created at timestamp 100 and started with the
    in-memory engine in legacy mode. *)
Definition sample_node : sorterNode :=
  startNode (StartActorNode sample_names (newSorterNode "`test`.`t`" 42%Z 100%N)
               false (sample_info "memory") sample_start_env).

End Sorter.

Module Causality.

Local Open Scope string_scope.

(** ** Causality detector

    The repository's tests construct [causality{relations: map[string]string}]
    and call [detectConflict], [add] and [reset] on it, and run jobs through
    [causalityWrap]; the bodies of these functions are not among the
    repository's files at hand.  They are modelled here from the
    specification (sections 3, 4.2, 4.3 and 8), and checked against the
    assertions of the three tests. *)

(** Modelled from the spec: the roots of the keys that are already present
    in the relation table, in key order (the body of [detectConflict] and
    [add] is missing; "for each key already present in the relation table,
    collect its root"). *)
Definition collectRoots (relations : gmap string string) (keys : list string)
  : list string :=
  omap (λ k, relations !! k) keys.

Definition allEqual (roots : list string) : bool :=
  match roots with
  | [] => true
  | r :: rest => forallb (String.eqb r) rest
  end.

(** Modelled from the spec: [detectConflict] is missing; "if the collected
    roots are not all equal, report a conflict". *)
Definition HasConflict (relations : gmap string string) (keys : list string) : bool :=
  negb (allEqual (collectRoots relations keys)).

(** Modelled from the spec: the root selection of [add] is missing; "the
    root of any key in the set that is already present, or (if none are
    present) the first key in the set".  Of the present keys the first one
    in key order is taken. *)
Definition chooseRoot (relations : gmap string string) (keys : list string)
  : option string :=
  match collectRoots relations keys with
  | r :: _ => Some r
  | [] => head keys
  end.

(** Modelled from the spec: [add] is missing; "map every key in the set to
    that root". *)
Definition Add (relations : gmap string string) (keys : list string)
  : gmap string string :=
  match chooseRoot relations keys with
  | Some r => foldr (λ k m, <[k := r]> m) relations keys
  | None => relations
  end.

(** Modelled from the spec: [reset] is missing; "clears all relations". *)
Definition Reset (relations : gmap string string) : gmap string string := ∅.

(** ** Key derivation *)

(** A column value of a row: the tests use Go ints and strings. *)
Inductive value := VInt (z : Z) | VString (s : string).

(** [model.IndexColumn]: column name, offset in the row, prefix length. *)
Record IndexColumn := mkIndexColumn {
  colName : string;
  colOffset : nat;
  colLength : Z
}.

(** [types.UnspecifiedLength] *)
Definition UnspecifiedLength : Z := -1.

(** Modelled from the spec: the value an index column contributes to a key
    is missing; "a prefix index contributes a truncated value".  A string is
    cut to the first [colLength] characters when a length is specified. *)
Definition truncateValue (len : Z) (v : value) : string :=
  match v with
  | VInt z => pretty z
  | VString s => if (len <? 0)%Z then s else String.substring 0 (Z.to_nat len) s
  end.

(** Modelled from the spec: the key of one index is missing; "built by
    concatenating the index's column values", in the shape of the key
    ["123.c1."] of section 8: value, dot, column name, dot. *)
Definition genKeyList (columns : list IndexColumn) (row : list value) : string :=
  foldr (λ c acc,
           match row !! colOffset c with
           | Some v => truncateValue (colLength c) v ++ "." ++ colName c ++ "." ++ acc
           | None => acc
           end) "" columns.

(** Modelled from the spec: "one string per unique/primary index". *)
Definition genMultipleKeys (indices : list (list IndexColumn)) (row : list value)
  : list string :=
  map (λ idx, genKeyList idx row) indices.

(** ** Causality relay *)

(** Job kinds, as the tests name them. *)
Inductive opType := insert | update | del | conflict.

(** A DML job: the operation with the old and the new row it carries. *)
Inductive dmlJob :=
| InsertJob (vals : list value)
| UpdateJob (oldVals vals : list value)
| DeleteJob (oldVals : list value).

Definition dmlKind (j : dmlJob) : opType :=
  match j with
  | InsertJob _ => insert
  | UpdateJob _ _ => update
  | DeleteJob _ => del
  end.

(** Modelled from the spec: the key set of a job is missing; "old-value keys
    for delete, new-value keys for insert, union of old- and new-value keys
    for update". *)
Definition identifyKeys (indices : list (list IndexColumn)) (j : dmlJob) : list string :=
  match j with
  | InsertJob vals => genMultipleKeys indices vals
  | UpdateJob oldVals vals =>
      (genMultipleKeys indices oldVals ++ genMultipleKeys indices vals)%list
  | DeleteJob oldVals => genMultipleKeys indices oldVals
  end.

(** What leaves the relay: an ordinary job or the barrier marker. *)
Inductive outJob := Forwarded (j : dmlJob) | ConflictMarker.

Definition jobKind (o : outJob) : opType :=
  match o with
  | Forwarded j => dmlKind j
  | ConflictMarker => conflict
  end.

(** Modelled from the spec: the relay loop behind [causalityWrap] is
    missing.  Section 4.3: derive the keys; on a conflict emit the marker
    and reset; add the keys and forward the job.  The job that met the
    conflict is itself forwarded behind the marker, on the table just reset:
    this is what section 8 (property 6) and the assertions of
    [TestCasuality] and [TestCasualityWithPrefixIndex] require (six outputs
    for five jobs, the marker before the last insert). *)
Definition relayStep (indices : list (list IndexColumn))
    (relations : gmap string string) (j : dmlJob)
  : gmap string string * list outJob :=
  let keys := identifyKeys indices j in
  if HasConflict relations keys
  then (Add (Reset relations) keys, [ConflictMarker; Forwarded j])
  else (Add relations keys, [Forwarded j]).

Fixpoint relay (indices : list (list IndexColumn)) (relations : gmap string string)
    (jobs : list dmlJob) : gmap string string * list outJob :=
  match jobs with
  | [] => (relations, [])
  | j :: rest =>
      let '(r1, out1) := relayStep indices relations j in
      let '(r2, out2) := relay indices r1 rest in
      (r2, (out1 ++ out2)%list)
  end.

(** The other reading of steps 2 and 3 of section 4.3, in which "otherwise"
    excludes the job that met the conflict from being added and forwarded.
    It is kept only to be compared with [relay] on the test scenario. *)
Definition relayStepExclusive (indices : list (list IndexColumn))
    (relations : gmap string string) (j : dmlJob)
  : gmap string string * list outJob :=
  let keys := identifyKeys indices j in
  if HasConflict relations keys
  then (Reset relations, [ConflictMarker])
  else (Add relations keys, [Forwarded j]).

Fixpoint relayExclusive (indices : list (list IndexColumn))
    (relations : gmap string string) (jobs : list dmlJob)
  : gmap string string * list outJob :=
  match jobs with
  | [] => (relations, [])
  | j :: rest =>
      let '(r1, out1) := relayStepExclusive indices relations j in
      let '(r2, out2) := relayExclusive indices r1 rest in
      (r2, (out1 ++ out2)%list)
  end.

(** ** The tables and job sequences of the tests *)

(** [create table tb(a int primary key, b int unique)] *)
Definition tb_indices : list (list IndexColumn) :=
  [ [ {| colName := "a"; colOffset := 0; colLength := UnspecifiedLength |} ];
    [ {| colName := "b"; colOffset := 1; colLength := UnspecifiedLength |} ] ].

(** The five jobs of [TestCasuality]. *)
Definition tb_jobs : list dmlJob :=
  [ InsertJob [VInt 1; VInt 2];
    InsertJob [VInt 2; VInt 3];
    UpdateJob [VInt 2; VInt 3] [VInt 3; VInt 4];
    DeleteJob [VInt 1; VInt 2];
    InsertJob [VInt 1; VInt 3] ].

(** [unique key c1(c1(3))] of
    [create table t (c1 text, c2 int unique, unique key c1(c1(3)))] *)
Definition c1_prefix_index : list IndexColumn :=
  [ {| colName := "c1"; colOffset := 0; colLength := 3 |} ].

Definition t_indices : list (list IndexColumn) :=
  [ c1_prefix_index;
    [ {| colName := "c2"; colOffset := 1; colLength := UnspecifiedLength |} ] ].

(** The five jobs of [TestCasualityWithPrefixIndex]. *)
Definition t_jobs : list dmlJob :=
  [ InsertJob [VString "1234"; VInt 1];
    InsertJob [VString "2345"; VInt 2];
    UpdateJob [VString "2345"; VInt 2] [VString "2345"; VInt 3];
    DeleteJob [VString "1234"; VInt 1];
    InsertJob [VString "2345"; VInt 1] ].

End Causality.

(** * The rest of the sorter node *)

Module SorterExt.
Import Sorter.

(** Lines 80-83: [Init] starts the node without an actor router. *)
Definition Init (names : EngineNames) (n : sorterNode) (info : ChangefeedInfo)
    (env : StartEnv) : StartResult :=
  StartActorNode names n false info env.

(** Lines 246-249: [Receive] keeps the error of [TryHandleDataMessage] and
    drops its boolean. *)
Definition Receive (n : sorterNode) (msg : Message) (env : HandleEnv)
  : CallResult (option Err) :=
  match TryHandleDataMessage n msg env with
  | Ret n' tr (_, err) => Ret n' tr err
  | Panics n' tr p => Panics n' tr p
  end.

(** The node after a sequence of calls, if none of them panics. *)
Fixpoint runCalls (n : sorterNode) (calls : list NodeCall) : option sorterNode :=
  match calls with
  | [] => Some n
  | CallStart names router info env :: rest =>
      runCalls (startNode (StartActorNode names n router info env)) rest
  | CallHandle msg env :: rest =>
      match TryHandleDataMessage n msg env with
      | Ret n' _ _ => runCalls n' rest
      | Panics _ _ _ => None
      end
  end.

(** The timestamp a call hands to the node as puller resolved timestamp:
    [rawKV.CRTs] of a resolved event. *)
Definition pullerResolvedTs (c : NodeCall) : option Ts :=
  match c with
  | CallHandle msg _ =>
      match Tp msg, MsgEvent msg with
      | MessageTypePolymorphicEvent, Some ev =>
          match RawKV ev with
          | Some raw =>
              if OpType_eqb (OpType raw) OpTypeResolved then Some (rawCRTs raw) else None
          | None => None
          end
      | _, _ => None
      end
  | CallStart _ _ _ _ => None
  end.

(** ** Readings of a trace of the dispatch loop *)

(** The events handed to the mounter, in order. *)
Definition mounterInputs (tr : list Action) : list PolymorphicEvent :=
  omap (λ a, match a with MounterInput ev => Some ev | _ => None end) tr.

(** The event of a message sent to the output destination. *)
Definition forwardedEventOf (a : Action) : option PolymorphicEvent :=
  match a with
  | SendToNextNode m | OutputChSend m =>
      match Tp m, MsgEvent m with
      | MessageTypePolymorphicEvent, Some ev => Some ev
      | _, _ => None
      end
  | _ => None
  end.

(** The data events sent to the output destination, in order. *)
Definition forwardedData (tr : list Action) : list PolymorphicEvent :=
  List.filter (λ ev, negb (isResolvedEvent ev)) (omap forwardedEventOf tr).

(** The arguments of the calls of [Consume], in order. *)
Definition consumeCalls (tr : list Action) : list (Ts * Z) :=
  omap (λ a, match a with ConsumeCall c sz => Some (c, sz) | _ => None end) tr.

(** The data event a [select] outcome delivers, if it delivers one. *)
Definition dataEventOf (c : SelectCase) : option PolymorphicEvent :=
  match c with
  | SorterOutput (Some ev) _ =>
      match RawKV ev with
      | Some raw => if OpType_eqb (OpType raw) OpTypeResolved then None else Some ev
      | None => None
      end
  | _ => None
  end.

(** Actions that go through the actor router or the node's output channel,
    and actions that go through the legacy node context. *)
Definition usesActorRouter (a : Action) : bool :=
  match a with
  | SendBarrier _ | SendTick | SendStopB | OutputChSend _ => true
  | _ => false
  end.

Definition usesNodeContext (a : Action) : bool :=
  match a with
  | SendToNextNode _ | Throw _ => true
  | _ => false
  end.

Definition isMetricsTick (c : SelectCase) : bool :=
  match c with MetricsTick _ => true | _ => false end.

Definition isObserveMemory (a : Action) : bool :=
  match a with ObserveMemory _ => true | _ => false end.

(** Walks a trace with the largest resolved timestamp sent so far: a barrier
    message must exceed it, any other resolved marker must not fall below
    it. *)
Fixpoint barriersAdvance (lo : Ts) (tr : list Action) : Prop :=
  match tr with
  | [] => True
  | SendBarrier ts :: rest => (lo < ts)%N ∧ barriersAdvance ts rest
  | a :: rest =>
      match resolvedOfAction a with
      | Some t => (lo ≤ t)%N ∧ barriersAdvance t rest
      | None => barriersAdvance lo rest
      end
  end.

End SorterExt.

(** * The dsg sink

    [dsgSink] of package [sink]: it turns row-changed events into [RowJson]
    values, hands each to [sender], and counts rows for its statistics.
    [sender], [model.ColumnValueString] and [Statistics] are declared outside
    the file: the rendering of a value is a parameter, a row handed to
    [sender] is recorded in the list of sent rows, and what
    [RecordBatchExecution] does with the executor it is given is an input. *)

Module DsgSink.

Local Open Scope Z_scope.

(** Package [model], as far as the sink reads it.  Pointers that the sink
    dereferences are options. *)
Module model.

Record Column (V : Type) := mkColumn {
  Name : string;
  Value : V
}.
Arguments mkColumn {V} _ _.
Arguments Name {V} _.
Arguments Value {V} _.

Record TableName := mkTableName {
  Schema : string;
  Table : string
}.

Record RowChangedEvent (V : Type) := mkRow {
  RowTable : option TableName;                 (* row.Table *)
  PreColumns : list (option (Column V));
  Columns : list (option (Column V))
}.
Arguments mkRow {V} _ _ _.
Arguments RowTable {V} _.
Arguments PreColumns {V} _.
Arguments Columns {V} _.

End model.

(** The sink's own [Column]: [ColNo] and [ColType] are never set. *)
Record Column := mkColumn {
  ColNo : option Z;
  ColType : Z;
  ColName : option string;
  ColFlags : option Z;
  ColValue : string
}.

Record RowJson := mkRowJson {
  SchemaName : string;
  TableName : string;
  Columns : list Column
}.

(** [&RowJson{}] *)
Definition emptyRowJson : RowJson :=
  {| SchemaName := ""; TableName := ""; Columns := [] |}.

(** The counters of [dsgSink], all [uint64]. *)
Record dsgSink := mkSink {
  checkpointTs : Z;
  accumulated : Z;
  lastAccumulated : Z
}.

(** [newDsgSink]: a sink with zeroed counters. *)
Definition newDsgSink : dsgSink :=
  {| checkpointTs := 0; accumulated := 0; lastAccumulated := 0 |}.

Section Rows.

Context {V : Type}.

(** [model.ColumnValueString] *)
Variable ColumnValueString : V → string.

(** The [columnBuilder] of one iteration of [getRowData]'s loop. *)
Definition columnBuilder (colFlag : Z) (column : model.Column V) : Column :=
  {| ColNo := None; ColType := 0;
     ColName := Some (model.Name column);
     ColFlags := Some colFlag;
     ColValue := ColumnValueString (model.Value column) |}.

(** The loop of [getRowData]; [None] is the nil dereference at
    [column.Name]. *)
Fixpoint buildColumns (colFlag : Z) (columns : list (option (model.Column V)))
  : option (list Column) :=
  match columns with
  | [] => Some []
  | None :: _ => None
  | Some column :: rest =>
      match buildColumns colFlag rest with
      | Some cols => Some (columnBuilder colFlag column :: cols)
      | None => None
      end
  end.

(** [getRowData(colFlag, columns, json)]: it starts from a fresh [RowJson];
    its [json] argument is not read. *)
Definition getRowData (colFlag : Z) (columns : list (option (model.Column V)))
    (json : RowJson) : option RowJson :=
  match buildColumns colFlag columns with
  | Some cols => Some {| SchemaName := SchemaName emptyRowJson;
                         TableName := TableName emptyRowJson;
                         Columns := Columns emptyRowJson ++ cols |}
  | None => None
  end.

(** The event type taken from the first row: 2 insert, 4 delete, 3 update. *)
Definition eventTypeOf (first : model.RowChangedEvent V) : Z :=
  if (length (model.PreColumns first) =? 0)%nat then 2
  else if (length (model.Columns first) =? 0)%nat then 4
  else 3.

(** The [rowdata] built for one row in the second loop of
    [EmitRowChangedEvents], before the names are set. *)
Definition rowDataOf (eventTypeValue : Z) (row : model.RowChangedEvent V)
  : option RowJson :=
  let rowdata := emptyRowJson in
  if (eventTypeValue =? 2)%Z then getRowData 0 (model.Columns row) rowdata
  else if (eventTypeValue =? 4)%Z then getRowData 0 (model.PreColumns row) rowdata
  else if (eventTypeValue =? 3)%Z then
    match getRowData 0 (model.Columns row) rowdata with
    | Some rowdata1 => getRowData 1 (model.PreColumns row) rowdata1
    | None => None
    end
  else Some rowdata.

(** The second loop: the rows handed to [sender], and whether the loop ran
    to its end ([false]: a nil row or column stopped it with a panic). *)
Fixpoint sendRows (eventTypeValue : Z) (schemaName tableName : string)
    (rows : list (option (model.RowChangedEvent V))) : list RowJson * bool :=
  match rows with
  | [] => ([], true)
  | None :: _ => ([], false)
  | Some row :: rest =>
      match rowDataOf eventTypeValue row with
      | None => ([], false)
      | Some rowdata =>
          let sent := {| SchemaName := schemaName; TableName := tableName;
                         Columns := Columns rowdata |} in
          let '(more, finished) := sendRows eventTypeValue schemaName tableName rest in
          (sent :: more, finished)
      end
  end.

Inductive EmitResult :=
| EmitReturns (b : dsgSink) (sent : list RowJson)     (* returns nil *)
| EmitPanics (b : dsgSink) (sent : list RowJson).

(** [EmitRowChangedEvents]. *)
Definition EmitRowChangedEvents (b : dsgSink)
    (rows : list (option (model.RowChangedEvent V))) : EmitResult :=
  match rows with
  | [] => EmitReturns b []
  | None :: _ => EmitPanics b []
  | Some first :: _ =>
      let eventTypeValue := eventTypeOf first in
      match model.RowTable first with
      | None => EmitPanics b []
      | Some table =>
          match sendRows eventTypeValue (model.Schema table) (model.Table table) rows with
          | (sent, true) =>
              EmitReturns
                {| checkpointTs := checkpointTs b;
                   accumulated := (accumulated b + Z.of_nat (length rows)) mod 2 ^ 64;
                   lastAccumulated := lastAccumulated b |}
                sent
          | (sent, false) => EmitPanics b sent
          end
      end
  end.

End Rows.

(** [int(x)] for a [uint64] x, on a 64-bit platform. *)
Definition int_of_uint64 (x : Z) : Z := if x <? 2 ^ 63 then x else x - 2 ^ 64.

(** The executor closure of [FlushRowChangedEvents]: the batch size it
    reports, and the sink after it. *)
Definition flushExecutor (b : dsgSink) : dsgSink * Z :=
  let batchSize := (accumulated b - lastAccumulated b) mod 2 ^ 64 in
  ({| checkpointTs := checkpointTs b; accumulated := accumulated b;
      lastAccumulated := accumulated b |},
   int_of_uint64 batchSize).

(** What [RecordBatchExecution] does: how often it runs the executor, and
    the error it returns. *)
Record FlushEnv := mkFlushEnv {
  executorRuns : nat;
  recordErr : option string
}.

Fixpoint runExecutor (runs : nat) (b : dsgSink) : dsgSink * list Z :=
  match runs with
  | O => (b, [])
  | S k =>
      let '(b1, size) := flushExecutor b in
      let '(b2, sizes) := runExecutor k b1 in
      (b2, size :: sizes)
  end.

(** [FlushRowChangedEvents]: the sink after it, the batch sizes reported to
    the statistics, and the returned pair. *)
Definition FlushRowChangedEvents (b : dsgSink) (resolvedTs : Z) (env : FlushEnv)
  : dsgSink * list Z * (Z * option string) :=
  let '(b1, sizes) := runExecutor (executorRuns env) b in
  ({| checkpointTs := resolvedTs; accumulated := accumulated b1;
      lastAccumulated := lastAccumulated b1 |},
   sizes, (resolvedTs, recordErr env)).

(** The calls of the sink interface.  [EmitCheckpointTs], [EmitDDLEvent],
    [Initialize], [Close] and [Barrier] only log or do nothing, and return
    nil. *)
Inductive SinkCall (V : Type) :=
| CallEmit (rows : list (option (model.RowChangedEvent V)))
| CallFlush (resolvedTs : Z) (env : FlushEnv)
| CallEmitCheckpointTs (ts : Z)
| CallEmitDDLEvent
| CallInitialize
| CallClose
| CallBarrier.
Arguments CallEmit {V} _.
Arguments CallFlush {V} _ _.
Arguments CallEmitCheckpointTs {V} _.
Arguments CallEmitDDLEvent {V}.
Arguments CallInitialize {V}.
Arguments CallClose {V}.
Arguments CallBarrier {V}.

(** What a sequence of calls leaves behind, up to the first panic. *)
Record SinkRun := mkSinkRun {
  sinkAfter : dsgSink;
  rowsSent : list RowJson;
  batchSizes : list Z;        (* reported by the flush executors *)
  rowsAccepted : nat;         (* rows of the Emit calls that returned *)
  sinkPanicked : bool
}.

Fixpoint runSink {V : Type} (ColumnValueString : V → string) (b : dsgSink)
    (calls : list (SinkCall V)) : SinkRun :=
  match calls with
  | [] => {| sinkAfter := b; rowsSent := []; batchSizes := [];
             rowsAccepted := 0%nat; sinkPanicked := false |}
  | CallEmit rows :: rest =>
      match EmitRowChangedEvents ColumnValueString b rows with
      | EmitReturns b1 sent =>
          let r := runSink ColumnValueString b1 rest in
          {| sinkAfter := sinkAfter r; rowsSent := sent ++ rowsSent r;
             batchSizes := batchSizes r;
             rowsAccepted := (length rows + rowsAccepted r)%nat;
             sinkPanicked := sinkPanicked r |}
      | EmitPanics b1 sent =>
          {| sinkAfter := b1; rowsSent := sent; batchSizes := [];
             rowsAccepted := 0%nat; sinkPanicked := true |}
      end
  | CallFlush resolvedTs env :: rest =>
      let '(b1, sizes, _) := FlushRowChangedEvents b resolvedTs env in
      let r := runSink ColumnValueString b1 rest in
      {| sinkAfter := sinkAfter r; rowsSent := rowsSent r;
         batchSizes := sizes ++ batchSizes r;
         rowsAccepted := rowsAccepted r; sinkPanicked := sinkPanicked r |}
  | _ :: rest => runSink ColumnValueString b rest
  end.

(** The timestamp of the last flush among the calls, if any. *)
Definition lastFlushTs {V : Type} (calls : list (SinkCall V)) : option Z :=
  foldl (λ acc c, match c with CallFlush ts _ => Some ts | _ => acc end) None calls.

(** ** Sample rows *)

Definition sample_col (name value : string) : option (model.Column string) :=
  Some (model.mkColumn name value).

Definition sample_table : option model.TableName :=
  Some {| model.Schema := "test"; model.Table := "t1" |}.

Definition sample_insert_row : option (model.RowChangedEvent string) :=
  Some (model.mkRow sample_table [] [sample_col "a" "1"; sample_col "b" "2"]).

Definition sample_update_row : option (model.RowChangedEvent string) :=
  Some (model.mkRow sample_table
          [sample_col "a" "1"; sample_col "b" "2"]
          [sample_col "a" "1"; sample_col "b" "3"]).

End DsgSink.

(** * Task configuration

    Package [config]: [MySQLInstance.Verify], [TaskConfig.adjust] and
    [TaskConfig.SubTaskConfigs].  Pointers that the code tests or
    dereferences are options; a map from names to pointers is a [gmap] to
    options, a present key may hold nil.  The database config and the rule
    types come from other packages and are type parameters; the mode and
    flavor names are declared outside the file and are parameters too.

    [adjust] is called by [Decode] and [DecodeFile] only, on the config that
    [yaml.Unmarshal] has just filled in, whose instance list holds one object
    per entry.  The list is therefore a list of values, and the update that
    an iteration of [adjust] makes to its instance in place is the value the
    iteration leaves at that position. *)

Module Config.

Local Open Scope Z_scope.

(** [ModeFull], [ModeIncrement], [ModeAll] of package [config] and
    [mysql.MySQLFlavor], [mysql.MariaDBFlavor]. *)
Record Names := mkNames {
  ModeFull : string;
  ModeIncrement : string;
  ModeAll : string;
  MySQLFlavor : string;
  MariaDBFlavor : string
}.

(** [Meta]: the binlog position. *)
Record MetaPos := mkMeta {
  BinLogName : string;
  BinLogPos : Z               (* uint32 *)
}.

Record MydumperConfig := mkMydumper {
  MydumperPath : string;
  Threads : Z;
  ChunkFilesize : Z;
  SkipTzUTC : bool;
  ExtraArgs : string
}.

Record LoaderConfig := mkLoader {
  PoolSize : Z;
  Dir : string
}.

Record SyncerConfig := mkSyncer {
  MetaFile : string;
  WorkerCount : Z;
  Batch : Z;
  MaxRetry : Z;
  EnableGTID : bool;
  AutoFixGTID : bool;
  DisableCausality : bool;
  SafeMode : bool
}.

(** The errors [Verify] and [adjust] construct, with the values their
    messages are formatted from. *)
Inductive ConfigError :=
| ErrConfigMustSpecify                      (* config must specify *)
| ErrServerID (serverID : Z)                (* server-id should from 1 to 2^32 - 1 *)
| ErrBothMydumper                           (* mydumper-config-name and mydumper *)
| ErrBothLoader
| ErrBothSyncer
| ErrNoTaskName                             (* must specify a unique task name *)
| ErrTaskMode
| ErrFlavor
| ErrNoTargetDB
| ErrNoInstances
| ErrInstance (i : nat) (e : ConfigError)   (* Annotatef(err, "mysql-instance: %d", i) *)
| ErrSameServerID (first i : nat) (serverID : Z)
| ErrMetaRequired (i : nat) (mode : string)
| ErrRouteRule (i : nat) (name : string)
| ErrFilterRule (i : nat) (name : string)
| ErrColumnMappingRule (i : nat) (name : string)
| ErrBWList (i : nat) (name : string)
| ErrMydumperConfig (i : nat) (name : string)
| ErrMydumperPath (i : nat)
| ErrLoaderConfig (i : nat) (name : string)
| ErrSyncerConfig (i : nat) (name : string).

Section Task.

Context {DBConfig TableRule BinlogEventRule ColumnRule FilterRules : Type}.

Record MySQLInstance := mkInstance {
  Config : option DBConfig;
  ServerID : Z;                             (* int *)
  RelayDir : string;
  Meta : option MetaPos;
  FilterRules' : list string;               (* FilterRules *)
  ColumnMappingRules : list string;
  RouteRules : list string;
  BWListName : string;
  MydumperConfigName : string;
  Mydumper : option MydumperConfig;
  LoaderConfigName : string;
  Loader : option LoaderConfig;
  SyncerConfigName : string;
  Syncer : option SyncerConfig
}.

Record TaskConfig := mkTask {
  Name : string;
  TaskMode : string;
  Flavor : string;
  VerifyChecksum : bool;
  CheckpointSchemaPrefix : string;
  RemovePreviousCheckpoint : bool;
  TargetDB : option DBConfig;
  MySQLInstances : list (option MySQLInstance);
  InSharding : bool;
  Routes : gmap string (option TableRule);
  Filters : gmap string (option BinlogEventRule);
  ColumnMappings : gmap string (option ColumnRule);
  BWList : gmap string (option FilterRules);
  Mydumpers : gmap string (option MydumperConfig);
  Loaders : gmap string (option LoaderConfig);
  Syncers : gmap string (option SyncerConfig)
}.

(** [len(s) > 0] *)
Definition nonEmpty (s : string) : bool := (0 <? String.length s)%nat.

(** [_, ok := m[name]] *)
Definition hasKey {T : Type} (m : gmap string (option T)) (name : string) : bool :=
  match m !! name with Some _ => true | None => false end.

(** [m[name]]: nil for a missing key. *)
Definition lookupOrNil {T : Type} (m : gmap string (option T)) (name : string) : option T :=
  match m !! name with Some v => v | None => None end.

(** [(m *MySQLInstance) Verify()], lines 58-79; [None] is nil. *)
Definition Verify (m : option MySQLInstance) : option ConfigError :=
  match m with
  | None => Some ErrConfigMustSpecify
  | Some m =>
      match Config m with
      | None => Some ErrConfigMustSpecify
      | Some _ =>
          if ServerID m <? 1 then Some (ErrServerID (ServerID m))
          else if nonEmpty (MydumperConfigName m) && bool_decide (is_Some (Mydumper m))
          then Some ErrBothMydumper
          else if nonEmpty (LoaderConfigName m) && bool_decide (is_Some (Loader m))
          then Some ErrBothLoader
          else if nonEmpty (SyncerConfigName m) && bool_decide (is_Some (Syncer m))
          then Some ErrBothSyncer
          else None
      end
  end.

Definition set_units (inst : MySQLInstance) (md : option MydumperConfig)
    (ld : option LoaderConfig) (sy : option SyncerConfig) : MySQLInstance :=
  {| Config := Config inst; ServerID := ServerID inst; RelayDir := RelayDir inst;
     Meta := Meta inst; FilterRules' := FilterRules' inst;
     ColumnMappingRules := ColumnMappingRules inst; RouteRules := RouteRules inst;
     BWListName := BWListName inst;
     MydumperConfigName := MydumperConfigName inst; Mydumper := md;
     LoaderConfigName := LoaderConfigName inst; Loader := ld;
     SyncerConfigName := SyncerConfigName inst; Syncer := sy |}.

(** One iteration of the loop of [adjust]: the instance as the iteration
    leaves it, whether it logged the warning about an unused meta, and how
    it ends. *)
Inductive InstResult :=
| InstOk (inst : MySQLInstance) (warned : bool)
| InstErr (inst : option MySQLInstance) (warned : bool) (e : ConfigError)
| InstPanic (inst : option MySQLInstance) (warned : bool).

Section Adjust.

Variable names : Names.
Variable c : TaskConfig.

Definition fullOrAll : bool :=
  String.eqb (TaskMode c) (ModeFull names) || String.eqb (TaskMode c) (ModeAll names).

(** Lines 211-213: the warning about a meta that will not be used. *)
Definition warnsUnusedMeta (inst : MySQLInstance) : bool :=
  bool_decide (is_Some (Meta inst)) && fullOrAll.

(** Lines 237-263, after the reference checks. *)
Definition adjustUnits (i : nat) (inst : MySQLInstance) : InstResult :=
  let warned := warnsUnusedMeta inst in
  match (if nonEmpty (MydumperConfigName inst)
         then Mydumpers c !! MydumperConfigName inst
         else Some (Mydumper inst)) with
  | None => InstErr (Some inst) warned (ErrMydumperConfig i (MydumperConfigName inst))
  | Some md =>
      let inst1 := set_units inst md (Loader inst) (Syncer inst) in
      match (if fullOrAll
             then match md with
                  | None => inr None                       (* nil dereference *)
                  | Some m => if (String.length (MydumperPath m) =? 0)%nat
                              then inr (Some (ErrMydumperPath i)) else inl tt
                  end
             else inl tt) with
      | inr None => InstPanic (Some inst1) warned
      | inr (Some e) => InstErr (Some inst1) warned e
      | inl _ =>
          match (if nonEmpty (LoaderConfigName inst)
                 then Loaders c !! LoaderConfigName inst
                 else Some (Loader inst)) with
          | None => InstErr (Some inst1) warned
                      (ErrLoaderConfig i (LoaderConfigName inst))
          | Some ld =>
              let inst2 := set_units inst md ld (Syncer inst) in
              match (if nonEmpty (SyncerConfigName inst)
                     then Syncers c !! SyncerConfigName inst
                     else Some (Syncer inst)) with
              | None => InstErr (Some inst2) warned
                          (ErrSyncerConfig i (SyncerConfigName inst))
              | Some sy => InstOk (set_units inst md ld sy) warned
              end
          end
      end
  end.

(** Lines 203-235 followed by [adjustUnits]; [sids] is the map from server
    id to instance index built so far. *)
Definition adjustInstance (i : nat) (sids : gmap Z nat) (oinst : option MySQLInstance)
  : InstResult :=
  match Verify oinst with
  | Some e => InstErr oinst false (ErrInstance i e)
  | None =>
      match oinst with
      | None => InstPanic oinst false
      | Some inst =>
          match sids !! ServerID inst with
          | Some sid => InstErr oinst false (ErrSameServerID sid i (ServerID inst))
          | None =>
              let warned := warnsUnusedMeta inst in
              if negb (bool_decide (is_Some (Meta inst)))
                 && String.eqb (TaskMode c) (ModeIncrement names)
              then InstErr oinst warned (ErrMetaRequired i (TaskMode c))
              else
                match List.find (λ name, negb (hasKey (Routes c) name)) (RouteRules inst) with
                | Some name => InstErr oinst warned (ErrRouteRule i name)
                | None =>
                match List.find (λ name, negb (hasKey (Filters c) name)) (FilterRules' inst) with
                | Some name => InstErr oinst warned (ErrFilterRule i name)
                | None =>
                match List.find (λ name, negb (hasKey (ColumnMappings c) name))
                        (ColumnMappingRules inst) with
                | Some name => InstErr oinst warned (ErrColumnMappingRule i name)
                | None =>
                    if nonEmpty (BWListName inst) && negb (hasKey (BWList c) (BWListName inst))
                    then InstErr oinst warned (ErrBWList i (BWListName inst))
                    else adjustUnits i inst
                end end end
          end
      end
  end.

(** How the loop over the instances ends, with the instances as it leaves
    them and the indices it warned about. *)
Inductive LoopResult :=
| LoopOk (insts : list (option MySQLInstance)) (warned : list nat)
| LoopErr (insts : list (option MySQLInstance)) (warned : list nat) (e : ConfigError)
| LoopPanic (insts : list (option MySQLInstance)) (warned : list nat).

(** Lines 201-264. *)
Fixpoint adjustInstances (i : nat) (sids : gmap Z nat)
    (insts : list (option MySQLInstance)) : LoopResult :=
  let warning (warned : bool) := if warned then [i] else [] in
  match insts with
  | [] => LoopOk [] []
  | oinst :: rest =>
      match adjustInstance i sids oinst with
      | InstOk inst warned =>
          match adjustInstances (S i) (<[ServerID inst := i]> sids) rest with
          | LoopOk insts' ws => LoopOk (Some inst :: insts') (warning warned ++ ws)
          | LoopErr insts' ws e => LoopErr (Some inst :: insts') (warning warned ++ ws) e
          | LoopPanic insts' ws => LoopPanic (Some inst :: insts') (warning warned ++ ws)
          end
      | InstErr oinst' warned e => LoopErr (oinst' :: rest) (warning warned) e
      | InstPanic oinst' warned => LoopPanic (oinst' :: rest) (warning warned)
      end
  end.

End Adjust.

Definition set_instances (c : TaskConfig) (insts : list (option MySQLInstance))
  : TaskConfig :=
  {| Name := Name c; TaskMode := TaskMode c; Flavor := Flavor c;
     VerifyChecksum := VerifyChecksum c;
     CheckpointSchemaPrefix := CheckpointSchemaPrefix c;
     RemovePreviousCheckpoint := RemovePreviousCheckpoint c;
     TargetDB := TargetDB c; MySQLInstances := insts; InSharding := InSharding c;
     Routes := Routes c; Filters := Filters c; ColumnMappings := ColumnMappings c;
     BWList := BWList c; Mydumpers := Mydumpers c; Loaders := Loaders c;
     Syncers := Syncers c |}.

Inductive AdjustResult :=
| AdjustOk (c : TaskConfig) (warned : list nat)     (* returns nil *)
| AdjustErr (c : TaskConfig) (warned : list nat) (e : ConfigError)
| AdjustPanic (c : TaskConfig) (warned : list nat).

(** [(c *TaskConfig) adjust()], lines 182-267. *)
Definition adjust (names : Names) (c : TaskConfig) : AdjustResult :=
  if (String.length (Name c) =? 0)%nat then AdjustErr c [] ErrNoTaskName
  else if negb (String.eqb (TaskMode c) (ModeFull names))
          && negb (String.eqb (TaskMode c) (ModeIncrement names))
          && negb (String.eqb (TaskMode c) (ModeAll names))
  then AdjustErr c [] ErrTaskMode
  else if negb (String.eqb (Flavor c) (MySQLFlavor names))
          && negb (String.eqb (Flavor c) (MariaDBFlavor names))
  then AdjustErr c [] ErrFlavor
  else match TargetDB c with
       | None => AdjustErr c [] ErrNoTargetDB
       | Some _ =>
           if (length (MySQLInstances c) =? 0)%nat then AdjustErr c [] ErrNoInstances
           else match adjustInstances names c 0 ∅ (MySQLInstances c) with
                | LoopOk insts ws => AdjustOk (set_instances c insts) ws
                | LoopErr insts ws e => AdjustErr (set_instances c insts) ws e
                | LoopPanic insts ws => AdjustPanic (set_instances c insts) ws
                end
       end.

(** The fields of [SubTaskConfig] that [SubTaskConfigs] assigns. *)
Record SubTaskConfig := mkSub {
  SubInSharding : bool;
  SubName : string;
  SubMode : string;
  SubFlavor : string;
  SubBinlogType : string;
  SubRelayDir : string;
  SubVerifyChecksum : bool;
  SubCheckpointSchemaPrefix : string;
  SubRemovePreviousCheckpoint : bool;
  SubMeta : option MetaPos;
  SubFrom : DBConfig;
  SubTo : DBConfig;
  SubServerID : Z;
  SubRouteRules : list (option TableRule);
  SubFilterRules : list (option BinlogEventRule);
  SubColumnMappingRules : list (option ColumnRule);
  SubBWList : option FilterRules;
  SubMydumperConfig : MydumperConfig;
  SubLoaderConfig : LoaderConfig;
  SubSyncerConfig : SyncerConfig
}.

(** The body of the loop of [SubTaskConfigs], lines 273-311; [None] is a nil
    dereference. *)
Definition subTaskConfig (c : TaskConfig) (oinst : option MySQLInstance)
  : option SubTaskConfig :=
  match oinst, TargetDB c with
  | Some inst, Some to =>
      match Config inst, Mydumper inst, Loader inst, Syncer inst with
      | Some from, Some md, Some ld, Some sy =>
          Some {| SubInSharding := InSharding c; SubName := Name c;
                  SubMode := TaskMode c; SubFlavor := Flavor c;
                  SubBinlogType := "local"; SubRelayDir := RelayDir inst;
                  SubVerifyChecksum := VerifyChecksum c;
                  SubCheckpointSchemaPrefix := CheckpointSchemaPrefix c;
                  SubRemovePreviousCheckpoint := RemovePreviousCheckpoint c;
                  SubMeta := Meta inst; SubFrom := from; SubTo := to;
                  SubServerID := ServerID inst;
                  SubRouteRules := map (lookupOrNil (Routes c)) (RouteRules inst);
                  SubFilterRules := map (lookupOrNil (Filters c)) (FilterRules' inst);
                  SubColumnMappingRules :=
                    map (lookupOrNil (ColumnMappings c)) (ColumnMappingRules inst);
                  SubBWList := lookupOrNil (BWList c) (BWListName inst);
                  SubMydumperConfig := md; SubLoaderConfig := ld;
                  SubSyncerConfig := sy |}
      | _, _, _, _ => None
      end
  | _, _ => None
  end.

(** [(c *TaskConfig) SubTaskConfigs()], lines 270-314; [None] is a panic. *)
Fixpoint subTaskConfigsOf (c : TaskConfig) (insts : list (option MySQLInstance))
  : option (list SubTaskConfig) :=
  match insts with
  | [] => Some []
  | oinst :: rest =>
      match subTaskConfig c oinst with
      | None => None
      | Some cfg =>
          match subTaskConfigsOf c rest with
          | Some cfgs => Some (cfg :: cfgs)
          | None => None
          end
      end
  end.

Definition SubTaskConfigs (c : TaskConfig) : option (list SubTaskConfig) :=
  subTaskConfigsOf c (MySQLInstances c).

End Task.

(** ** A sample task *)

Definition sample_names : Names :=
  {| ModeFull := "full"; ModeIncrement := "incremental"; ModeAll := "all";
     MySQLFlavor := "mysql"; MariaDBFlavor := "mariadb" |}.

Definition sample_instance (serverID : Z) : MySQLInstance (DBConfig := string) :=
  {| Config := Some "127.0.0.1:3306"; ServerID := serverID; RelayDir := "./relay";
     Meta := Some {| BinLogName := "mysql-bin.000001"; BinLogPos := 4 |};
     FilterRules' := []; ColumnMappingRules := []; RouteRules := ["route-1"];
     BWListName := "";
     MydumperConfigName := "global"; Mydumper := None;
     LoaderConfigName := "global"; Loader := None;
     SyncerConfigName := "global"; Syncer := None |}.

Definition sample_task (mode : string) (serverIDs : list Z)
  : TaskConfig (DBConfig := string) (TableRule := string) (BinlogEventRule := string)
      (ColumnRule := string) (FilterRules := string) :=
  {| Name := "task"; TaskMode := mode; Flavor := "mysql";
     VerifyChecksum := false; CheckpointSchemaPrefix := "dm_meta";
     RemovePreviousCheckpoint := false;
     TargetDB := Some "127.0.0.1:4000";
     MySQLInstances := map (λ sid, Some (sample_instance sid)) serverIDs;
     InSharding := false;
     Routes := {[ "route-1" := Some "rule" ]};
     Filters := ∅; ColumnMappings := ∅; BWList := ∅;
     Mydumpers := {[ "global" := Some (mkMydumper "./bin/mydumper" 4 64 true "") ]};
     Loaders := {[ "global" := Some (mkLoader 16 "./dumped_data") ]};
     Syncers := {[ "global" := Some (mkSyncer "" 16 100 100 false false false false) ]} |}.

(** An instance that names no unit config and carries none. *)
Definition sample_bare_instance (serverID : Z) : MySQLInstance (DBConfig := string) :=
  {| Config := Some "127.0.0.1:3306"; ServerID := serverID; RelayDir := "./relay";
     Meta := None;
     FilterRules' := []; ColumnMappingRules := []; RouteRules := [];
     BWListName := "";
     MydumperConfigName := ""; Mydumper := None;
     LoaderConfigName := ""; Loader := None;
     SyncerConfigName := ""; Syncer := None |}.

Definition sample_bare_task (mode : string) (serverIDs : list Z) :=
  set_instances (sample_task mode [])
    (map (λ sid, Some (sample_bare_instance sid)) serverIDs).

End Config.

(** * Properties of the sorter pipeline stage *)

Module SorterFacts.
Import Sorter.

Local Open Scope N_scope.

(** [within lo hi tr]: the resolved markers of [tr] ascend and lie between
    [lo] and [hi]. *)
Local Abbreviation within lo hi tr :=
  (StronglySorted N.le (forwardedResolved tr)
   ∧ Forall (λ t, lo ≤ t ∧ t ≤ hi) (forwardedResolved tr)
   ∧ lo ≤ hi).

Lemma forwardedResolved_app (a b : list Action) :
  forwardedResolved (a ++ b) = forwardedResolved a ++ forwardedResolved b.
Proof. unfold forwardedResolved. apply omap_app. Qed.

Lemma StronglySorted_app_le (l1 l2 : list N) :
  StronglySorted N.le l1 → StronglySorted N.le l2 →
  (∀ x y, In x l1 → In y l2 → x ≤ y) →
  StronglySorted N.le (l1 ++ l2).
Proof.
  induction l1 as [|a l1 IH]; intros H1 H2 Hle; simpl; [assumption|].
  inversion H1 as [|? ? Hs Hall]; subst.
  constructor.
  - apply IH; [assumption | assumption |].
    intros x y Hx Hy. apply Hle; [right; assumption | assumption].
  - rewrite List.Forall_forall in *. intros x Hx.
    apply in_app_or in Hx as [Hx|Hx]; [auto|].
    apply Hle; [left; reflexivity | assumption].
Qed.

Lemma within_nil (lo : N) : within lo lo (@nil Action).
Proof. repeat split; [constructor | constructor | lia]. Qed.

Lemma within_app (lo mid hi : N) (a b : list Action) :
  within lo mid a → within mid hi b → within lo hi (a ++ b).
Proof.
  intros (Sa & Fa & Ha) (Sb & Fb & Hb).
  rewrite forwardedResolved_app. repeat split.
  - apply StronglySorted_app_le; [assumption | assumption |].
    rewrite List.Forall_forall in Fa, Fb.
    intros x y Hx Hy. specialize (Fa x Hx). specialize (Fb y Hy). lia.
  - apply Forall_app. split.
    + eapply List.Forall_impl; [|exact Fa]. simpl. intros; lia.
    + eapply List.Forall_impl; [|exact Fb]. simpl. intros; lia.
  - lia.
Qed.

Lemma within_silent (lo : N) (tr : list Action) :
  forwardedResolved tr = [] → within lo lo tr.
Proof. intros ->. repeat split; [constructor | constructor | lia]. Qed.

Section LoopFacts.

Variable interval : Duration.
Variable mode : bool.

Lemma forwardedResolved_sendInterpolated (ts : Ts) :
  forwardedResolved (sendInterpolated mode ts) = [ts].
Proof. unfold sendInterpolated. destruct mode; reflexivity. Qed.

Lemma within_sendInterpolated (lo ts : Ts) :
  lo ≤ ts → within lo ts (sendInterpolated mode ts).
Proof.
  intros H. rewrite forwardedResolved_sendInterpolated. repeat split.
  - repeat constructor.
  - constructor; [lia | constructor].
  - assumption.
Qed.

Lemma forwardedResolved_forward (ev : PolymorphicEvent) :
  forwardedResolved (forward mode ev)
  = if isResolvedEvent ev then [CRTs ev] else [].
Proof.
  unfold forward, forwardedResolved. destruct mode; simpl;
    unfold resolvedOfMessage; simpl; destruct (isResolvedEvent ev); reflexivity.
Qed.

Lemma forwardedResolved_consumeFailed (e : Err) :
  forwardedResolved (consumeFailed mode e) = [].
Proof.
  unfold consumeFailed.
  destruct (isFlowControllerAborted e); [reflexivity|].
  destruct mode; reflexivity.
Qed.

Lemma interpolate_within (s : LoopState) (commitTs : Ts) (env : DataEnv) :
  within (lastSentResolvedTs s)
         (lastSentResolvedTs (fst (interpolate interval mode s commitTs env)))
         (snd (interpolate interval mode s commitTs env)).
Proof.
  unfold interpolate.
  destruct (interval <? sinceNow env - lastSendResolvedTsTime s)%Z;
    [|apply within_nil].
  destruct (lastSentResolvedTs s <? lastCRTs s) eqn:E1; simpl; [|apply within_nil].
  destruct (lastCRTs s <? commitTs); simpl; [|apply within_nil].
  apply N.ltb_lt in E1. apply within_sendInterpolated. lia.
Qed.

Lemma blockCallback_within (s : LoopState) (now : Time) :
  within (lastSentResolvedTs s)
         (lastSentResolvedTs (fst (blockCallback mode s now)))
         (snd (blockCallback mode s now)).
Proof.
  unfold blockCallback.
  destruct (lastSentResolvedTs s <? lastCRTs s) eqn:E1; simpl; [|apply within_nil].
  apply N.ltb_lt in E1. apply within_sendInterpolated. lia.
Qed.

Lemma runCallbacks_within (times : list Time) : ∀ s : LoopState,
  within (lastSentResolvedTs s)
         (lastSentResolvedTs (fst (runCallbacks mode s times)))
         (snd (runCallbacks mode s times)).
Proof.
  induction times as [|t rest IH]; intros s; simpl; [apply within_nil|].
  pose proof (blockCallback_within s t) as Hb.
  destruct (blockCallback mode s t) as [s1 a1]. simpl in Hb.
  specialize (IH s1).
  destruct (runCallbacks mode s1 rest) as [s2 a2]. simpl in *.
  eapply within_app; eassumption.
Qed.

Lemma handleData_within (s : LoopState) (ev : PolymorphicEvent) (raw : RawKVEntry)
    (env : DataEnv) :
  RawKV ev = Some raw → OpType_eqb (OpType raw) OpTypeResolved = false →
  ∃ hi, within (lastSentResolvedTs s) hi (traceOf (handleData interval mode s ev raw env))
        ∧ ∀ s' tr, handleData interval mode s ev raw env = Continue s' tr →
                   lastSentResolvedTs s' = hi.
Proof.
  intros Hraw Hop. unfold handleData.
  pose proof (interpolate_within s (CRTs ev) env) as H1.
  destruct (interpolate interval mode s (CRTs ev) env) as [s1 a1]. simpl in H1.
  pose proof (runCallbacks_within (callbackTimes (consume env)) s1) as H2.
  destruct (runCallbacks mode s1 (callbackTimes (consume env))) as [s2 a2]. simpl in H2.
  exists (lastSentResolvedTs s2).
  assert (Hpre : within (lastSentResolvedTs s) (lastSentResolvedTs s2)
                   (a1 ++ [ConsumeCall (CRTs ev) (uint64_of_int64 (ApproximateSize raw))] ++ a2)).
  { eapply within_app; [exact H1|].
    eapply within_app; [apply within_nil | exact H2]. }
  assert (Hdata : isResolvedEvent ev = false).
  { unfold isResolvedEvent. rewrite Hraw. exact Hop. }
  destruct (consumeErr (consume env)) as [e|].
  - split; [|discriminate]. simpl traceOf.
    eapply within_app; [exact Hpre|].
    apply within_silent, forwardedResolved_consumeFailed.
  - destruct (mounterAccepts env).
    + split.
      * simpl traceOf. eapply within_app; [exact Hpre|].
        apply within_silent.
        change (MounterInput ev :: forward mode ev)
          with ([MounterInput ev] ++ forward mode ev).
        rewrite forwardedResolved_app, forwardedResolved_forward, Hdata. reflexivity.
      * intros s' tr [= <- _]. reflexivity.
    + split; [exact Hpre | discriminate].
Qed.

Lemma handleResolved_within (s : LoopState) (ev : PolymorphicEvent) (raw : RawKVEntry)
    (env : DataEnv) :
  RawKV ev = Some raw → OpType_eqb (OpType raw) OpTypeResolved = true →
  ∃ hi, within (lastSentResolvedTs s) hi (traceOf (handleResolved mode s ev env))
        ∧ ∀ s' tr, handleResolved mode s ev env = Continue s' tr →
                   lastSentResolvedTs s' = hi.
Proof.
  intros Hraw Hop. unfold handleResolved.
  destruct (CRTs ev <? lastSentResolvedTs s) eqn:E.
  - exists (lastSentResolvedTs s). split; [apply within_nil|].
    intros s' tr [= <- _]. reflexivity.
  - apply N.ltb_ge in E. exists (CRTs ev). split.
    + simpl traceOf. rewrite forwardedResolved_forward.
      unfold isResolvedEvent. rewrite Hraw, Hop. repeat split.
      * repeat constructor.
      * constructor; [lia | constructor].
      * assumption.
    + intros s' tr [= <- _]. reflexivity.
Qed.

Lemma loopStep_within (s : LoopState) (c : SelectCase) :
  ∃ hi, within (lastSentResolvedTs s) hi (traceOf (loopStep interval mode s c))
        ∧ ∀ s' tr, loopStep interval mode s c = Continue s' tr →
                   lastSentResolvedTs s' = hi.
Proof.
  destruct c as [| v | | [ev|] env]; simpl.
  - exists (lastSentResolvedTs s). split; [apply within_nil | discriminate].
  - exists (lastSentResolvedTs s). split; [apply within_nil|].
    intros s' tr [= <- _]. reflexivity.
  - exists (lastSentResolvedTs s). split; [apply within_nil | discriminate].
  - destruct (RawKV ev) as [raw|] eqn:Hraw.
    + destruct (OpType_eqb (OpType raw) OpTypeResolved) eqn:Hop; simpl.
      * eapply handleResolved_within; eassumption.
      * eapply handleData_within; eassumption.
    + exists (lastSentResolvedTs s). split; [apply within_nil | discriminate].
  - exists (lastSentResolvedTs s). split; [apply within_nil | discriminate].
Qed.

Lemma runLoop_ascending (cs : list SelectCase) : ∀ s : LoopState,
  StronglySorted N.le (forwardedResolved (snd (runLoop interval mode s cs)))
  ∧ Forall (λ t, lastSentResolvedTs s ≤ t)
           (forwardedResolved (snd (runLoop interval mode s cs))).
Proof.
  induction cs as [|c rest IH]; intros s; simpl.
  - split; constructor.
  - destruct (loopStep_within s c) as (hi & (Hs & Hf & Hle) & Hnext).
    destruct (loopStep interval mode s c) as [s' tr | tr | p tr]; simpl in *.
    + specialize (Hnext s' tr eq_refl). subst hi.
      destruct (IH s') as [IHs IHf].
      destruct (runLoop interval mode s' rest) as [e tr']. simpl in *.
      rewrite forwardedResolved_app. split.
      * apply StronglySorted_app_le; [assumption | assumption |].
        rewrite List.Forall_forall in Hf, IHf.
        intros x y Hx Hy. specialize (Hf x Hx). specialize (IHf y Hy). lia.
      * apply Forall_app. split.
        -- eapply List.Forall_impl; [|exact Hf]. simpl. intros; lia.
        -- eapply List.Forall_impl; [|exact IHf]. simpl. intros; lia.
    + split; [assumption|].
      eapply List.Forall_impl; [|exact Hf]. simpl. intros; lia.
    + split; [assumption|].
      eapply List.Forall_impl; [|exact Hf]. simpl. intros; lia.
Qed.

(** C1. In every execution of the dispatch loop for a table, from the
    start of the goroutine and over any sequence of [select] outcomes, the
    timestamps of the resolved markers sent downstream (interpolated ones,
    those of the block callback and those passed through from the sorter)
    are in non-decreasing order. *)
Theorem forwarded_resolved_nondecreasing (startTime : Time) (cs : list SelectCase) :
  StronglySorted N.le
    (forwardedResolved (snd (runLoop interval mode (initLoop startTime) cs))).
Proof. apply runLoop_ascending. Qed.

(** ** The block callback *)

Lemma runCallbacks_quiet (times : list Time) (s : LoopState) :
  lastCRTs s ≤ lastSentResolvedTs s → runCallbacks mode s times = (s, []).
Proof.
  intros H. induction times as [|t rest IH]; simpl; [reflexivity|].
  unfold blockCallback.
  destruct (lastSentResolvedTs s <? lastCRTs s) eqn:E.
  - apply N.ltb_lt in E. lia.
  - rewrite IH. reflexivity.
Qed.

Lemma blockCallback_fires (s : LoopState) (now : Time) :
  lastSentResolvedTs s < lastCRTs s →
  blockCallback mode s now
  = ({| lastSentResolvedTs := lastCRTs s; lastSendResolvedTsTime := now;
        lastCRTs := lastCRTs s |},
     sendInterpolated mode (lastCRTs s)).
Proof.
  intros H. unfold blockCallback.
  apply N.ltb_lt in H. rewrite H. reflexivity.
Qed.

Lemma blockCallback_silent (s : LoopState) (now : Time) :
  lastCRTs s ≤ lastSentResolvedTs s → blockCallback mode s now = (s, []).
Proof.
  intros H. unfold blockCallback.
  apply N.ltb_ge in H. rewrite H. reflexivity.
Qed.

Lemma runCallbacks_once (s : LoopState) (now : Time) (times : list Time) :
  runCallbacks mode s (now :: times) = blockCallback mode s now.
Proof.
  simpl. destruct (N.lt_ge_cases (lastSentResolvedTs s) (lastCRTs s)) as [H|H].
  - rewrite (blockCallback_fires s now H).
    rewrite runCallbacks_quiet by (simpl; lia).
    rewrite app_nil_r. reflexivity.
  - rewrite (blockCallback_silent s now H).
    rewrite runCallbacks_quiet by assumption. reflexivity.
Qed.

(** C5. When [Consume] blocks and invokes the block callback, the callback
    sends a resolved marker carrying the previously seen commit timestamp
    exactly when that timestamp is greater than the last-sent resolved
    timestamp; it then records it as last sent.  Otherwise it sends nothing
    and leaves the loop variables as they are.  Further invocations during
    the same [Consume] add nothing. *)
Theorem block_callback_sends_iff_unresolved (s : LoopState) (now : Time) :
  (lastSentResolvedTs s < lastCRTs s
   ↔ forwardedResolved (snd (blockCallback mode s now)) = [lastCRTs s])
  ∧ (lastSentResolvedTs s < lastCRTs s →
     snd (blockCallback mode s now) = sendInterpolated mode (lastCRTs s)
     ∧ lastSentResolvedTs (fst (blockCallback mode s now)) = lastCRTs s
     ∧ lastCRTs (fst (blockCallback mode s now)) = lastCRTs s)
  ∧ (lastCRTs s ≤ lastSentResolvedTs s → blockCallback mode s now = (s, []))
  ∧ (∀ times, runCallbacks mode s (now :: times) = blockCallback mode s now).
Proof.
  repeat split.
  - intros H. rewrite (blockCallback_fires s now H). simpl.
    apply forwardedResolved_sendInterpolated.
  - intros H. destruct (N.lt_ge_cases (lastSentResolvedTs s) (lastCRTs s)) as [Hlt|Hge];
      [assumption|].
    rewrite (blockCallback_silent s now Hge) in H. discriminate.
  - rewrite (blockCallback_fires s now H). reflexivity.
  - rewrite (blockCallback_fires s now H). reflexivity.
  - rewrite (blockCallback_fires s now H). reflexivity.
  - apply blockCallback_silent.
  - intros times. apply runCallbacks_once.
Qed.

(** ** A resolved marker from the sorter *)

(** C6. When the loop reads a resolved marker with timestamp [t] from the
    sorter: if [t] is below the last-sent resolved timestamp the marker is
    dropped, the loop variables stay as they are and nothing is sent;
    otherwise the last-sent resolved timestamp becomes [t] and the marker
    goes to the output destination: a direct send to the next node in
    legacy mode, the output channel followed by a tick in actor mode. *)
Theorem sorter_resolved_marker_handling (s : LoopState) (ev : PolymorphicEvent)
    (raw : RawKVEntry) (env : DataEnv) :
  RawKV ev = Some raw → OpType raw = OpTypeResolved →
  (loopStep interval mode s (SorterOutput (Some ev) env)
   = if CRTs ev <? lastSentResolvedTs s then Continue s []
     else Continue {| lastSentResolvedTs := CRTs ev;
                     lastSendResolvedTsTime := resolvedNow env;
                     lastCRTs := lastCRTs s |}
                  (if mode then [OutputChSend (PolymorphicEventMessage ev); SendTick]
                   else [SendToNextNode (PolymorphicEventMessage ev)]))
  ∧ forwardedResolved (traceOf (loopStep interval mode s (SorterOutput (Some ev) env)))
    = if CRTs ev <? lastSentResolvedTs s then [] else [CRTs ev].
Proof.
  intros Hraw Hop.
  assert (Hstep : loopStep interval mode s (SorterOutput (Some ev) env)
                  = handleResolved mode s ev env).
  { simpl. rewrite Hraw, Hop. reflexivity. }
  rewrite Hstep. unfold handleResolved. split.
  - unfold forward. reflexivity.
  - destruct (CRTs ev <? lastSentResolvedTs s); simpl traceOf; [reflexivity|].
    rewrite forwardedResolved_forward. unfold isResolvedEvent.
    rewrite Hraw, Hop. reflexivity.
Qed.

(** ** Errors of flow control and of start-up *)

Lemma OpType_eqb_eq (a b : model_OpType) : OpType_eqb a b = true ↔ a = b.
Proof. destruct a, b; simpl; split; intros H; try reflexivity; discriminate. Qed.

Lemma OpType_eqb_neq (a b : model_OpType) : OpType_eqb a b = false ↔ a ≠ b.
Proof.
  rewrite <- OpType_eqb_eq. destruct (OpType_eqb a b); split; intros H;
    try reflexivity; try discriminate; try (intros ?; discriminate).
  exfalso. apply H. reflexivity.
Qed.





(** ** Interpolation *)


(** A data event that passes flow control sends at most one resolved marker,
    the previous commit timestamp, and only if that was not yet resolved;
    with the interval elapsed and the three timestamps in order it does
    send it. *)
Local Ltac settle H :=
  rewrite ?forwardedResolved_app, ?forwardedResolved_sendInterpolated, ?H; cbn.

Lemma passing_step (s : LoopState) (c : SelectCase) :
  isPassingData c = true →
  ∃ s' tr,
    loopStep interval mode s c = Continue s' tr
    ∧ lastCRTs s' = commitOf c
    ∧ ((forwardedResolved tr = []
        ∧ lastSentResolvedTs s' = lastSentResolvedTs s
        ∧ lastSendResolvedTsTime s' = lastSendResolvedTsTime s)
       ∨ (forwardedResolved tr = [lastCRTs s]
          ∧ lastSentResolvedTs s < lastCRTs s
          ∧ lastSentResolvedTs s' = lastCRTs s))
    ∧ ((interval < sinceNowOf c - lastSendResolvedTsTime s)%Z →
       lastSentResolvedTs s < lastCRTs s → lastCRTs s < commitOf c →
       forwardedResolved tr = [lastCRTs s]).
Proof.
  intros Hc. destruct c as [| v | | [ev|] env]; try discriminate. simpl in Hc.
  destruct (RawKV ev) as [raw|] eqn:Hraw; [|discriminate].
  destruct (OpType_eqb (OpType raw) OpTypeResolved) eqn:Hop; [discriminate|].
  destruct (consumeErr (consume env)) eqn:Herr; [discriminate|].
  destruct (mounterAccepts env) eqn:Hm; [|discriminate]. clear Hc.
  assert (Hdata : forwardedResolved (MounterInput ev :: forward mode ev) = []).
  { change (MounterInput ev :: forward mode ev)
      with ([MounterInput ev] ++ forward mode ev).
    rewrite forwardedResolved_app, forwardedResolved_forward.
    unfold isResolvedEvent. rewrite Hraw, Hop. reflexivity. }
  cbn [loopStep commitOf sinceNowOf]. rewrite Hraw, Hop. cbn [negb].
  unfold handleData, interpolate. rewrite Herr, Hm.
  destruct (interval <? sinceNow env - lastSendResolvedTsTime s)%Z eqn:Et.
  - destruct (lastSentResolvedTs s <? lastCRTs s) eqn:E1.
    + destruct (lastCRTs s <? CRTs ev) eqn:E2; cbn [andb].
      * rewrite runCallbacks_quiet by (simpl; lia).
        eexists _, _. split; [reflexivity|]. apply N.ltb_lt in E1. settle Hdata.
        split; [reflexivity|]. split; [right; auto|]. auto.
      * apply N.ltb_ge in E2.
        destruct (callbackTimes (consume env)) as [|t times].
        -- eexists _, _. split; [reflexivity|]. settle Hdata.
           split; [reflexivity|]. split; [left; auto|]. intros; lia.
        -- rewrite runCallbacks_once. apply N.ltb_lt in E1.
           rewrite (blockCallback_fires s t E1).
           eexists _, _. split; [reflexivity|]. settle Hdata.
           split; [reflexivity|]. split; [right; auto|]. auto.
    + apply N.ltb_ge in E1. cbn [andb].
      rewrite runCallbacks_quiet by assumption.
      eexists _, _. split; [reflexivity|]. settle Hdata.
      split; [reflexivity|]. split; [left; auto|]. intros; lia.
  - apply Z.ltb_ge in Et.
    destruct (callbackTimes (consume env)) as [|t times].
    + eexists _, _. split; [reflexivity|]. settle Hdata.
      split; [reflexivity|]. split; [left; auto|]. intros; lia.
    + rewrite runCallbacks_once.
      destruct (N.lt_ge_cases (lastSentResolvedTs s) (lastCRTs s)) as [H|H].
      * rewrite (blockCallback_fires s t H).
        eexists _, _. split; [reflexivity|]. settle Hdata.
        split; [reflexivity|]. split; [right; auto|]. intros; lia.
      * rewrite (blockCallback_silent s t H).
        eexists _, _. split; [reflexivity|]. settle Hdata.
        split; [reflexivity|]. split; [left; auto|]. intros; lia.
Qed.

Lemma last_cons_default (l : list Ts) : ∀ x d : Ts,
  List.last (x :: l) d = List.last l x.
Proof.
  induction l as [|y l IH]; intros x d; [reflexivity|].
  change (List.last (x :: y :: l) d) with (List.last (y :: l) d).
  rewrite (IH y d), (IH y x). reflexivity.
Qed.









End LoopFacts.

(** ** The stored resolved timestamp of the node *)

Lemma TryHandleDataMessage_unresolved_keeps (n : sorterNode) (msg : Message)
    (env : HandleEnv) :
  isPullerResolved msg = false →
  match TryHandleDataMessage n msg env with
  | Ret n' _ _ => resolvedTs n' = resolvedTs n
  | Panics n' _ _ => resolvedTs n' = resolvedTs n
  end.
Proof.
  unfold isPullerResolved, TryHandleDataMessage, isResolvedEvent.
  destruct (Tp msg); try reflexivity.
  destruct (MsgEvent msg) as [ev|]; [|reflexivity].
  destruct (RawKV ev) as [raw|].
  - intros ->. destruct (sorter n); [destruct (isTableActorMode n)|]; reflexivity.
  - intros _. destruct (sorter n); [destruct (isTableActorMode n)|]; reflexivity.
Qed.

Lemma TryHandleDataMessage_returns_ge (n n' : sorterNode) (msg : Message)
    (env : HandleEnv) (tr : list Action) (r : bool * option Err) :
  TryHandleDataMessage n msg env = Ret n' tr r → resolvedTs n ≤ resolvedTs n'.
Proof.
  unfold TryHandleDataMessage.
  destruct (Tp msg); try (intros [= <- _ _]; lia).
  destruct (MsgEvent msg) as [ev|]; [|discriminate].
  destruct (RawKV ev) as [raw|].
  - destruct (OpType_eqb (OpType raw) OpTypeResolved).
    + destruct (rawCRTs raw <? resolvedTs n) eqn:E; [discriminate|].
      apply N.ltb_ge in E. cbn [sorter set_resolvedTs isTableActorMode].
      destruct (sorter n); [|discriminate].
      destruct (isTableActorMode n); intros [= <- _ _]; exact E.
    + destruct (sorter n); [|discriminate].
      destruct (isTableActorMode n); intros [= <- _ _]; lia.
  - destruct (sorter n); [|discriminate].
    destruct (isTableActorMode n); intros [= <- _ _]; lia.
Qed.

Lemma StartActorNode_keeps_resolvedTs (names : EngineNames) (n : sorterNode)
    (router : bool) (info : ChangefeedInfo) (env : StartEnv) :
  resolvedTs (startNode (StartActorNode names n router info env)) = resolvedTs n.
Proof.
  unfold StartActorNode.
  match goal with |- context [selectSorter ?a ?b ?c ?d] =>
    destruct (selectSorter a b c d) as [[e tr] | [srt tr]] end;
    [reflexivity|].
  destruct (failpointAddTableError env); reflexivity.
Qed.

Lemma resolvedTsReadings_ascending (calls : list NodeCall) : ∀ n : sorterNode,
  StronglySorted N.le (resolvedTsReadings n calls)
  ∧ Forall (λ t, ResolvedTs n ≤ t) (resolvedTsReadings n calls).
Proof.
  unfold ResolvedTs.
  induction calls as [|c rest IH]; intros n.
  - simpl. split; repeat constructor. unfold ResolvedTs. lia.
  - destruct c as [names router info env | msg env]; cbn [resolvedTsReadings].
    + destruct (IH (startNode (StartActorNode names n router info env))) as [IHs IHf].
      rewrite StartActorNode_keeps_resolvedTs in IHf. unfold ResolvedTs.
      split; constructor; try assumption. lia.
    + destruct (TryHandleDataMessage n msg env) as [n' tr r | n' tr p] eqn:E.
      * apply TryHandleDataMessage_returns_ge in E.
        destruct (IH n') as [IHs IHf]. unfold ResolvedTs.
        assert (Hf : Forall (λ t, resolvedTs n ≤ t) (resolvedTsReadings n' rest)).
        { eapply List.Forall_impl; [|exact IHf]. simpl. intros; lia. }
        split; constructor; try assumption. lia.
      * unfold ResolvedTs. split; repeat constructor. lia.
Qed.

(** C7, as amended.  When [TryHandleDataMessage] receives a resolved event
    of the puller whose timestamp is below the stored resolved timestamp, it
    panics with the message "resolved ts regression" and the fields table
    id, new timestamp and old timestamp; the swap of line 258 has by then
    stored the new, smaller timestamp, and that is what [ResolvedTs] returns
    at the panic.  Otherwise the stored timestamp becomes the new value and
    there is no regression panic: the call returns if the node has a sorter,
    and fails on the nil sorter if [StartActorNode] has not installed one.
    Over any sequence of calls the values [ResolvedTs] returns around the
    calls that return never decrease. *)
Theorem puller_resolved_regression_panics :
  (∀ (n : sorterNode) (msg : Message) (env : HandleEnv) (ev : PolymorphicEvent)
     (raw : RawKVEntry),
     Tp msg = MessageTypePolymorphicEvent → MsgEvent msg = Some ev →
     RawKV ev = Some raw → OpType raw = OpTypeResolved →
     (rawCRTs raw < resolvedTs n →
      TryHandleDataMessage n msg env
      = Panics (set_resolvedTs n (rawCRTs raw)) []
          (LogPanic "resolved ts regression"
             [("tableID", tableID n);
              ("resolvedTs", Z.of_N (rawCRTs raw));
              ("oldResolvedTs", Z.of_N (resolvedTs n))])
      ∧ ResolvedTs (set_resolvedTs n (rawCRTs raw)) = rawCRTs raw
      ∧ ResolvedTs (set_resolvedTs n (rawCRTs raw)) < ResolvedTs n)
     ∧ (resolvedTs n ≤ rawCRTs raw →
        match TryHandleDataMessage n msg env with
        | Ret n' _ _ =>
            sorter n ≠ None ∧ ResolvedTs n' = rawCRTs raw
            ∧ ResolvedTs n ≤ ResolvedTs n'
        | Panics n' _ p =>
            sorter n = None ∧ p = NilDereference ∧ ResolvedTs n' = rawCRTs raw
        end))
  ∧ (∀ (n : sorterNode) (calls : list NodeCall),
       StronglySorted N.le (resolvedTsReadings n calls)).
Proof.
  split.
  - intros n msg env ev raw HTp Hev Hraw Hop.
    unfold TryHandleDataMessage, regressionPanic, ResolvedTs.
    rewrite HTp, Hev, Hraw, Hop. cbn [OpType_eqb]. split.
    + intros Hlt. pose proof Hlt as Hlt'. apply N.ltb_lt in Hlt. rewrite Hlt.
      split; [reflexivity|]. split; [reflexivity | exact Hlt'].
    + intros Hge. pose proof Hge as Hge'. apply N.ltb_ge in Hge. rewrite Hge.
      cbn [sorter set_resolvedTs isTableActorMode].
      destruct (sorter n) as [srt|].
      * destruct (isTableActorMode n); cbn [resolvedTs];
          (split; [discriminate|]); (split; [reflexivity | exact Hge']).
      * cbn [resolvedTs]. repeat split; reflexivity.
  - intros n calls. apply resolvedTsReadings_ascending.
Qed.

(** C10. From the construction of a sorter node with start timestamp
    [startTs] up to the first resolved event of the puller handled by
    [TryHandleDataMessage], every [ResolvedTs()] returns [startTs]: the
    constructor stores it, and neither [StartActorNode] nor the handling of
    any other message changes it. *)
Theorem resolvedTs_is_startTs_until_puller_resolved (tableName : string)
    (tableID : TableID) (startTs : Ts) (calls : list NodeCall) :
  forallb (λ c, negb (callIsPullerResolved c)) calls = true →
  Forall (λ t, t = startTs)
         (resolvedTsReadings (newSorterNode tableName tableID startTs) calls).
Proof.
  assert (Hgen : ∀ (cs : list NodeCall) (n : sorterNode),
             forallb (λ c, negb (callIsPullerResolved c)) cs = true →
             Forall (λ t, t = resolvedTs n) (resolvedTsReadings n cs)).
  { induction cs as [|c rest IH]; intros n Hall.
    - repeat constructor.
    - cbn [forallb] in Hall. apply andb_prop in Hall as [Hc Hall].
      destruct c as [names router info env | msg env]; cbn [resolvedTsReadings].
      + constructor; [reflexivity|].
        rewrite <- (StartActorNode_keeps_resolvedTs names n router info env).
        apply IH. exact Hall.
      + constructor; [reflexivity|].
        simpl in Hc. apply negb_true_iff in Hc.
        pose proof (TryHandleDataMessage_unresolved_keeps n msg env Hc) as Hk.
        destruct (TryHandleDataMessage n msg env) as [n' tr r | n' tr p].
        * rewrite <- Hk. apply IH. exact Hall.
        * constructor. }
  intros Hall. apply (Hgen calls (newSorterNode tableName tableID startTs) Hall).
Qed.

(** ** The statements at concrete inputs *)

(** The claim C7 as the spec states it fails on the code in two places.
    A node that stores 100 and is handed the puller timestamp 50 panics, but
    line 258 has already swapped 50 in: the value [ResolvedTs] returns,
    which is loaded atomically because other goroutines read it, has gone
    from 100 to 50.  And a node that was constructed but not started has no
    sorter, so it panics on a puller timestamp that does not regress. *)
Lemma resolvedTs_decreases_at_regression_panic :
  (TryHandleDataMessage sample_node
     (PolymorphicEventMessage (NewResolvedPolymorphicEvent 0 50)) sample_handle_env
   = Panics (set_resolvedTs sample_node 50) []
       (LogPanic "resolved ts regression"
          [("tableID", 42%Z); ("resolvedTs", 50%Z); ("oldResolvedTs", 100%Z)])
   ∧ ResolvedTs sample_node = 100
   ∧ ResolvedTs (set_resolvedTs sample_node 50) = 50
   ∧ ResolvedTs (set_resolvedTs sample_node 50) < ResolvedTs sample_node)
  ∧ (ResolvedTs (newSorterNode "`test`.`t`" 42 100) = 100
     ∧ TryHandleDataMessage (newSorterNode "`test`.`t`" 42 100)
         (PolymorphicEventMessage (NewResolvedPolymorphicEvent 0 150)) sample_handle_env
       = Panics (set_resolvedTs (newSorterNode "`test`.`t`" 42 100) 150) []
           NilDereference).
Proof. repeat split; reflexivity. Qed.


Lemma block_callback_sends_iff_unresolved_witness :
  (lastSentResolvedTs (mkLoop 5 0 7) < lastCRTs (mkLoop 5 0 7)
   ∧ snd (blockCallback true (mkLoop 5 0 7) 1%Z) = [SendBarrier 7]
   ∧ lastSentResolvedTs (fst (blockCallback true (mkLoop 5 0 7) 1%Z)) = 7)
  ∧ (lastCRTs (mkLoop 7 0 7) ≤ lastSentResolvedTs (mkLoop 7 0 7)
     ∧ blockCallback true (mkLoop 7 0 7) 1%Z = (mkLoop 7 0 7, [])).
Proof.
  split.
  - destruct (block_callback_sends_iff_unresolved true (mkLoop 5 0 7) 1%Z)
      as (_ & Hfire & _).
    assert (Hlt : lastSentResolvedTs (mkLoop 5 0 7) < lastCRTs (mkLoop 5 0 7))
      by reflexivity.
    destruct (Hfire Hlt) as (Hsnd & Hsent & _).
    split; [exact Hlt|]. split; [exact Hsnd | exact Hsent].
  - destruct (block_callback_sends_iff_unresolved true (mkLoop 7 0 7) 1%Z)
      as (_ & _ & Hquiet & _).
    assert (Hge : lastCRTs (mkLoop 7 0 7) ≤ lastSentResolvedTs (mkLoop 7 0 7))
      by (simpl; lia).
    split; [exact Hge | exact (Hquiet Hge)].
Defined.

Lemma sorter_resolved_marker_handling_witness :
  RawKV (NewResolvedPolymorphicEvent 0 9) = Some (mkRawKV OpTypeResolved 9 0 0)
  ∧ OpType (mkRawKV OpTypeResolved 9 0 0) = OpTypeResolved
  ∧ loopStep sample_interval true (mkLoop 5 0 7)
      (SorterOutput (Some (NewResolvedPolymorphicEvent 0 9)) (sample_env 1 consume_ok))
    = Continue (mkLoop 9 1 7)
        [OutputChSend (PolymorphicEventMessage (NewResolvedPolymorphicEvent 0 9)); SendTick]
  ∧ loopStep sample_interval false (mkLoop 5 0 7)
      (SorterOutput (Some (NewResolvedPolymorphicEvent 0 4)) (sample_env 1 consume_ok))
    = Continue (mkLoop 5 0 7) [].
Proof.
  split; [reflexivity|]. split; [reflexivity|]. split.
  - exact (proj1 (sorter_resolved_marker_handling sample_interval true (mkLoop 5 0 7)
                    (NewResolvedPolymorphicEvent 0 9) (mkRawKV OpTypeResolved 9 0 0)
                    (sample_env 1 consume_ok) eq_refl eq_refl)).
  - exact (proj1 (sorter_resolved_marker_handling sample_interval false (mkLoop 5 0 7)
                    (NewResolvedPolymorphicEvent 0 4) (mkRawKV OpTypeResolved 4 0 0)
                    (sample_env 1 consume_ok) eq_refl eq_refl)).
Defined.

Lemma puller_resolved_regression_panics_witness :
  (rawCRTs (mkRawKV OpTypeResolved 50 0 0) < resolvedTs sample_node
   ∧ TryHandleDataMessage sample_node
       (PolymorphicEventMessage (NewResolvedPolymorphicEvent 0 50)) sample_handle_env
     = Panics (set_resolvedTs sample_node 50) []
         (LogPanic "resolved ts regression"
            [("tableID", 42%Z); ("resolvedTs", 50%Z); ("oldResolvedTs", 100%Z)])
   ∧ ResolvedTs (set_resolvedTs sample_node 50) = 50)
  ∧ (resolvedTs sample_node ≤ rawCRTs (mkRawKV OpTypeResolved 150 0 0)
     ∧ match TryHandleDataMessage sample_node
               (PolymorphicEventMessage (NewResolvedPolymorphicEvent 0 150))
               sample_handle_env with
       | Ret n' _ _ =>
           sorter sample_node ≠ None ∧ ResolvedTs n' = 150
           ∧ ResolvedTs sample_node ≤ ResolvedTs n'
       | Panics n' _ p =>
           sorter sample_node = None ∧ p = NilDereference ∧ ResolvedTs n' = 150
       end).
Proof.
  destruct puller_resolved_regression_panics as [Hstep _].
  split.
  - assert (Hlt : rawCRTs (mkRawKV OpTypeResolved 50 0 0) < resolvedTs sample_node)
      by reflexivity.
    split; [exact Hlt|].
    destruct (proj1 (Hstep sample_node
                       (PolymorphicEventMessage (NewResolvedPolymorphicEvent 0 50))
                       sample_handle_env (NewResolvedPolymorphicEvent 0 50)
                       (mkRawKV OpTypeResolved 50 0 0) eq_refl eq_refl eq_refl eq_refl) Hlt)
      as (Hpanic & Hstored & _).
    split; [exact Hpanic | exact Hstored].
  - assert (Hge : resolvedTs sample_node ≤ rawCRTs (mkRawKV OpTypeResolved 150 0 0))
      by (vm_compute; discriminate).
    split; [exact Hge|].
    exact (proj2 (Hstep sample_node
                    (PolymorphicEventMessage (NewResolvedPolymorphicEvent 0 150))
                    sample_handle_env (NewResolvedPolymorphicEvent 0 150)
                    (mkRawKV OpTypeResolved 150 0 0) eq_refl eq_refl eq_refl eq_refl) Hge).
Defined.


Lemma resolvedTs_is_startTs_until_puller_resolved_witness :
  forallb (λ c, negb (callIsPullerResolved c))
    [CallStart sample_names false (sample_info "memory") sample_start_env;
     CallHandle (PolymorphicEventMessage (sample_put 120)) sample_handle_env;
     CallHandle (mkMessage MessageTypeTick None 0) sample_handle_env] = true
  ∧ Forall (λ t, t = 100)
      (resolvedTsReadings (newSorterNode "`test`.`t`" 42 100)
         [CallStart sample_names false (sample_info "memory") sample_start_env;
          CallHandle (PolymorphicEventMessage (sample_put 120)) sample_handle_env;
          CallHandle (mkMessage MessageTypeTick None 0) sample_handle_env]).
Proof.
  split; [reflexivity|].
  apply (resolvedTs_is_startTs_until_puller_resolved "`test`.`t`" 42%Z 100).
  reflexivity.
Defined.

End SorterFacts.

(** * Properties of the causality detector and relay *)

Module CausalityFacts.
Import Causality.

Local Open Scope string_scope.

(** ** Conflict detection *)

Lemma collectRoots_elem (relations : gmap string string) (keys : list string)
    (r : string) :
  r ∈ collectRoots relations keys ↔ ∃ k, k ∈ keys ∧ relations !! k = Some r.
Proof. unfold collectRoots. apply list_elem_of_omap. Qed.

Lemma forallb_eqb_false (r : string) (rest : list string) :
  forallb (String.eqb r) rest = false → ∃ x, x ∈ rest ∧ r ≠ x.
Proof.
  induction rest as [|y rest IH]; simpl; [discriminate|].
  destruct (String.eqb r y) eqn:E; simpl.
  - intros H. destruct (IH H) as (x & Hx & Hne).
    exists x. split; [right; exact Hx | exact Hne].
  - intros _. exists y. split; [left | apply String.eqb_neq; exact E].
Qed.

Lemma forallb_eqb_true (r x : string) (rest : list string) :
  forallb (String.eqb r) rest = true → x ∈ rest → x = r.
Proof.
  intros H Hx. rewrite forallb_forall in H.
  apply list_elem_of_In in Hx. specialize (H x Hx).
  apply String.eqb_eq in H. congruence.
Qed.

Lemma allEqual_false (roots : list string) :
  allEqual roots = false ↔ ∃ r1 r2, r1 ∈ roots ∧ r2 ∈ roots ∧ r1 ≠ r2.
Proof.
  destruct roots as [|r rest]; simpl.
  - split; [discriminate|]. intros (r1 & _ & H & _). inversion H.
  - split.
    + intros H. destruct (forallb_eqb_false r rest H) as (x & Hx & Hne).
      exists r, x. repeat split; [left | right; exact Hx | exact Hne].
    + intros (r1 & r2 & H1 & H2 & Hne).
      destruct (forallb (String.eqb r) rest) eqn:E; [|reflexivity].
      exfalso. apply Hne.
      assert (Hr : ∀ x, x ∈ r :: rest → x = r).
      { intros x Hx. apply elem_of_cons in Hx as [->|Hx]; [reflexivity|].
        eapply forallb_eqb_true; eassumption. }
      rewrite (Hr r1 H1), (Hr r2 H2). reflexivity.
Qed.

Lemma HasConflict_iff (relations : gmap string string) (keys : list string) :
  HasConflict relations keys = true
  ↔ ∃ k1 k2 r1 r2, k1 ∈ keys ∧ k2 ∈ keys
                   ∧ relations !! k1 = Some r1 ∧ relations !! k2 = Some r2
                   ∧ r1 ≠ r2.
Proof.
  unfold HasConflict. rewrite negb_true_iff, allEqual_false. split.
  - intros (r1 & r2 & H1 & H2 & Hne).
    apply collectRoots_elem in H1 as (k1 & Hk1 & Hl1).
    apply collectRoots_elem in H2 as (k2 & Hk2 & Hl2).
    exists k1, k2, r1, r2. auto.
  - intros (k1 & k2 & r1 & r2 & Hk1 & Hk2 & Hl1 & Hl2 & Hne).
    exists r1, r2. repeat split; [| | exact Hne];
      apply collectRoots_elem; eauto.
Qed.

(** ** Adding keys *)

Lemma foldr_insert_lookup_in (relations : gmap string string) (r : string)
    (keys : list string) (k : string) :
  k ∈ keys → foldr (λ k m, <[k := r]> m) relations keys !! k = Some r.
Proof.
  induction keys as [|k0 keys IH]; intros Hk; [inversion Hk|]. simpl.
  destruct (decide (k0 = k)) as [->|Hne].
  - apply lookup_insert_eq.
  - rewrite lookup_insert_ne by exact Hne. apply IH.
    apply elem_of_cons in Hk as [->|Hk]; [contradiction | exact Hk].
Qed.

Lemma foldr_insert_lookup_notin (relations : gmap string string) (r : string)
    (keys : list string) (k : string) :
  k ∉ keys → foldr (λ k m, <[k := r]> m) relations keys !! k = relations !! k.
Proof.
  induction keys as [|k0 keys IH]; intros Hk; [reflexivity|]. simpl.
  apply not_elem_of_cons in Hk as [Hne Hk].
  rewrite lookup_insert_ne by congruence. apply IH. exact Hk.
Qed.

Lemma chooseRoot_some (relations : gmap string string) (keys : list string) :
  keys ≠ [] → is_Some (chooseRoot relations keys).
Proof.
  intros Hne. unfold chooseRoot.
  destruct (collectRoots relations keys); [|eauto].
  destruct keys; [contradiction | simpl; eauto].
Qed.

Lemma chooseRoot_origin (relations : gmap string string) (keys : list string)
    (root : string) :
  chooseRoot relations keys = Some root →
  (∃ k, k ∈ keys ∧ relations !! k = Some root)
  ∨ ((∀ k, k ∈ keys → relations !! k = None) ∧ head keys = Some root).
Proof.
  unfold chooseRoot. destruct (collectRoots relations keys) as [|r rs] eqn:E.
  - intros Hhd. right. split; [|exact Hhd].
    intros k Hk. destruct (relations !! k) as [r|] eqn:El; [|reflexivity].
    assert (Hin : r ∈ collectRoots relations keys)
      by (apply collectRoots_elem; eauto).
    rewrite E in Hin. inversion Hin.
  - intros [= <-]. left. apply collectRoots_elem. rewrite E. left.
Qed.

Lemma Add_lookup_in (relations : gmap string string) (keys : list string)
    (k : string) :
  k ∈ keys → Add relations keys !! k = chooseRoot relations keys.
Proof.
  intros Hk. unfold Add.
  destruct (chooseRoot_some relations keys) as [r Hr].
  { intros ->. inversion Hk. }
  rewrite Hr. apply foldr_insert_lookup_in. exact Hk.
Qed.

Lemma Add_lookup_notin (relations : gmap string string) (keys : list string)
    (k : string) :
  k ∉ keys → Add relations keys !! k = relations !! k.
Proof.
  intros Hk. unfold Add. destruct (chooseRoot relations keys); [|reflexivity].
  apply foldr_insert_lookup_notin. exact Hk.
Qed.

(** C2. For every relation table and key list: [HasConflict] answers true
    exactly when two keys of the list are present in the table with
    different roots, so keys that are absent never cause a conflict; [Add]
    maps every key of the list to one root, the root of a key of the list
    that was present if there is one and the first key of the list
    otherwise, and leaves other keys alone; [Reset] leaves the table empty.
    Adding test_1, test_2, test_3 to the empty table reports no conflict and
    maps the three keys to test_1. *)
Theorem causality_detector_contract (relations : gmap string string)
    (keys : list string) :
  (HasConflict relations keys = true
   ↔ ∃ k1 k2 r1 r2, k1 ∈ keys ∧ k2 ∈ keys
                    ∧ relations !! k1 = Some r1 ∧ relations !! k2 = Some r2
                    ∧ r1 ≠ r2)
  ∧ (∀ k, k ∈ keys → Add relations keys !! k = chooseRoot relations keys)
  ∧ (keys ≠ [] → is_Some (chooseRoot relations keys))
  ∧ (∀ root, chooseRoot relations keys = Some root →
       (∃ k, k ∈ keys ∧ relations !! k = Some root)
       ∨ ((∀ k, k ∈ keys → relations !! k = None) ∧ head keys = Some root))
  ∧ (∀ k, k ∉ keys → Add relations keys !! k = relations !! k)
  ∧ Reset relations = ∅
  ∧ HasConflict ∅ ["test_1"; "test_2"; "test_3"] = false
  ∧ Add ∅ ["test_1"; "test_2"; "test_3"]
    = <["test_1" := "test_1"]> (<["test_2" := "test_1"]> (<["test_3" := "test_1"]> ∅)).
Proof.
  split; [apply HasConflict_iff|].
  split; [apply Add_lookup_in|].
  split; [apply chooseRoot_some|].
  split; [apply chooseRoot_origin|].
  split; [apply Add_lookup_notin|].
  split; [reflexivity|].
  split; reflexivity.
Qed.

(** The whole of [TestDetectConflict]. *)
Lemma TestDetectConflict_passes :
  let caseData := ["test_1"; "test_2"; "test_3"] in
  let r0 : gmap string string := ∅ in
  let r1 := Add r0 caseData in
  let r2 := Add r1 ["test_4"] in
  HasConflict r0 caseData = false
  ∧ r1 = list_to_map [("test_1", "test_1"); ("test_2", "test_1"); ("test_3", "test_1")]
  ∧ HasConflict r1 ["test_4"] = false
  ∧ r2 = list_to_map [("test_1", "test_1"); ("test_2", "test_1"); ("test_3", "test_1");
                      ("test_4", "test_4")]
  ∧ HasConflict r2 ["test_4"; "test_3"] = true
  ∧ size (Reset r2) = 0.
Proof. vm_compute. repeat split. Qed.

(** ** The relay on the test scenario *)

(** C3. The five jobs insert(1,2), insert(2,3), update((2,3) to (3,4)),
    delete(1,2), insert(1,3) over the table with primary key a and unique
    column b leave the relay as insert, insert, update, delete, conflict
    marker, insert: the first four jobs and the last one unchanged, the
    marker directly before the last insert.  The last insert is the job that
    meets the conflict, and the table it is added to is the one just reset,
    so that afterwards the table holds the keys of that insert only. *)
Theorem relay_scenario_outputs :
  map jobKind (snd (relay tb_indices ∅ tb_jobs))
  = [insert; insert; update; del; conflict; insert]
  ∧ snd (relay tb_indices ∅ tb_jobs)
    = [Forwarded (InsertJob [VInt 1; VInt 2]);
       Forwarded (InsertJob [VInt 2; VInt 3]);
       Forwarded (UpdateJob [VInt 2; VInt 3] [VInt 3; VInt 4]);
       Forwarded (DeleteJob [VInt 1; VInt 2]);
       ConflictMarker;
       Forwarded (InsertJob [VInt 1; VInt 3])]
  ∧ (let before := fst (relay tb_indices ∅ (take 4 tb_jobs)) in
     let last_job := InsertJob [VInt 1; VInt 3] in
     map jobKind (snd (relay tb_indices ∅ (take 4 tb_jobs)))
     = [insert; insert; update; del]
     ∧ identifyKeys tb_indices last_job = ["1.a."; "3.b."]
     ∧ before !! "1.a." = Some "1.a."
     ∧ before !! "3.b." = Some "2.a."
     ∧ before !! "2.a." = Some "2.a."
     ∧ fst (relay tb_indices ∅ tb_jobs) !! "2.a." = None
     ∧ HasConflict before (identifyKeys tb_indices last_job) = true
     ∧ relayStep tb_indices before last_job
       = (Add (Reset before) (identifyKeys tb_indices last_job),
          [ConflictMarker; Forwarded last_job])
     ∧ fst (relay tb_indices ∅ tb_jobs)
       = <["1.a." := "1.a."]> (<["3.b." := "1.a."]> ∅)).
Proof. vm_compute. repeat split. Qed.

(** Under the exclusive reading of "otherwise" the same scenario ends with
    the marker: only five jobs come out, which is not what [TestCasuality]
    asserts. *)
Lemma relay_exclusive_reading_drops_last_insert :
  map jobKind (snd (relayExclusive tb_indices ∅ tb_jobs))
  = [insert; insert; update; del; conflict]
  ∧ length (snd (relayExclusive tb_indices ∅ tb_jobs))
    ≠ length [insert; insert; update; del; conflict; insert].
Proof. vm_compute. split; [reflexivity | discriminate]. Qed.

(** ** Keys of a prefix index *)

Lemma string_length_app (a b : string) :
  String.length (a ++ b) = String.length a + String.length b.
Proof. induction a as [|c a IH]; simpl; [reflexivity | rewrite IH; reflexivity]. Qed.

Lemma string_app_inv_tail (t : string) : ∀ a b : string, a ++ t = b ++ t → a = b.
Proof.
  induction a as [|c a IH]; intros b H.
  - destruct b as [|c' b]; [reflexivity|].
    apply (f_equal String.length) in H.
    rewrite !string_length_app in H. simpl in H. lia.
  - destruct b as [|c' b].
    + apply (f_equal String.length) in H.
      rewrite !string_length_app in H. simpl in H. lia.
    + simpl in H. injection H as -> H. f_equal. apply IH. exact H.
Qed.

Lemma genKeyList_c1_prefix (s : string) (rest : list value) :
  genKeyList c1_prefix_index (VString s :: rest) = String.substring 0 3 s ++ ".c1.".
Proof. reflexivity. Qed.

(** C9. With the unique prefix index [c1(3)], a job whose c1 value is
    "1234" gets the key "123.c1." and one whose value is "2345" gets
    "234.c1."; two rows get the same key of this index exactly when their c1
    values agree on the first three characters.  On the jobs of
    [TestCasualityWithPrefixIndex] the first key of every job is the one the
    test expects, and the relay emits insert, insert, update, delete,
    conflict marker, insert. *)
Theorem prefix_index_keys :
  genKeyList c1_prefix_index [VString "1234"; VInt 1] = "123.c1."
  ∧ genKeyList c1_prefix_index [VString "2345"; VInt 2] = "234.c1."
  ∧ (∀ (s1 s2 : string) (rest1 rest2 : list value),
       genKeyList c1_prefix_index (VString s1 :: rest1)
       = genKeyList c1_prefix_index (VString s2 :: rest2)
       ↔ String.substring 0 3 s1 = String.substring 0 3 s2)
  ∧ map (λ j, head (identifyKeys t_indices j)) t_jobs
    = [Some "123.c1."; Some "234.c1."; Some "234.c1."; Some "123.c1."; Some "234.c1."]
  ∧ map jobKind (snd (relay t_indices ∅ t_jobs))
    = [insert; insert; update; del; conflict; insert].
Proof.
  split; [reflexivity|]. split; [reflexivity|]. split; [|split; vm_compute; reflexivity].
  intros s1 s2 rest1 rest2. rewrite !genKeyList_c1_prefix. split.
  - apply string_app_inv_tail.
  - intros ->. reflexivity.
Qed.

(** ** The detector at a concrete table *)

Lemma causality_detector_contract_witness :
  ("test_4" ∈ ["test_4"; "test_3"]
   ∧ Add (Add ∅ ["test_1"; "test_2"; "test_3"]) ["test_4"] !! "test_4" = Some "test_4"
   ∧ Add (Add ∅ ["test_1"; "test_2"; "test_3"]) ["test_4"] !! "test_3" = Some "test_1"
   ∧ HasConflict (Add (Add ∅ ["test_1"; "test_2"; "test_3"]) ["test_4"])
       ["test_4"; "test_3"] = true)
  ∧ ("test_9" ∈ ["test_9"; "test_3"]
     ∧ Add (Add ∅ ["test_1"; "test_2"; "test_3"]) ["test_9"; "test_3"] !! "test_9"
       = Some "test_1").
Proof.
  split.
  - assert (H4 : "test_4" ∈ ["test_4"; "test_3"]) by (left).
    assert (H3 : "test_3" ∈ ["test_4"; "test_3"]) by (right; left).
    split; [exact H4|]. split; [reflexivity|]. split; [reflexivity|].
    apply (proj1 (causality_detector_contract
                    (Add (Add ∅ ["test_1"; "test_2"; "test_3"]) ["test_4"])
                    ["test_4"; "test_3"])).
    exists "test_4", "test_3", "test_4", "test_1".
    split; [exact H4|]. split; [exact H3|].
    split; [reflexivity|]. split; [reflexivity | discriminate].
  - assert (H9 : "test_9" ∈ ["test_9"; "test_3"]) by (left).
    split; [exact H9|].
    destruct (causality_detector_contract (Add ∅ ["test_1"; "test_2"; "test_3"])
                ["test_9"; "test_3"]) as (_ & Hadd & _).
    rewrite (Hadd "test_9" H9). reflexivity.
Defined.

End CausalityFacts.

(** * Further properties of the sorter node *)

Module SorterExtFacts.
Import Sorter SorterExt.

Local Open Scope N_scope.

Lemma list_last_app (a b : list Ts) (d : Ts) :
  List.last (a ++ b) d = List.last b (List.last a d).
Proof.
  revert d. induction a as [|x a IH]; intros d; [reflexivity|].
  change ((x :: a) ++ b) with (x :: (a ++ b)).
  rewrite !SorterFacts.last_cons_default. apply IH.
Qed.

Lemma omap_cons_eq {A B : Type} (f : A → option B) (x : A) (l : list A) :
  omap f (x :: l) = match f x with Some y => y :: omap f l | None => omap f l end.
Proof. reflexivity. Qed.

Lemma mounterInputs_app (a b : list Action) :
  mounterInputs (a ++ b) = mounterInputs a ++ mounterInputs b.
Proof. apply omap_app. Qed.

Lemma consumeCalls_app (a b : list Action) :
  consumeCalls (a ++ b) = consumeCalls a ++ consumeCalls b.
Proof. apply omap_app. Qed.

Lemma forwardedData_app (a b : list Action) :
  forwardedData (a ++ b) = forwardedData a ++ forwardedData b.
Proof. unfold forwardedData. rewrite omap_app. apply List.filter_app. Qed.

Section LoopMore.

Variable interval : Duration.
Variable mode : bool.

(** What follows the call of [Consume] in the iteration of a data event. *)
Local Abbreviation afterConsume ev env :=
  (match consumeErr (consume env) with
   | Some e => consumeFailed mode e
   | None => if mounterAccepts env then MounterInput ev :: forward mode ev else []
   end).

(** The trace of a data event: at most one of the interpolation (before
    [Consume]) and the block callback (during [Consume]) sends, and what it
    sends is the previous commit timestamp. *)
Lemma handleData_shape (s : LoopState) (ev : PolymorphicEvent) (raw : RawKVEntry)
    (env : DataEnv) :
  ∃ A B,
    traceOf (handleData interval mode s ev raw env)
    = A ++ [ConsumeCall (CRTs ev) (uint64_of_int64 (ApproximateSize raw))] ++ B
        ++ afterConsume ev env
    ∧ ((A = [] ∧ B = [])
       ∨ (A = sendInterpolated mode (lastCRTs s) ∧ B = []
          ∧ lastSentResolvedTs s < lastCRTs s ∧ lastCRTs s < CRTs ev)
       ∨ (A = [] ∧ B = sendInterpolated mode (lastCRTs s)
          ∧ lastSentResolvedTs s < lastCRTs s)).
Proof.
  unfold handleData, interpolate.
  destruct (interval <? sinceNow env - lastSendResolvedTsTime s)%Z.
  - destruct (lastSentResolvedTs s <? lastCRTs s) eqn:E1.
    + destruct (lastCRTs s <? CRTs ev) eqn:E2; cbn [andb].
      * rewrite SorterFacts.runCallbacks_quiet by (simpl; lia).
        apply N.ltb_lt in E1, E2.
        exists (sendInterpolated mode (lastCRTs s)), []. split.
        -- destruct (consumeErr (consume env)); [|destruct (mounterAccepts env)];
             cbn [traceOf]; rewrite <- ?app_assoc; cbn [app];
             rewrite ?app_nil_r; reflexivity.
        -- right; left. auto.
      * apply N.ltb_lt in E1.
        destruct (callbackTimes (consume env)) as [|t times].
        -- exists [], []. split; [|left; auto].
           destruct (consumeErr (consume env)); [|destruct (mounterAccepts env)];
             reflexivity.
        -- rewrite SorterFacts.runCallbacks_once.
           rewrite (SorterFacts.blockCallback_fires mode s t E1).
           exists [], (sendInterpolated mode (lastCRTs s)). split; [|right; right; auto].
           destruct (consumeErr (consume env)); [|destruct (mounterAccepts env)];
             cbn [traceOf]; rewrite <- ?app_assoc; cbn [app];
             rewrite ?app_nil_r; reflexivity.
    + apply N.ltb_ge in E1. cbn [andb].
      rewrite SorterFacts.runCallbacks_quiet by assumption.
      exists [], []. split; [|left; auto].
      destruct (consumeErr (consume env)); [|destruct (mounterAccepts env)];
        reflexivity.
  - destruct (callbackTimes (consume env)) as [|t times].
    + exists [], []. split; [|left; auto].
      destruct (consumeErr (consume env)); [|destruct (mounterAccepts env)];
        reflexivity.
    + rewrite SorterFacts.runCallbacks_once.
      destruct (N.lt_ge_cases (lastSentResolvedTs s) (lastCRTs s)) as [H|H].
      * rewrite (SorterFacts.blockCallback_fires mode s t H).
        exists [], (sendInterpolated mode (lastCRTs s)). split; [|right; right; auto].
        destruct (consumeErr (consume env)); [|destruct (mounterAccepts env)];
          cbn [traceOf]; rewrite <- ?app_assoc; cbn [app];
          rewrite ?app_nil_r; reflexivity.
      * rewrite (SorterFacts.blockCallback_silent mode s t H).
        exists [], []. split; [|left; auto].
        destruct (consumeErr (consume env)); [|destruct (mounterAccepts env)];
          reflexivity.
Qed.

Lemma handleData_continue (s s' : LoopState) (ev : PolymorphicEvent)
    (raw : RawKVEntry) (env : DataEnv) (tr : list Action) :
  handleData interval mode s ev raw env = Continue s' tr →
  consumeErr (consume env) = None ∧ mounterAccepts env = true.
Proof.
  unfold handleData.
  destruct (interpolate interval mode s (CRTs ev) env) as [s1 a1].
  destruct (runCallbacks mode s1 (callbackTimes (consume env))) as [s2 a2].
  destruct (consumeErr (consume env)); [discriminate|].
  destruct (mounterAccepts env); [auto | discriminate].
Qed.

Lemma handleData_stops (s : LoopState) (ev : PolymorphicEvent)
    (raw : RawKVEntry) (env : DataEnv) :
  (∀ s' tr, handleData interval mode s ev raw env ≠ Continue s' tr) →
  afterConsume ev env
  = match consumeErr (consume env) with Some e => consumeFailed mode e | None => [] end.
Proof.
  unfold handleData.
  destruct (interpolate interval mode s (CRTs ev) env) as [s1 a1].
  destruct (runCallbacks mode s1 (callbackTimes (consume env))) as [s2 a2].
  destruct (consumeErr (consume env)); [reflexivity|].
  destruct (mounterAccepts env); [|reflexivity].
  intros H. exfalso. eapply H. reflexivity.
Qed.

(** The four kinds of iteration. *)
Lemma loopStep_inv (s : LoopState) (c : SelectCase) :
  (∃ ev raw env, c = SorterOutput (Some ev) env ∧ RawKV ev = Some raw
                 ∧ OpType_eqb (OpType raw) OpTypeResolved = false
                 ∧ loopStep interval mode s c = handleData interval mode s ev raw env)
  ∨ (∃ ev raw env, c = SorterOutput (Some ev) env ∧ RawKV ev = Some raw
                   ∧ OpType_eqb (OpType raw) OpTypeResolved = true
                   ∧ loopStep interval mode s c = handleResolved mode s ev env)
  ∨ (∃ v, c = MetricsTick v ∧ loopStep interval mode s c = Continue s [ObserveMemory v])
  ∨ (traceOf (loopStep interval mode s c) = []
     ∧ (∀ s' tr, loopStep interval mode s c ≠ Continue s' tr)
     ∧ dataEventOf c = None ∧ isMetricsTick c = false).
Proof.
  destruct c as [| v | | [ev|] env].
  - right; right; right. repeat split; discriminate.
  - right; right; left. eauto.
  - right; right; right. repeat split; discriminate.
  - destruct (RawKV ev) as [raw|] eqn:Hraw.
    + destruct (OpType_eqb (OpType raw) OpTypeResolved) eqn:Hop.
      * right; left. exists ev, raw, env. repeat split; try assumption.
        simpl. rewrite Hraw, Hop. reflexivity.
      * left. exists ev, raw, env. repeat split; try assumption.
        simpl. rewrite Hraw, Hop. reflexivity.
    + right; right; right. simpl. rewrite Hraw. repeat split; discriminate.
  - right; right; right. repeat split; discriminate.
Qed.

Lemma runLoop_cons_continue (s s' : LoopState) (c : SelectCase)
    (rest : list SelectCase) (tr : list Action) :
  loopStep interval mode s c = Continue s' tr →
  runLoop interval mode s (c :: rest)
  = (fst (runLoop interval mode s' rest), tr ++ snd (runLoop interval mode s' rest)).
Proof.
  intros H. cbn [runLoop]. rewrite H.
  destruct (runLoop interval mode s' rest). reflexivity.
Qed.

Lemma runLoop_cons_stop (s : LoopState) (c : SelectCase) (rest : list SelectCase) :
  (∀ s' tr, loopStep interval mode s c ≠ Continue s' tr) →
  snd (runLoop interval mode s (c :: rest)) = traceOf (loopStep interval mode s c)
  ∧ ∀ s', fst (runLoop interval mode s (c :: rest)) ≠ Running s'.
Proof.
  intros H. cbn [runLoop].
  destruct (loopStep interval mode s c) as [s1 tr | tr | p tr].
  - exfalso. eapply H. reflexivity.
  - split; [reflexivity | discriminate].
  - split; [reflexivity | discriminate].
Qed.

(** Induction over a run, iteration by iteration. *)
Lemma runLoop_trace_ind (Q : LoopState → list SelectCase → list Action → Prop) :
  (∀ s, Q s [] []) →
  (∀ s c rest, (∀ s' tr, loopStep interval mode s c ≠ Continue s' tr) →
               Q s (c :: rest) (traceOf (loopStep interval mode s c))) →
  (∀ s c rest s' tr tr', loopStep interval mode s c = Continue s' tr →
                         Q s' rest tr' → Q s (c :: rest) (tr ++ tr')) →
  ∀ cs s, Q s cs (snd (runLoop interval mode s cs)).
Proof.
  intros Hnil Hstop Hcont. induction cs as [|c rest IH]; intros s; [apply Hnil|].
  destruct (loopStep interval mode s c) as [s1 tr | tr | p tr] eqn:E.
  - rewrite (runLoop_cons_continue s s1 c rest tr E). cbn [snd].
    eapply Hcont; [exact E | apply IH].
  - assert (Hn : ∀ s' tr', loopStep interval mode s c ≠ Continue s' tr')
      by (rewrite E; discriminate).
    rewrite (proj1 (runLoop_cons_stop s c rest Hn)). apply Hstop. exact Hn.
  - assert (Hn : ∀ s' tr', loopStep interval mode s c ≠ Continue s' tr')
      by (rewrite E; discriminate).
    rewrite (proj1 (runLoop_cons_stop s c rest Hn)). apply Hstop. exact Hn.
Qed.

(** ** Which actions an iteration can contain *)

Lemma loopStep_forallb (P : Action → bool) :
  (∀ ts, forallb P (sendInterpolated mode ts) = true) →
  (∀ ev, forallb P (forward mode ev) = true) →
  (∀ e, forallb P (consumeFailed mode e) = true) →
  (∀ c sz, P (ConsumeCall c sz) = true) →
  (∀ ev, P (MounterInput ev) = true) →
  ∀ s c, (isMetricsTick c = true → ∀ v, P (ObserveMemory v) = true) →
         forallb P (traceOf (loopStep interval mode s c)) = true.
Proof.
  intros Hsend Hfwd Hfail Hcc Hmi s c Htick.
  destruct (loopStep_inv s c)
    as [(ev & raw & env & -> & Hraw & Hop & Hstep)
       | [(ev & raw & env & -> & Hraw & Hop & Hstep)
         | [(v & -> & Hstep) | (Hnil & _)]]].
  - rewrite Hstep.
    destruct (handleData_shape s ev raw env) as (A & B & -> & Hcase).
    assert (HA : forallb P A = true ∧ forallb P B = true).
    { destruct Hcase as [[-> ->] | [(-> & -> & _) | (-> & -> & _)]];
        split; try reflexivity; apply Hsend. }
    destruct HA as [HA HB].
    rewrite !forallb_app, HA, HB. cbn [forallb]. rewrite Hcc. cbn [andb].
    destruct (consumeErr (consume env)); [apply Hfail|].
    destruct (mounterAccepts env); [|reflexivity].
    cbn [forallb]. rewrite Hmi. apply Hfwd.
  - rewrite Hstep. unfold handleResolved.
    destruct (CRTs ev <? lastSentResolvedTs s); [reflexivity | apply Hfwd].
  - rewrite Hstep. cbn. rewrite (Htick eq_refl v). reflexivity.
  - rewrite Hnil. reflexivity.
Qed.

Lemma runLoop_forallb (P : Action → bool) :
  (∀ s c, forallb P (traceOf (loopStep interval mode s c)) = true) →
  ∀ cs s, forallb P (snd (runLoop interval mode s cs)) = true.
Proof.
  intros Hstep.
  apply (runLoop_trace_ind (λ _ _ tr, forallb P tr = true)).
  - reflexivity.
  - intros s c rest _. apply Hstep.
  - intros s c rest s' tr tr' Hc IH. rewrite forallb_app, IH.
    specialize (Hstep s c). rewrite Hc in Hstep. cbn [traceOf] in Hstep.
    rewrite Hstep. reflexivity.
Qed.

(** X1. The dispatch loop keeps to the dispatch mode it was started in: in
    legacy mode it never addresses the actor router or the output channel,
    in actor mode it never sends to the next node and never throws. *)
Theorem dispatch_stays_in_mode (s : LoopState) (cs : list SelectCase) :
  forallb (λ a, negb (if mode then usesNodeContext a else usesActorRouter a))
    (snd (runLoop interval mode s cs)) = true.
Proof.
  apply runLoop_forallb. clear s cs. intros s c.
  apply loopStep_forallb; try reflexivity.
  - intros ts. unfold sendInterpolated. destruct mode; reflexivity.
  - intros ev. unfold forward. destruct mode; reflexivity.
  - intros e. unfold consumeFailed.
    destruct (isFlowControllerAborted e); destruct mode; reflexivity.
  - destruct mode; reflexivity.
  - destruct mode; reflexivity.
  - intros _ v. destruct mode; reflexivity.
Qed.

(** ** Data events reach the mounter and the output *)

Lemma mounterInputs_sendInterpolated (ts : Ts) :
  mounterInputs (sendInterpolated mode ts) = []
  ∧ forwardedData (sendInterpolated mode ts) = []
  ∧ consumeCalls (sendInterpolated mode ts) = [].
Proof. unfold sendInterpolated. destruct mode; repeat split. Qed.

Lemma forward_readings (ev : PolymorphicEvent) :
  mounterInputs (forward mode ev) = []
  ∧ forwardedData (forward mode ev) = (if isResolvedEvent ev then [] else [ev])
  ∧ consumeCalls (forward mode ev) = [].
Proof.
  unfold forward, forwardedData. destruct mode; cbn;
    destruct (isResolvedEvent ev); repeat split.
Qed.

Lemma consumeFailed_readings (e : Err) :
  mounterInputs (consumeFailed mode e) = []
  ∧ forwardedData (consumeFailed mode e) = []
  ∧ consumeCalls (consumeFailed mode e) = [].
Proof.
  unfold consumeFailed. destruct (isFlowControllerAborted e); [repeat split|].
  destruct mode; repeat split.
Qed.

(** What one iteration hands to the mounter, sends as data and asks of
    flow control. *)
Lemma loopStep_readings (s : LoopState) (c : SelectCase) :
  mounterInputs (traceOf (loopStep interval mode s c))
  = forwardedData (traceOf (loopStep interval mode s c))
  ∧ ((mounterInputs (traceOf (loopStep interval mode s c)) = []
      ∧ (consumeCalls (traceOf (loopStep interval mode s c)) = []
         ∨ ((∀ s' tr, loopStep interval mode s c ≠ Continue s' tr)
            ∧ ∃ ev sz, consumeCalls (traceOf (loopStep interval mode s c))
                       = [(CRTs ev, sz)] ∧ (0 ≤ sz < 2 ^ 64)%Z)))
     ∨ (∃ ev sz s', dataEventOf c = Some ev
                    ∧ mounterInputs (traceOf (loopStep interval mode s c)) = [ev]
                    ∧ consumeCalls (traceOf (loopStep interval mode s c)) = [(CRTs ev, sz)]
                    ∧ (0 ≤ sz < 2 ^ 64)%Z
                    ∧ loopStep interval mode s c
                      = Continue s' (traceOf (loopStep interval mode s c)))).
Proof.
  destruct (loopStep_inv s c)
    as [(ev & raw & env & -> & Hraw & Hop & Hstep)
       | [(ev & raw & env & -> & Hraw & Hop & Hstep)
         | [(v & -> & Hstep) | (Hnil & Hstop & Hd & _)]]].
  - assert (Hdata : isResolvedEvent ev = false)
      by (unfold isResolvedEvent; rewrite Hraw; exact Hop).
    assert (Hsz : (0 ≤ uint64_of_int64 (ApproximateSize raw) < 2 ^ 64)%Z)
      by (unfold uint64_of_int64; apply Z.mod_pos_bound; lia).
    rewrite Hstep.
    destruct (handleData_shape s ev raw env) as (A & B & Htr & Hcase).
    assert (HA : mounterInputs A = [] ∧ forwardedData A = [] ∧ consumeCalls A = []
                 ∧ mounterInputs B = [] ∧ forwardedData B = [] ∧ consumeCalls B = []).
    { destruct Hcase as [[-> ->] | [(-> & -> & _) | (-> & -> & _)]];
        destruct (mounterInputs_sendInterpolated (lastCRTs s)) as (? & ? & ?);
        repeat split; assumption. }
    destruct HA as (HA1 & HA2 & HA3 & HB1 & HB2 & HB3).
    rewrite Htr. rewrite !mounterInputs_app, !forwardedData_app, !consumeCalls_app.
    rewrite HA1, HA2, HA3, HB1, HB2, HB3. cbn [app].
    change (mounterInputs [ConsumeCall (CRTs ev) (uint64_of_int64 (ApproximateSize raw))])
      with (@nil PolymorphicEvent).
    change (forwardedData [ConsumeCall (CRTs ev) (uint64_of_int64 (ApproximateSize raw))])
      with (@nil PolymorphicEvent).
    change (consumeCalls [ConsumeCall (CRTs ev) (uint64_of_int64 (ApproximateSize raw))])
      with [(CRTs ev, uint64_of_int64 (ApproximateSize raw))].
    cbn [app].
    destruct (consumeErr (consume env)) as [e|] eqn:Herr.
    + destruct (consumeFailed_readings e) as (-> & -> & ->). split; [reflexivity|].
      left. split; [reflexivity|]. right. split.
      * intros s' tr Hc. apply handleData_continue in Hc as [Hc _]. congruence.
      * eauto.
    + destruct (mounterAccepts env) eqn:Hm.
      * change (MounterInput ev :: forward mode ev)
          with ([MounterInput ev] ++ forward mode ev).
        rewrite !mounterInputs_app, !forwardedData_app, !consumeCalls_app.
        destruct (forward_readings ev) as (-> & -> & ->). rewrite Hdata.
        split; [reflexivity|]. right.
        assert (Hc : ∃ s', handleData interval mode s ev raw env
                           = Continue s' (traceOf (handleData interval mode s ev raw env))).
        { unfold handleData.
          destruct (interpolate interval mode s (CRTs ev) env) as [s1 a1].
          destruct (runCallbacks mode s1 (callbackTimes (consume env))) as [s2 a2].
          rewrite Herr, Hm. eexists. reflexivity. }
        destruct Hc as [s' Hc]. rewrite Htr, ?Herr, ?Hm in Hc.
        exists ev, (uint64_of_int64 (ApproximateSize raw)), s'.
        cbn [dataEventOf]. rewrite Hraw, Hop.
        repeat split; try assumption; try reflexivity; apply Hsz.
      * split; [reflexivity|]. left. split; [reflexivity|]. right. split.
        -- intros s' tr Hc. apply handleData_continue in Hc as [_ Hc]. congruence.
        -- eauto.
  - rewrite Hstep. unfold handleResolved.
    assert (Hres : isResolvedEvent ev = true)
      by (unfold isResolvedEvent; rewrite Hraw; exact Hop).
    destruct (CRTs ev <? lastSentResolvedTs s); cbn [traceOf].
    + split; [reflexivity|]. left. split; [reflexivity | left; reflexivity].
    + destruct (forward_readings ev) as (-> & -> & ->). rewrite Hres.
      split; [reflexivity|]. left. split; [reflexivity | left; reflexivity].
  - rewrite Hstep. split; [reflexivity|]. left. split; [reflexivity | left; reflexivity].
  - rewrite Hnil. split; [reflexivity|]. left. split; [reflexivity | left; reflexivity].
Qed.

Lemma passing_dataEvent (c : SelectCase) :
  isPassingData c = true → is_Some (dataEventOf c).
Proof.
  destruct c as [| v | | [ev|] env]; try discriminate. simpl.
  destruct (RawKV ev) as [raw|]; [|discriminate].
  destruct (OpType_eqb (OpType raw) OpTypeResolved); [discriminate | eauto].
Qed.

(** X2. Whatever the inputs, the data events the loop sends to its output
    are exactly the events it handed to the mounter, in the same order, and
    they are a subsequence of the data events the sorter delivered: no data
    event is duplicated, reordered or invented, and none bypasses the
    mounter. *)
Theorem forwarded_data_went_through_mounter (s : LoopState) (cs : list SelectCase) :
  forwardedData (snd (runLoop interval mode s cs))
  = mounterInputs (snd (runLoop interval mode s cs))
  ∧ sublist (mounterInputs (snd (runLoop interval mode s cs))) (omap dataEventOf cs).
Proof.
  revert cs s.
  apply (runLoop_trace_ind
           (λ _ cs tr, forwardedData tr = mounterInputs tr
                       ∧ sublist (mounterInputs tr) (omap dataEventOf cs))).
  - intros s. split; [reflexivity | constructor].
  - intros s c rest Hstop.
    destruct (loopStep_readings s c) as [Heq [[Hm _] | (ev & sz & s' & _ & _ & _ & _ & Hc)]].
    + rewrite Heq. split; [reflexivity|]. rewrite <- Heq, Hm. apply sublist_nil_l.
    + exfalso. eapply Hstop. exact Hc.
  - intros s c rest s' tr tr' Hc [IHeq IHsub].
    pose proof (loopStep_readings s c) as Hr. rewrite Hc in Hr. cbn [traceOf] in Hr.
    destruct Hr as [Heq Hr].
    rewrite forwardedData_app, mounterInputs_app, IHeq, Heq. split; [reflexivity|].
    destruct Hr as [[Hm _] | (ev & sz & s'' & Hd & Hm & _)].
    + rewrite <- Heq, Hm, omap_cons_eq. cbn [app].
      destruct (dataEventOf c); [apply sublist_cons|]; exact IHsub.
    + rewrite <- Heq, Hm, omap_cons_eq, Hd. cbn [app]. apply sublist_skip. exact IHsub.
Qed.

(** X3. No data event is lost under flow control: when every delivered
    event is a data event that passes flow control and is accepted by the
    mounter, the mounter receives every one of them, once and in order, and
    so does the output destination. *)
Theorem passing_events_all_forwarded (s : LoopState) (cs : list SelectCase) :
  forallb isPassingData cs = true →
  mounterInputs (snd (runLoop interval mode s cs)) = omap dataEventOf cs
  ∧ forwardedData (snd (runLoop interval mode s cs)) = omap dataEventOf cs
  ∧ length (mounterInputs (snd (runLoop interval mode s cs))) = length cs.
Proof.
  revert cs s.
  apply (runLoop_trace_ind
           (λ _ cs tr, forallb isPassingData cs = true →
                       mounterInputs tr = omap dataEventOf cs
                       ∧ forwardedData tr = omap dataEventOf cs
                       ∧ length (mounterInputs tr) = length cs)).
  - intros s _. repeat split.
  - intros s c rest Hstop Hall. cbn [forallb] in Hall.
    apply andb_prop in Hall as [Hp _].
    destruct (SorterFacts.passing_step interval mode s c Hp) as (s' & tr & Hc & _).
    exfalso. eapply Hstop. exact Hc.
  - intros s c rest s' tr tr' Hc IH Hall. cbn [forallb] in Hall.
    apply andb_prop in Hall as [Hp Hall]. destruct (IH Hall) as (IHm & IHf & IHl).
    pose proof (loopStep_readings s c) as Hr. rewrite Hc in Hr. cbn [traceOf] in Hr.
    destruct Hr as [Heq Hr].
    destruct (passing_dataEvent c Hp) as [ev Hd].
    assert (Hm : mounterInputs tr = [ev]).
    { destruct Hr as [[Hm [Hcc | (Hstop & _)]] | (ev' & sz & s'' & Hd' & Hm & _)].
      - exfalso. clear - Hp Hc Hcc.
        destruct c as [| v | | [e|] env]; try discriminate. simpl in Hp, Hc.
        destruct (RawKV e) as [raw|]; [|discriminate].
        destruct (OpType_eqb (OpType raw) OpTypeResolved); [discriminate|].
        simpl in Hc. destruct (handleData_shape s e raw env) as (A & B & Htr & _).
        rewrite Hc in Htr. cbn [traceOf] in Htr. rewrite Htr in Hcc.
        rewrite !consumeCalls_app in Hcc.
        apply app_eq_nil in Hcc as [_ Hcc]. discriminate.
      - exfalso. eapply Hstop. reflexivity.
      - rewrite Hd in Hd'. injection Hd' as <-. exact Hm. }
    rewrite forwardedData_app, mounterInputs_app, <- Heq, Hm, IHm, IHf.
    rewrite omap_cons_eq, Hd. cbn [app length]. rewrite <- IHm, IHl. repeat split.
Qed.

(** X4. Flow control gates the mounter: the commit timestamps of the events
    handed to the mounter are a prefix of the commit timestamps [Consume] was
    asked about, at most one [Consume] call (the last, when the loop then
    exits) is not followed by a hand-off, and every size passed to
    [Consume] is a [uint64]. *)
Theorem consume_precedes_mounter (s : LoopState) (cs : list SelectCase) :
  map CRTs (mounterInputs (snd (runLoop interval mode s cs)))
    `prefix_of` map fst (consumeCalls (snd (runLoop interval mode s cs)))
  ∧ (length (consumeCalls (snd (runLoop interval mode s cs)))
     ≤ S (length (mounterInputs (snd (runLoop interval mode s cs)))))%nat
  ∧ Forall (λ call, (0 ≤ snd call < 2 ^ 64)%Z)
           (consumeCalls (snd (runLoop interval mode s cs))).
Proof.
  revert cs s.
  apply (runLoop_trace_ind
           (λ _ _ tr, map CRTs (mounterInputs tr) `prefix_of` map fst (consumeCalls tr)
                      ∧ (length (consumeCalls tr) ≤ S (length (mounterInputs tr)))%nat
                      ∧ Forall (λ call, (0 ≤ snd call < 2 ^ 64)%Z) (consumeCalls tr))).
  - intros s. repeat split; [apply prefix_nil | simpl; lia | constructor].
  - intros s c rest Hstop.
    destruct (loopStep_readings s c)
      as [_ [[Hm [Hcc | (_ & ev & sz & Hcc & Hsz)]] | (ev & sz & s' & _ & _ & _ & _ & Hc)]].
    + rewrite Hm, Hcc. repeat split; [apply prefix_nil | simpl; lia | constructor].
    + rewrite Hm, Hcc. repeat split; [apply prefix_nil | simpl; lia |].
      constructor; [exact Hsz | constructor].
    + exfalso. eapply Hstop. exact Hc.
  - intros s c rest s' tr tr' Hc (IHp & IHl & IHf).
    pose proof (loopStep_readings s c) as Hr. rewrite Hc in Hr. cbn [traceOf] in Hr.
    destruct Hr as [_ [[Hm [Hcc | (Hstop & _)]] | (ev & sz & s'' & _ & Hm & Hcc & Hsz & _)]].
    + rewrite mounterInputs_app, consumeCalls_app, Hm, Hcc. cbn [app].
      repeat split; assumption.
    + exfalso. eapply Hstop. reflexivity.
    + rewrite mounterInputs_app, consumeCalls_app, Hm, Hcc. cbn [app map length fst].
      repeat split.
      * apply (prefix_app [CRTs ev]). exact IHp.
      * lia.
      * constructor; [exact Hsz | exact IHf].
Qed.

(** ** Resolved markers and the loop variables *)

Lemma afterConsume_silent (ev : PolymorphicEvent) (raw : RawKVEntry) (env : DataEnv) :
  RawKV ev = Some raw → OpType_eqb (OpType raw) OpTypeResolved = false →
  forwardedResolved (afterConsume ev env) = [].
Proof.
  intros Hraw Hop.
  destruct (consumeErr (consume env));
    [apply SorterFacts.forwardedResolved_consumeFailed|].
  destruct (mounterAccepts env); [|reflexivity].
  change (MounterInput ev :: forward mode ev) with ([MounterInput ev] ++ forward mode ev).
  rewrite SorterFacts.forwardedResolved_app, SorterFacts.forwardedResolved_forward.
  unfold isResolvedEvent. rewrite Hraw, Hop. reflexivity.
Qed.

(** X5. A data event makes the loop send at most one resolved marker: the
    interpolation before [Consume] and the block callback during [Consume]
    never both send.  The marker carries the previous commit timestamp, and
    it is sent only if that timestamp was above the last-sent one. *)
Theorem data_event_sends_at_most_one_marker (s : LoopState) (ev : PolymorphicEvent)
    (raw : RawKVEntry) (env : DataEnv) :
  RawKV ev = Some raw → OpType raw ≠ OpTypeResolved →
  forwardedResolved (traceOf (loopStep interval mode s (SorterOutput (Some ev) env))) = []
  ∨ (forwardedResolved (traceOf (loopStep interval mode s (SorterOutput (Some ev) env)))
     = [lastCRTs s]
     ∧ lastSentResolvedTs s < lastCRTs s).
Proof.
  intros Hraw Hop. apply SorterFacts.OpType_eqb_neq in Hop.
  assert (Hstep : loopStep interval mode s (SorterOutput (Some ev) env)
                  = handleData interval mode s ev raw env).
  { simpl. rewrite Hraw, Hop. reflexivity. }
  rewrite Hstep.
  destruct (handleData_shape s ev raw env) as (A & B & -> & Hcase).
  rewrite !SorterFacts.forwardedResolved_app, (afterConsume_silent ev raw env Hraw Hop).
  destruct Hcase as [[-> ->] | [(-> & -> & Hlt & _) | (-> & -> & Hlt)]].
  - left. reflexivity.
  - right. rewrite SorterFacts.forwardedResolved_sendInterpolated. auto.
  - right. rewrite SorterFacts.forwardedResolved_sendInterpolated. auto.
Qed.

Lemma continue_lastSent (s s' : LoopState) (c : SelectCase) (tr : list Action) :
  loopStep interval mode s c = Continue s' tr →
  lastSentResolvedTs s' = List.last (forwardedResolved tr) (lastSentResolvedTs s).
Proof.
  intros Hc.
  destruct (loopStep_inv s c)
    as [(ev & raw & env & -> & Hraw & Hop & Hstep)
       | [(ev & raw & env & -> & Hraw & Hop & Hstep)
         | [(v & -> & Hstep) | (_ & Hstop & _)]]].
  - assert (Hp : isPassingData (SorterOutput (Some ev) env) = true).
    { rewrite Hstep in Hc. apply handleData_continue in Hc as [He Hm].
      simpl. rewrite Hraw, Hop, He, Hm. reflexivity. }
    destruct (SorterFacts.passing_step interval mode s _ Hp)
      as (s1 & tr1 & Hc1 & _ & Hcase & _).
    rewrite Hc in Hc1. injection Hc1 as <- <-.
    destruct Hcase as [(-> & -> & _) | (-> & _ & ->)]; reflexivity.
  - rewrite Hstep in Hc. unfold handleResolved in Hc.
    destruct (CRTs ev <? lastSentResolvedTs s).
    + injection Hc as <- <-. reflexivity.
    + injection Hc as <- <-. rewrite SorterFacts.forwardedResolved_forward.
      unfold isResolvedEvent. rewrite Hraw, Hop. reflexivity.
  - rewrite Hstep in Hc. injection Hc as <- <-. reflexivity.
  - exfalso. eapply Hstop. exact Hc.
Qed.

(** X6. While the loop is alive, its variable [lastSentResolvedTs] is the
    timestamp of the resolved marker it sent last, or still its initial
    value when it has sent none. *)
Theorem lastSent_is_last_marker (s s' : LoopState) (cs : list SelectCase) :
  fst (runLoop interval mode s cs) = Running s' →
  lastSentResolvedTs s'
  = List.last (forwardedResolved (snd (runLoop interval mode s cs)))
      (lastSentResolvedTs s).
Proof.
  revert s. induction cs as [|c rest IH]; intros s Hrun.
  - simpl in Hrun. injection Hrun as <-. reflexivity.
  - destruct (loopStep interval mode s c) as [s1 tr | tr | p tr] eqn:E.
    + rewrite (runLoop_cons_continue s s1 c rest tr E) in *. cbn [fst snd] in *.
      rewrite SorterFacts.forwardedResolved_app, list_last_app.
      rewrite <- (continue_lastSent s s1 c tr E). apply IH. exact Hrun.
    + assert (Hn : ∀ s2 tr2, loopStep interval mode s c ≠ Continue s2 tr2)
        by (rewrite E; discriminate).
      exfalso. exact (proj2 (runLoop_cons_stop s c rest Hn) s' Hrun).
    + assert (Hn : ∀ s2 tr2, loopStep interval mode s c ≠ Continue s2 tr2)
        by (rewrite E; discriminate).
      exfalso. exact (proj2 (runLoop_cons_stop s c rest Hn) s' Hrun).
Qed.

(** ** The metrics tick *)

Lemma filter_all_true {A : Type} (P : A → bool) (l : list A) :
  forallb P l = true → List.filter P l = l.
Proof.
  induction l as [|x l IH]; simpl; [reflexivity|].
  intros H. apply andb_prop in H as [Hx Hl]. rewrite Hx, (IH Hl). reflexivity.
Qed.

Lemma nontick_no_observe (s : LoopState) (c : SelectCase) :
  isMetricsTick c = false →
  forallb (λ a, negb (isObserveMemory a)) (traceOf (loopStep interval mode s c)) = true.
Proof.
  intros Hc. apply loopStep_forallb; try reflexivity.
  - intros ts. unfold sendInterpolated. destruct mode; reflexivity.
  - intros ev. unfold forward. destruct mode; reflexivity.
  - intros e. unfold consumeFailed.
    destruct (isFlowControllerAborted e); destruct mode; reflexivity.
  - rewrite Hc. discriminate.
Qed.

(** X7. The metrics tick has no bearing on the stage's work: leaving the
    ticks out of the inputs gives the same end of the loop and the same
    trace, less the histogram observations. *)
Theorem metrics_ticks_change_nothing (s : LoopState) (cs : list SelectCase) :
  runLoop interval mode s (List.filter (λ c, negb (isMetricsTick c)) cs)
  = (fst (runLoop interval mode s cs),
     List.filter (λ a, negb (isObserveMemory a)) (snd (runLoop interval mode s cs))).
Proof.
  revert s. induction cs as [|c rest IH]; intros s; [reflexivity|].
  destruct (isMetricsTick c) eqn:Ht.
  - destruct c; try discriminate.
    cbn [List.filter isMetricsTick negb].
    rewrite (runLoop_cons_continue s s (MetricsTick consumption) rest
               [ObserveMemory consumption] eq_refl).
    cbn [fst snd app List.filter isObserveMemory negb]. apply IH.
  - cbn [List.filter]. rewrite Ht. cbn [negb].
    pose proof (nontick_no_observe s c Ht) as Hno.
    destruct (loopStep interval mode s c) as [s1 tr | tr | p tr] eqn:E; cbn [traceOf] in Hno.
    + rewrite (runLoop_cons_continue s s1 c rest tr E).
      rewrite (runLoop_cons_continue s s1 c _ tr E).
      rewrite IH. cbn [fst snd]. rewrite List.filter_app, (filter_all_true _ _ Hno).
      reflexivity.
    + cbn [runLoop]. rewrite E. cbn [fst snd]. rewrite (filter_all_true _ _ Hno).
      reflexivity.
    + cbn [runLoop]. rewrite E. cbn [fst snd]. rewrite (filter_all_true _ _ Hno).
      reflexivity.
Qed.

End LoopMore.

(** ** Barrier messages in actor mode *)

Lemma barriersAdvance_cons (lo : Ts) (a : Action) (rest : list Action) :
  barriersAdvance lo (a :: rest) →
  match resolvedOfAction a with
  | Some t => lo ≤ t ∧ barriersAdvance t rest
  | None => barriersAdvance lo rest
  end.
Proof.
  destruct a; cbn [barriersAdvance resolvedOfAction]; try (intros H; exact H).
  intros [H1 H2]. split; [lia | exact H2].
Qed.

Lemma barriersAdvance_silent (tr : list Action) (lo : Ts) :
  forwardedResolved tr = [] → barriersAdvance lo tr.
Proof.
  induction tr as [|a tr IH]; intros H; [exact I|].
  unfold forwardedResolved in H. rewrite omap_cons_eq in H.
  destruct (resolvedOfAction a) eqn:E; [discriminate|].
  destruct a; cbn [barriersAdvance]; try discriminate;
    cbn [resolvedOfAction] in *; rewrite ?E; apply IH; exact H.
Qed.

Lemma barriersAdvance_app (a : list Action) : ∀ (lo : Ts) (b : list Action),
  barriersAdvance lo a →
  barriersAdvance (List.last (forwardedResolved a) lo) b →
  barriersAdvance lo (a ++ b).
Proof.
  induction a as [|x a IH]; intros lo b Ha Hb; [exact Hb|].
  unfold forwardedResolved in Hb. rewrite omap_cons_eq in Hb.
  change ((x :: a) ++ b) with (x :: (a ++ b)).
  destruct x; cbn [barriersAdvance resolvedOfAction] in *;
    try (apply IH; assumption);
    try (destruct (resolvedOfMessage m) eqn:E;
         [ rewrite SorterFacts.last_cons_default in Hb; destruct Ha as [Ha1 Ha2];
           split; [exact Ha1 | apply IH; assumption]
         | apply IH; assumption ]).
  rewrite SorterFacts.last_cons_default in Hb. destruct Ha as [Ha1 Ha2].
  split; [exact Ha1 | apply IH; assumption].
Qed.

Lemma barriersAdvance_split (pre : list Action) : ∀ (lo ts : Ts) (post : list Action),
  barriersAdvance lo (pre ++ SendBarrier ts :: post) →
  lo < ts ∧ Forall (λ t, t < ts) (forwardedResolved pre).
Proof.
  induction pre as [|a pre IH]; intros lo ts post H.
  - destruct H as [H _]. split; [exact H | constructor].
  - change ((a :: pre) ++ SendBarrier ts :: post)
      with (a :: (pre ++ SendBarrier ts :: post)) in H.
    apply barriersAdvance_cons in H.
    unfold forwardedResolved. rewrite omap_cons_eq.
    destruct (resolvedOfAction a) as [t|].
    + destruct H as [Hle H]. destruct (IH t ts post H) as [Hlt Hall].
      split; [lia|]. constructor; assumption.
    + apply (IH lo ts post H).
Qed.

Lemma actor_step_barriersAdvance (interval : Duration) (s : LoopState) (c : SelectCase) :
  barriersAdvance (lastSentResolvedTs s) (traceOf (loopStep interval true s c)).
Proof.
  destruct (loopStep_inv interval true s c)
    as [(ev & raw & env & -> & Hraw & Hop & Hstep)
       | [(ev & raw & env & -> & Hraw & Hop & Hstep)
         | [(v & -> & Hstep) | (Hnil & _)]]].
  - rewrite Hstep.
    destruct (handleData_shape interval true s ev raw env) as (A & B & -> & Hcase).
    pose proof (afterConsume_silent true ev raw env Hraw Hop) as Hq.
    destruct Hcase as [[-> ->] | [(-> & -> & Hlt & _) | (-> & -> & Hlt)]].
    + apply barriersAdvance_silent.
      rewrite !SorterFacts.forwardedResolved_app, Hq. reflexivity.
    + cbn [sendInterpolated app]. split; [exact Hlt|].
      apply barriersAdvance_silent. exact Hq.
    + cbn [sendInterpolated app barriersAdvance resolvedOfAction]. split; [exact Hlt|].
      apply barriersAdvance_silent. exact Hq.
  - rewrite Hstep. unfold handleResolved.
    destruct (CRTs ev <? lastSentResolvedTs s) eqn:E; [exact I|].
    apply N.ltb_ge in E. cbn [traceOf forward barriersAdvance resolvedOfAction].
    unfold resolvedOfMessage, isResolvedEvent. cbn. rewrite Hraw, Hop. auto.
  - rewrite Hstep. exact I.
  - rewrite Hnil. exact I.
Qed.

Lemma actor_run_barriersAdvance (interval : Duration) (cs : list SelectCase) :
  ∀ s, barriersAdvance (lastSentResolvedTs s) (snd (runLoop interval true s cs)).
Proof.
  apply (runLoop_trace_ind interval true
           (λ s _ tr, barriersAdvance (lastSentResolvedTs s) tr)).
  - intros s. exact I.
  - intros s c rest _. apply actor_step_barriersAdvance.
  - intros s c rest s' tr tr' Hc IH.
    apply barriersAdvance_app.
    + pose proof (actor_step_barriersAdvance interval s c) as H.
      rewrite Hc in H. exact H.
    + rewrite <- (continue_lastSent interval true s s' c tr Hc). exact IH.
Qed.

(** X8. In actor mode every barrier message, which is how the loop sends
    the markers it makes up itself (interpolation and block callback),
    carries a timestamp strictly above the last-sent timestamp the loop
    started with and strictly above the timestamp of every resolved marker
    sent before it: a made-up marker never repeats a timestamp already
    announced. *)
Theorem barrier_exceeds_earlier_markers (interval : Duration) (s : LoopState)
    (cs : list SelectCase) (pre post : list Action) (ts : Ts) :
  snd (runLoop interval true s cs) = pre ++ SendBarrier ts :: post →
  lastSentResolvedTs s < ts ∧ Forall (λ t, t < ts) (forwardedResolved pre).
Proof.
  intros H. apply (barriersAdvance_split pre _ ts post).
  rewrite <- H. apply actor_run_barriersAdvance.
Qed.

(** ** Starting the node *)

(** X9. [StartActorNode] launches all of its three activities or none: when
    it returns an error nothing is launched and no sorter is installed; when
    it returns nil the sorter is installed and its run loop, the abort
    watcher and the dispatch loop are launched, the dispatch loop in the
    node's dispatch mode.  Either way the stored resolved timestamp and the
    table id are kept, and the node is in actor mode exactly if a router was
    passed now or it was in actor mode before. *)
Theorem start_launches_all_or_nothing (names : EngineNames) (n : sorterNode)
    (router : bool) (info : ChangefeedInfo) (env : StartEnv) :
  match startErr (StartActorNode names n router info env) with
  | None =>
      ∃ srt, sorter (startNode (StartActorNode names n router info env)) = Some srt
             ∧ launched (StartActorNode names n router info env)
               = [SorterRun srt; AbortWatcher;
                  DispatchLoop srt
                    (isTableActorMode (startNode (StartActorNode names n router info env)))]
  | Some _ =>
      launched (StartActorNode names n router info env) = []
      ∧ sorter (startNode (StartActorNode names n router info env)) = sorter n
  end
  ∧ resolvedTs (startNode (StartActorNode names n router info env)) = resolvedTs n
  ∧ tableID (startNode (StartActorNode names n router info env)) = tableID n
  ∧ isTableActorMode (startNode (StartActorNode names n router info env))
    = router || isTableActorMode n.
Proof.
  unfold StartActorNode.
  match goal with |- context [selectSorter ?a ?b ?c ?d] =>
    destruct (selectSorter a b c d) as [[e tr] | [srt tr]] end.
  - cbn. destruct router; repeat split.
  - destruct (failpointAddTableError env); cbn.
    + destruct router; repeat split.
    + destruct router; (split; [eexists; split; reflexivity | repeat split]).
Qed.

(** X10. The engine name [file] is an alias of [unified]: with either name
    the node, the error and the launched activities are the same; the only
    difference is the obsolescence warning logged for [file]. *)
Theorem file_engine_is_alias_of_unified (names : EngineNames) (n : sorterNode)
    (router : bool) (info : ChangefeedInfo) (env : StartEnv) :
  SortInFile names ≠ SortInMemory names →
  SortUnified names ≠ SortInMemory names →
  SortInFile names ≠ SortUnified names →
  startNode (StartActorNode names n router
               (mkInfo (changefeedID info) (SortInFile names) (SortDir info)
                  (AdvertiseAddr info)) env)
  = startNode (StartActorNode names n router
                 (mkInfo (changefeedID info) (SortUnified names) (SortDir info)
                    (AdvertiseAddr info)) env)
  ∧ startErr (StartActorNode names n router
                (mkInfo (changefeedID info) (SortInFile names) (SortDir info)
                   (AdvertiseAddr info)) env)
    = startErr (StartActorNode names n router
                  (mkInfo (changefeedID info) (SortUnified names) (SortDir info)
                     (AdvertiseAddr info)) env)
  ∧ launched (StartActorNode names n router
                (mkInfo (changefeedID info) (SortInFile names) (SortDir info)
                   (AdvertiseAddr info)) env)
    = launched (StartActorNode names n router
                  (mkInfo (changefeedID info) (SortUnified names) (SortDir info)
                     (AdvertiseAddr info)) env)
  ∧ startTrace (StartActorNode names n router
                  (mkInfo (changefeedID info) (SortInFile names) (SortDir info)
                     (AdvertiseAddr info)) env)
    = LogWarn "File sorter is obsolete and replaced by unified sorter. Please revise your changefeed settings"
      :: startTrace (StartActorNode names n router
                       (mkInfo (changefeedID info) (SortUnified names) (SortDir info)
                          (AdvertiseAddr info)) env).
Proof.
  intros Hfm Hum Hfu. unfold StartActorNode, selectSorter. cbn [Engine].
  apply String.eqb_neq in Hfm, Hum. rewrite Hfm, Hum.
  rewrite !String.eqb_refl. cbn [orb].
  assert (Huf : String.eqb (SortUnified names) (SortInFile names) = false).
  { apply String.eqb_neq. congruence. }
  apply String.eqb_neq in Hfu. rewrite Huf, Hfu. cbn [orb].
  destruct (checkDirErr env); [repeat split|].
  destruct (newUnifiedSorterErr env); [repeat split|].
  destruct (failpointAddTableError env); repeat split.
Qed.

(** ** Handling messages *)

Lemma TryHandleDataMessage_ret (n n' : sorterNode) (msg : Message) (env : HandleEnv)
    (tr : list Action) (r : bool * option Err) :
  TryHandleDataMessage n msg env = Ret n' tr r →
  resolvedTs n'
  = match pullerResolvedTs (CallHandle msg env) with
    | Some t => t
    | None => resolvedTs n
    end
  ∧ resolvedTs n ≤ resolvedTs n'
  ∧ sorter n' = sorter n ∧ isTableActorMode n' = isTableActorMode n
  ∧ tableID n' = tableID n
  ∧ snd r = match Tp msg with
            | MessageTypePolymorphicEvent =>
                if isTableActorMode n then snd (tryAddEntryResult env) else None
            | _ => None
            end.
Proof.
  unfold TryHandleDataMessage, pullerResolvedTs.
  destruct (Tp msg); try (intros [= <- _ <-]; repeat split; lia).
  destruct (MsgEvent msg) as [ev|]; [|discriminate].
  destruct (RawKV ev) as [raw|].
  - destruct (OpType_eqb (OpType raw) OpTypeResolved).
    + destruct (rawCRTs raw <? resolvedTs n) eqn:E; [discriminate|].
      apply N.ltb_ge in E. cbn [sorter set_resolvedTs isTableActorMode].
      destruct (sorter n) eqn:Hs; [|discriminate].
      destruct (isTableActorMode n) eqn:Hm; intros [= <- _ <-]; cbn;
        rewrite ?Hs, ?Hm; repeat split; exact E.
    + destruct (sorter n) eqn:Hs; [|discriminate].
      destruct (isTableActorMode n) eqn:Hm; intros [= <- _ <-];
        rewrite ?Hs, ?Hm; repeat split; lia.
  - destruct (sorter n) eqn:Hs; [|discriminate].
    destruct (isTableActorMode n) eqn:Hm; intros [= <- _ <-];
      rewrite ?Hs, ?Hm; repeat split; lia.
Qed.

(** X11. [Receive] returns an error only in actor mode and only for an
    event message, and then it is the error of the sorter's non-blocking
    add; in legacy mode, and for every other kind of message, a [Receive]
    that returns returns nil.  Handling a message never changes the node's
    sorter, dispatch mode or table id. *)
Theorem receive_error_only_from_try_add (n n' : sorterNode) (msg : Message)
    (env : HandleEnv) (tr : list Action) (e : option Err) :
  Receive n msg env = Ret n' tr e →
  e = match Tp msg with
      | MessageTypePolymorphicEvent =>
          if isTableActorMode n then snd (tryAddEntryResult env) else None
      | _ => None
      end
  ∧ sorter n' = sorter n ∧ isTableActorMode n' = isTableActorMode n
  ∧ tableID n' = tableID n.
Proof.
  unfold Receive.
  destruct (TryHandleDataMessage n msg env) as [n1 tr1 [b err] | n1 tr1 p] eqn:E;
    [|discriminate].
  intros [= <- _ <-].
  destruct (TryHandleDataMessage_ret n n1 msg env tr1 (b, err) E)
    as (_ & _ & Hs & Hm & Ht & He).
  repeat split; assumption.
Qed.

(** X12. After any sequence of calls that all return, [ResolvedTs] is the
    timestamp of the last resolved event the puller handed in (the start
    value if there was none), and no resolved event handed in carried a
    larger one. *)
Theorem resolvedTs_is_latest_and_largest (calls : list NodeCall) :
  ∀ n n' : sorterNode,
    runCalls n calls = Some n' →
    ResolvedTs n'
    = foldl (λ acc c, match pullerResolvedTs c with Some t => t | None => acc end)
        (ResolvedTs n) calls
    ∧ ResolvedTs n ≤ ResolvedTs n'
    ∧ Forall (λ c, ∀ t, pullerResolvedTs c = Some t → t ≤ ResolvedTs n') calls.
Proof.
  unfold ResolvedTs.
  induction calls as [|c rest IH]; intros n n' Hrun.
  - injection Hrun as <-. repeat split; [lia | constructor].
  - destruct c as [names router info env | msg env]; cbn [runCalls foldl] in *.
    + destruct (IH _ n' Hrun) as (Heq & Hle & Hall).
      rewrite SorterFacts.StartActorNode_keeps_resolvedTs in Heq, Hle.
      repeat split; [exact Heq | exact Hle |].
      constructor; [discriminate | exact Hall].
    + destruct (TryHandleDataMessage n msg env) as [n1 tr r | n1 tr p] eqn:E;
        [|discriminate].
      destruct (TryHandleDataMessage_ret n n1 msg env tr r E) as (Hts & Hge & _).
      destruct (IH n1 n' Hrun) as (Heq & Hle & Hall).
      rewrite Hts in Heq. repeat split; [exact Heq | lia |].
      constructor; [|exact Hall].
      intros t Ht. rewrite Ht in Hts. lia.
Qed.

(** ** The statements above at sample runs *)

Lemma passing_events_all_forwarded_witness :
  forallb isPassingData [sample_data 5 1; sample_data 7 2] = true
  ∧ forwardedData (snd (runLoop sample_interval false (initLoop 0)
                          [sample_data 5 1; sample_data 7 2]))
    = [sample_put 5; sample_put 7].
Proof.
  split; [reflexivity|].
  exact (proj1 (proj2 (passing_events_all_forwarded sample_interval false (initLoop 0)
                         [sample_data 5 1; sample_data 7 2] eq_refl))).
Defined.

Lemma data_event_sends_at_most_one_marker_witness :
  RawKV (sample_put 20) = Some (mkRawKV OpTypePut 20 1 64)
  ∧ OpType (mkRawKV OpTypePut 20 1 64) ≠ OpTypeResolved
  ∧ (forwardedResolved
       (traceOf (loopStep sample_interval false (mkLoop 0 0 10)
                   (SorterOutput (Some (sample_put 20)) (sample_env 300000000 consume_ok))))
     = []
     ∨ forwardedResolved
         (traceOf (loopStep sample_interval false (mkLoop 0 0 10)
                     (SorterOutput (Some (sample_put 20))
                        (sample_env 300000000 consume_ok))))
       = [lastCRTs (mkLoop 0 0 10)]
       ∧ lastSentResolvedTs (mkLoop 0 0 10) < lastCRTs (mkLoop 0 0 10)).
Proof.
  split; [reflexivity|]. split; [discriminate|].
  apply (data_event_sends_at_most_one_marker sample_interval false (mkLoop 0 0 10)
           (sample_put 20) (mkRawKV OpTypePut 20 1 64) (sample_env 300000000 consume_ok));
    [reflexivity | discriminate].
Defined.

Lemma lastSent_is_last_marker_witness :
  fst (runLoop sample_interval false (initLoop 0)
         [sample_data 10 100000000; sample_data 20 500000000])
  = Running (mkLoop 10 500000000 20)
  ∧ lastSentResolvedTs (mkLoop 10 500000000 20)
    = List.last (forwardedResolved
                   (snd (runLoop sample_interval false (initLoop 0)
                           [sample_data 10 100000000; sample_data 20 500000000])))
        (lastSentResolvedTs (initLoop 0)).
Proof.
  split; [reflexivity|].
  apply (lastSent_is_last_marker sample_interval false (initLoop 0) (mkLoop 10 500000000 20)
           [sample_data 10 100000000; sample_data 20 500000000]).
  reflexivity.
Defined.

Lemma barrier_exceeds_earlier_markers_witness :
  snd (runLoop sample_interval true (initLoop 0)
         [sample_data 10 100000000; sample_data 20 500000000; sample_data 30 900000000])
  = [ConsumeCall 10 64; MounterInput (sample_put 10);
     OutputChSend (PolymorphicEventMessage (sample_put 10)); SendTick; SendBarrier 10;
     ConsumeCall 20 64; MounterInput (sample_put 20);
     OutputChSend (PolymorphicEventMessage (sample_put 20)); SendTick]
    ++ SendBarrier 20
       :: [ConsumeCall 30 64; MounterInput (sample_put 30);
           OutputChSend (PolymorphicEventMessage (sample_put 30)); SendTick]
  ∧ lastSentResolvedTs (initLoop 0) < 20
  ∧ Forall (λ t, t < 20)
      (forwardedResolved
         [ConsumeCall 10 64; MounterInput (sample_put 10);
          OutputChSend (PolymorphicEventMessage (sample_put 10)); SendTick; SendBarrier 10;
          ConsumeCall 20 64; MounterInput (sample_put 20);
          OutputChSend (PolymorphicEventMessage (sample_put 20)); SendTick]).
Proof.
  split; [reflexivity|].
  apply (barrier_exceeds_earlier_markers sample_interval (initLoop 0)
           [sample_data 10 100000000; sample_data 20 500000000; sample_data 30 900000000]
           [ConsumeCall 10 64; MounterInput (sample_put 10);
            OutputChSend (PolymorphicEventMessage (sample_put 10)); SendTick; SendBarrier 10;
            ConsumeCall 20 64; MounterInput (sample_put 20);
            OutputChSend (PolymorphicEventMessage (sample_put 20)); SendTick]
           [ConsumeCall 30 64; MounterInput (sample_put 30);
            OutputChSend (PolymorphicEventMessage (sample_put 30)); SendTick]
           20).
  reflexivity.
Defined.

Lemma file_engine_is_alias_of_unified_witness :
  (SortInFile sample_names ≠ SortInMemory sample_names
   ∧ SortUnified sample_names ≠ SortInMemory sample_names
   ∧ SortInFile sample_names ≠ SortUnified sample_names)
  ∧ launched (StartActorNode sample_names (newSorterNode "`test`.`t`" 42 100) false
                (sample_info "file") sample_start_env)
    = launched (StartActorNode sample_names (newSorterNode "`test`.`t`" 42 100) false
                  (sample_info "unified") sample_start_env).
Proof.
  split; [repeat split; discriminate|].
  refine (proj1 (proj2 (proj2
            (file_engine_is_alias_of_unified sample_names
               (newSorterNode "`test`.`t`" 42 100) false (sample_info "any")
               sample_start_env _ _ _)))); discriminate.
Defined.

Lemma receive_error_only_from_try_add_witness :
  ∃ n' tr e,
    Receive sample_node (PolymorphicEventMessage (sample_put 120)) sample_handle_env
    = Ret n' tr e
    ∧ e = None ∧ sorter n' = sorter sample_node.
Proof.
  eexists _, _, _. split; [reflexivity|].
  destruct (receive_error_only_from_try_add sample_node _
              (PolymorphicEventMessage (sample_put 120)) sample_handle_env _ _ eq_refl)
    as (He & Hs & _).
  split; [exact He | exact Hs].
Defined.

Lemma resolvedTs_is_latest_and_largest_witness :
  ∃ n',
    runCalls (newSorterNode "`test`.`t`" 42 100)
      [CallStart sample_names false (sample_info "memory") sample_start_env;
       CallHandle (PolymorphicEventMessage (NewResolvedPolymorphicEvent 0 150))
         sample_handle_env;
       CallHandle (PolymorphicEventMessage (sample_put 120)) sample_handle_env]
    = Some n'
    ∧ ResolvedTs n' = 150
    ∧ ResolvedTs (newSorterNode "`test`.`t`" 42 100) ≤ ResolvedTs n'.
Proof.
  eexists. split; [reflexivity|].
  destruct (resolvedTs_is_latest_and_largest
              [CallStart sample_names false (sample_info "memory") sample_start_env;
               CallHandle (PolymorphicEventMessage (NewResolvedPolymorphicEvent 0 150))
                 sample_handle_env;
               CallHandle (PolymorphicEventMessage (sample_put 120)) sample_handle_env]
              (newSorterNode "`test`.`t`" 42 100) _ eq_refl) as (Hlast & Hle & _).
  split; [exact Hlast | exact Hle].
Defined.

End SorterExtFacts.

(** * Properties of the dsg sink *)

Module DsgSinkFacts.
Import DsgSink.

Local Open Scope Z_scope.

Section RowFacts.

Context {V : Type}.
Variable ColumnValueString : V → string.

Lemma buildColumns_map (colFlag : Z) (cols : list (model.Column V)) :
  buildColumns ColumnValueString colFlag (map Some cols)
  = Some (map (columnBuilder ColumnValueString colFlag) cols).
Proof.
  induction cols as [|c cols IH]; [reflexivity|].
  cbn [map buildColumns]. rewrite IH. reflexivity.
Qed.

Lemma buildColumns_none (colFlag : Z) (columns : list (option (model.Column V))) :
  buildColumns ColumnValueString colFlag columns = None ↔ None ∈ columns.
Proof.
  induction columns as [|[c|] columns IH]; cbn [buildColumns].
  - split; [discriminate | intros H; inversion H].
  - destruct (buildColumns ColumnValueString colFlag columns) eqn:E.
    + split; [discriminate|]. intros H.
      apply elem_of_cons in H as [H|H]; [discriminate|].
      apply IH in H. discriminate.
    + split; [|reflexivity]. intros _. right. apply IH. reflexivity.
  - split; [intros _; left | reflexivity].
Qed.



(** What [sendRows] sends for each row, given the event type. *)
Lemma sendRows_finished (etv : Z) (schema table : string)
    (rows : list (option (model.RowChangedEvent V))) (sent : list RowJson) :
  sendRows ColumnValueString etv schema table rows = (sent, true) →
  Forall2 (λ orow out,
             ∃ row rowdata, orow = Some row
                            ∧ rowDataOf ColumnValueString etv row = Some rowdata
                            ∧ out = {| SchemaName := schema; TableName := table;
                                       Columns := Columns rowdata |})
          rows sent.
Proof.
  revert sent. induction rows as [|[row|] rows IH]; intros sent H;
    cbn [sendRows] in H.
  - injection H as <-. constructor.
  - destruct (rowDataOf ColumnValueString etv row) as [rowdata|] eqn:E; [|discriminate].
    destruct (sendRows ColumnValueString etv schema table rows) as [more fin].
    injection H as <- ->. constructor; [eauto | apply IH; reflexivity].
  - discriminate.
Qed.

(** Where [sendRows] stops: at the first event that is nil or cannot be
    encoded, after it has sent a row for every event before it. *)
Lemma sendRows_stopped (etv : Z) (schema table : string)
    (rows : list (option (model.RowChangedEvent V))) (sent : list RowJson) :
  sendRows ColumnValueString etv schema table rows = (sent, false) →
  ∃ before failing after,
    rows = before ++ failing :: after
    ∧ Forall2 (λ orow out,
                 ∃ row rowdata, orow = Some row
                                ∧ rowDataOf ColumnValueString etv row = Some rowdata
                                ∧ out = {| SchemaName := schema; TableName := table;
                                           Columns := Columns rowdata |})
        before sent
    ∧ (failing = None
       ∨ ∃ row, failing = Some row ∧ rowDataOf ColumnValueString etv row = None).
Proof.
  revert sent. induction rows as [|[row|] rows IH]; intros sent H;
    cbn [sendRows] in H.
  - discriminate.
  - destruct (rowDataOf ColumnValueString etv row) as [rowdata|] eqn:E.
    + destruct (sendRows ColumnValueString etv schema table rows) as [more fin].
      injection H as <- ->.
      destruct (IH more eq_refl) as (before & failing & after & -> & Hall & Hfail).
      exists (Some row :: before), failing, after.
      split; [reflexivity|]. split; [|exact Hfail].
      constructor; [eauto | exact Hall].
    + injection H as <-. exists [], (Some row), rows.
      split; [reflexivity|]. split; [constructor|]. right. eauto.
  - injection H as <-. exists [], None, rows.
    split; [reflexivity|]. split; [constructor|]. left. reflexivity.
Qed.

(** An event cannot be encoded only if one of its column pointers is nil. *)
Lemma rowDataOf_none (etv : Z) (row : model.RowChangedEvent V) :
  rowDataOf ColumnValueString etv row = None →
  None ∈ model.Columns row ∨ None ∈ model.PreColumns row.
Proof.
  unfold rowDataOf, getRowData.
  destruct (etv =? 2); [|destruct (etv =? 4); [|destruct (etv =? 3); [|discriminate]]].
  - destruct (buildColumns ColumnValueString 0 (model.Columns row)) eqn:E; [discriminate|].
    intros _. left. apply (buildColumns_none 0). exact E.
  - destruct (buildColumns ColumnValueString 0 (model.PreColumns row)) eqn:E;
      [discriminate|].
    intros _. right. apply (buildColumns_none 0). exact E.
  - destruct (buildColumns ColumnValueString 0 (model.Columns row)) eqn:E.
    + destruct (buildColumns ColumnValueString 1 (model.PreColumns row)) eqn:E';
        [discriminate|].
      intros _. right. apply (buildColumns_none 1). exact E'.
    + intros _. left. apply (buildColumns_none 0). exact E.
Qed.

Lemma eventTypeOf_cases (first : model.RowChangedEvent V) :
  (eventTypeOf first = 2 ∧ model.PreColumns first = [])
  ∨ (eventTypeOf first = 4 ∧ model.PreColumns first ≠ [] ∧ model.Columns first = [])
  ∨ (eventTypeOf first = 3 ∧ model.PreColumns first ≠ [] ∧ model.Columns first ≠ []).
Proof.
  unfold eventTypeOf.
  destruct (model.PreColumns first) as [|p ps]; [left; auto|].
  destruct (model.Columns first) as [|c cs]; [right; left | right; right];
    repeat split; discriminate.
Qed.

Lemma rowDataOf_columns (etv : Z) (row : model.RowChangedEvent V) (rowdata : RowJson) :
  etv = 2 ∨ etv = 3 ∨ etv = 4 →
  rowDataOf ColumnValueString etv row = Some rowdata →
  buildColumns ColumnValueString (if etv =? 3 then 1 else 0)
    (if etv =? 2 then model.Columns row else model.PreColumns row)
  = Some (Columns rowdata).
Proof.
  unfold rowDataOf, getRowData.
  intros [-> | [-> | ->]]; cbn [Z.eqb Pos.eqb].
  - destruct (buildColumns ColumnValueString 0 (model.Columns row)); [|discriminate].
    intros [= <-]. reflexivity.
  - destruct (buildColumns ColumnValueString 0 (model.Columns row)); [|discriminate].
    destruct (buildColumns ColumnValueString 1 (model.PreColumns row)); [|discriminate].
    intros [= <-]. reflexivity.
  - destruct (buildColumns ColumnValueString 0 (model.PreColumns row)); [|discriminate].
    intros [= <-]. reflexivity.
Qed.

(** X14. When [EmitRowChangedEvents] returns, it has handed exactly one row
    to [sender] per event, it has advanced [accumulated] by the number of
    events (as a [uint64]) and left the other counters alone; an empty batch
    changes nothing.  Every row sent carries the schema and table name of
    the first event of the batch, whatever table the other events name. *)
Theorem emit_sends_one_row_per_event (b b' : dsgSink)
    (rows : list (option (model.RowChangedEvent V))) (sent : list RowJson) :
  EmitRowChangedEvents ColumnValueString b rows = EmitReturns b' sent →
  length sent = length rows
  ∧ checkpointTs b' = checkpointTs b
  ∧ lastAccumulated b' = lastAccumulated b
  ∧ (rows = [] → b' = b)
  ∧ (rows ≠ [] →
     accumulated b' = (accumulated b + Z.of_nat (length rows)) mod 2 ^ 64)
  ∧ ∀ first, head rows = Some first →
      ∃ row table, first = Some row ∧ model.RowTable row = Some table
                   ∧ Forall (λ out, SchemaName out = model.Schema table
                                    ∧ TableName out = model.Table table) sent.
Proof.
  unfold EmitRowChangedEvents.
  destruct rows as [|[first|] rest].
  - intros [= <- <-]. repeat split; try reflexivity; try contradiction. discriminate.
  - destruct (model.RowTable first) as [table|] eqn:Ht; [|discriminate].
    destruct (sendRows ColumnValueString (eventTypeOf first) (model.Schema table)
                (model.Table table) (Some first :: rest)) as [out fin] eqn:Es.
    destruct fin; [|discriminate]. intros [= <- <-].
    pose proof (sendRows_finished _ _ _ _ _ Es) as Hall.
    split; [symmetry; eapply Forall2_length; exact Hall|].
    split; [reflexivity|]. split; [reflexivity|]. split; [discriminate|].
    split; [reflexivity|].
    intros f [= <-]. exists first, table. split; [reflexivity|]. split; [exact Ht|].
    clear - Hall. induction Hall as [|orow o rows outs (row & rd & _ & _ & ->) _ IH];
      constructor; auto.
  - discriminate.
Qed.

(** X15. The first event of a batch decides how every event of the batch is
    encoded: as an insert (the columns, flag 0) if the first event has no
    previous columns, as a delete (the previous columns, flag 0) if it has
    previous columns but no columns, and as an update otherwise.  A row sent
    for an update carries the previous columns only, with flag 1: the
    columns encoded first are not in it. *)
Theorem emit_encodes_by_first_event (b b' : dsgSink)
    (first : model.RowChangedEvent V)
    (rest : list (option (model.RowChangedEvent V))) (sent : list RowJson) :
  EmitRowChangedEvents ColumnValueString b (Some first :: rest) = EmitReturns b' sent →
  Forall2 (λ orow out,
             ∃ row, orow = Some row
                    ∧ buildColumns ColumnValueString
                        (if model.PreColumns first is []
                         then 0 else if model.Columns first is [] then 0 else 1)
                        (if model.PreColumns first is []
                         then model.Columns row else model.PreColumns row)
                      = Some (Columns out))
          (Some first :: rest) sent.
Proof.
  unfold EmitRowChangedEvents.
  destruct (model.RowTable first) as [table|] eqn:Ht; [|discriminate].
  destruct (sendRows ColumnValueString (eventTypeOf first) (model.Schema table)
              (model.Table table) (Some first :: rest)) as [out fin] eqn:Es.
  destruct fin; [|discriminate]. intros [= _ <-].
  pose proof (sendRows_finished _ _ _ _ _ Es) as Hall.
  eapply Forall2_impl; [exact Hall|]. cbn beta.
  intros orow o (row & rd & -> & Hrd & ->). exists row. split; [reflexivity|].
  cbn [Columns].
  destruct (eventTypeOf_cases first) as [[He Hp] | [(He & Hp & Hc) | (He & Hp & Hc)]].
  - rewrite Hp. rewrite He in Hrd.
    apply (rowDataOf_columns 2 row rd (or_introl eq_refl)) in Hrd. exact Hrd.
  - rewrite He in Hrd. rewrite Hc.
    apply (rowDataOf_columns 4 row rd (or_intror (or_intror eq_refl))) in Hrd.
    destruct (model.PreColumns first); [contradiction | exact Hrd].
  - rewrite He in Hrd.
    apply (rowDataOf_columns 3 row rd (or_intror (or_introl eq_refl))) in Hrd.
    destruct (model.PreColumns first); [contradiction|].
    destruct (model.Columns first); [contradiction | exact Hrd].
Qed.

(** X16. An [EmitRowChangedEvents] that panics (a nil event, table or
    column) counts nothing: the counters are as before.  It has sent fewer
    rows than it was given, namely those before the event it failed on: none
    when the first event is nil or has no table; otherwise one row, encoded
    as in a batch that returns, for each event before the first event that
    is nil or has a nil column pointer. *)
Theorem emit_panic_counts_nothing (b b' : dsgSink)
    (rows : list (option (model.RowChangedEvent V))) (sent : list RowJson) :
  EmitRowChangedEvents ColumnValueString b rows = EmitPanics b' sent →
  b' = b
  ∧ (length sent < length rows)%nat
  ∧ ((∃ rest, rows = None :: rest ∧ sent = [])
     ∨ (∃ first rest, rows = Some first :: rest ∧ model.RowTable first = None
                      ∧ sent = [])
     ∨ (∃ first table before failing after,
          head rows = Some (Some first) ∧ model.RowTable first = Some table
          ∧ rows = before ++ failing :: after
          ∧ Forall2 (λ orow out,
                       ∃ row rowdata,
                         orow = Some row
                         ∧ rowDataOf ColumnValueString (eventTypeOf first) row
                           = Some rowdata
                         ∧ out = {| SchemaName := model.Schema table;
                                    TableName := model.Table table;
                                    Columns := Columns rowdata |})
              before sent
          ∧ (failing = None
             ∨ ∃ row, failing = Some row
                      ∧ rowDataOf ColumnValueString (eventTypeOf first) row = None
                      ∧ (None ∈ model.Columns row ∨ None ∈ model.PreColumns row)))).
Proof.
  unfold EmitRowChangedEvents.
  destruct rows as [|[first|] rest]; [discriminate| |].
  - destruct (model.RowTable first) as [table|] eqn:Ht.
    + destruct (sendRows ColumnValueString (eventTypeOf first) (model.Schema table)
                  (model.Table table) (Some first :: rest)) as [out fin] eqn:Es.
      destruct fin; [discriminate|]. intros [= <- <-].
      destruct (sendRows_stopped _ _ _ _ _ Es)
        as (before & failing & after & Hrows & Hall & Hfail).
      split; [reflexivity|]. split.
      * pose proof (Forall2_length _ _ _ Hall) as Hlen.
        rewrite Hrows, length_app. cbn [length]. lia.
      * right. right. exists first, table, before, failing, after.
        split; [reflexivity|]. split; [exact Ht|]. split; [exact Hrows|].
        split; [exact Hall|].
        destruct Hfail as [-> | (row & -> & Hnone)]; [left; reflexivity|].
        right. exists row. split; [reflexivity|]. split; [exact Hnone|].
        eapply rowDataOf_none. exact Hnone.
    + intros [= <- <-]. split; [reflexivity|]. split; [cbn; lia|].
      right. left. exists first, rest. split; [reflexivity|]. split; [exact Ht | reflexivity].
  - intros [= <- <-]. split; [reflexivity|]. split; [cbn; lia|].
    left. exists rest. split; reflexivity.
Qed.

(** ** Counting and flushing *)

Lemma mod_eq_of_shift (a b k : Z) : a = b + k * 2 ^ 64 → a mod 2 ^ 64 = b mod 2 ^ 64.
Proof. intros ->. apply Z_mod_plus_full. Qed.

Lemma mod_as_shift (x : Z) : ∃ k, x mod 2 ^ 64 = x + k * 2 ^ 64.
Proof.
  exists (- (x / 2 ^ 64)). pose proof (Z_div_mod_eq_full x (2 ^ 64)). lia.
Qed.

Lemma int_of_uint64_as_shift (x : Z) : ∃ k, int_of_uint64 x = x + k * 2 ^ 64.
Proof.
  unfold int_of_uint64. destruct (x <? 2 ^ 63); [exists 0 | exists (-1)]; lia.
Qed.

Lemma emit_returns_state (b b' : dsgSink)
    (rows : list (option (model.RowChangedEvent V))) (sent : list RowJson) :
  EmitRowChangedEvents ColumnValueString b rows = EmitReturns b' sent →
  checkpointTs b' = checkpointTs b
  ∧ lastAccumulated b' = lastAccumulated b
  ∧ ((rows = [] ∧ accumulated b' = accumulated b)
     ∨ accumulated b' = (accumulated b + Z.of_nat (length rows)) mod 2 ^ 64).
Proof.
  unfold EmitRowChangedEvents.
  destruct rows as [|[first|] rest]; [| |discriminate].
  - intros [= <- _]. auto.
  - destruct (model.RowTable first) as [table|]; [|discriminate].
    destruct (sendRows ColumnValueString (eventTypeOf first) (model.Schema table)
                (model.Table table) (Some first :: rest)) as [out fin].
    destruct fin; [|discriminate]. intros [= <- _]. auto.
Qed.

Lemma emit_panic_state (b b' : dsgSink)
    (rows : list (option (model.RowChangedEvent V))) (sent : list RowJson) :
  EmitRowChangedEvents ColumnValueString b rows = EmitPanics b' sent → b' = b.
Proof.
  unfold EmitRowChangedEvents.
  destruct rows as [|[first|] rest]; [discriminate| |].
  - destruct (model.RowTable first) as [table|].
    + destruct (sendRows ColumnValueString (eventTypeOf first) (model.Schema table)
                  (model.Table table) (Some first :: rest)) as [out fin].
      destruct fin; [discriminate|]. intros [= <- _]. reflexivity.
    + intros [= <- _]. reflexivity.
  - intros [= <- _]. reflexivity.
Qed.

Lemma runExecutor_state (runs : nat) : ∀ b : dsgSink,
  checkpointTs (fst (runExecutor runs b)) = checkpointTs b
  ∧ accumulated (fst (runExecutor runs b)) = accumulated b
  ∧ (runs ≠ O → lastAccumulated (fst (runExecutor runs b)) = accumulated b)
  ∧ (runs = O → lastAccumulated (fst (runExecutor runs b)) = lastAccumulated b)
  ∧ ∃ k, foldr Z.add 0 (snd (runExecutor runs b))
         + accumulated (fst (runExecutor runs b))
         - lastAccumulated (fst (runExecutor runs b))
         = accumulated b - lastAccumulated b + k * 2 ^ 64.
Proof.
  induction runs as [|runs IH]; intros b.
  - cbn. repeat split; try reflexivity; try contradiction. exists 0. lia.
  - cbn [runExecutor]. unfold flushExecutor.
    match goal with |- context [runExecutor runs ?b1] =>
      destruct (IH b1) as (Hc & Ha & Hl1 & Hl0 & (k & Hk));
      destruct (runExecutor runs b1) as [b2 sizes] end.
    cbn [fst snd checkpointTs accumulated lastAccumulated foldr] in *.
    split; [exact Hc|]. split; [exact Ha|].
    assert (Hlast : lastAccumulated b2 = accumulated b).
    { destruct runs; [apply Hl0; reflexivity | apply Hl1; discriminate]. }
    split; [intros _; exact Hlast|]. split; [discriminate|].
    destruct (mod_as_shift (accumulated b - lastAccumulated b)) as [k1 Hk1].
    destruct (int_of_uint64_as_shift ((accumulated b - lastAccumulated b) mod 2 ^ 64))
      as [k2 Hk2].
    exists (k + k1 + k2). lia.
Qed.

End RowFacts.

Section SinkRuns.

Context {V : Type}.
Variable ColumnValueString : V → string.

(** X17. A flush reports the rows emitted since the previous flush: if the
    sink has nothing pending, a batch of fewer than 2^63 events is emitted,
    and [RecordBatchExecution] then runs the executor, the first run
    reports the size of the batch and any further run reports 0.  The flush
    returns the resolved timestamp it was given and stores it as
    checkpoint. *)
Theorem flush_reports_rows_since_last_flush (b b1 : dsgSink)
    (rows : list (option (model.RowChangedEvent V))) (sent : list RowJson)
    (resolvedTs : Z) (env : FlushEnv) (k : nat) :
  0 ≤ accumulated b < 2 ^ 64 →
  lastAccumulated b = accumulated b →
  Z.of_nat (length rows) < 2 ^ 63 →
  EmitRowChangedEvents ColumnValueString b rows = EmitReturns b1 sent →
  executorRuns env = S k →
  FlushRowChangedEvents b1 resolvedTs env
  = ({| checkpointTs := resolvedTs; accumulated := accumulated b1;
        lastAccumulated := accumulated b1 |},
     Z.of_nat (length rows) :: repeat 0 k,
     (resolvedTs, recordErr env)).
Proof.
  intros Hrange Hlast Hlen Hemit Hruns.
  destruct (emit_returns_state ColumnValueString b b1 rows sent Hemit)
    as (_ & Hl & Hacc).
  assert (Hsize : int_of_uint64 ((accumulated b1 - lastAccumulated b1) mod 2 ^ 64)
                  = Z.of_nat (length rows)).
  { rewrite Hl, Hlast. unfold int_of_uint64.
    destruct Hacc as [[-> ->] | ->].
    - rewrite Z.sub_diag. reflexivity.
    - change (2 ^ 64) with 18446744073709551616 in *.
      change (2 ^ 63) with 9223372036854775808 in *.
      assert (H : ((accumulated b + Z.of_nat (length rows)) mod 18446744073709551616
                   - accumulated b) mod 18446744073709551616
                  = Z.of_nat (length rows))
        by (Z.div_mod_to_equations; lia).
      rewrite H. destruct (Z.of_nat (length rows) <? 9223372036854775808) eqn:E;
        [reflexivity | apply Z.ltb_ge in E; lia]. }
  assert (Hzeros : ∀ n b0, lastAccumulated b0 = accumulated b0 →
             runExecutor n b0 = (b0, repeat 0 n)).
  { induction n as [|n IH]; intros b0 H0; [reflexivity|].
    cbn [runExecutor]. unfold flushExecutor. rewrite H0, Z.sub_diag.
    change (int_of_uint64 (0 mod 2 ^ 64)) with 0.
    replace {| checkpointTs := checkpointTs b0; accumulated := accumulated b0;
               lastAccumulated := accumulated b0 |} with b0
      by (destruct b0; cbn in *; congruence).
    rewrite (IH b0 H0). reflexivity. }
  unfold FlushRowChangedEvents. rewrite Hruns. cbn [runExecutor].
  unfold flushExecutor. rewrite Hsize.
  rewrite Hzeros by reflexivity. reflexivity.
Qed.

Lemma runSink_accounts (calls : list (SinkCall V)) : ∀ b : dsgSink,
  (∃ k, foldr Z.add 0 (batchSizes (runSink ColumnValueString b calls))
        + accumulated (sinkAfter (runSink ColumnValueString b calls))
        - lastAccumulated (sinkAfter (runSink ColumnValueString b calls))
        = accumulated b - lastAccumulated b
          + Z.of_nat (rowsAccepted (runSink ColumnValueString b calls)) + k * 2 ^ 64)
  ∧ ∃ k, accumulated (sinkAfter (runSink ColumnValueString b calls))
         = accumulated b
           + Z.of_nat (rowsAccepted (runSink ColumnValueString b calls)) + k * 2 ^ 64.
Proof.
  induction calls as [|c rest IH]; intros b.
  - cbn. split; exists 0; lia.
  - destruct c as [rows | ts env | ts | | | |]; cbn [runSink]; try apply IH.
    + destruct (EmitRowChangedEvents ColumnValueString b rows) as [b1 sent | b1 sent] eqn:E.
      * destruct (emit_returns_state ColumnValueString b b1 rows sent E)
          as (_ & Hl & Hacc).
        destruct (IH b1) as ((k1 & H1) & (k2 & H2)).
        cbn [batchSizes sinkAfter rowsAccepted].
        assert (Hk : ∃ k, accumulated b1 = accumulated b + Z.of_nat (length rows)
                                           + k * 2 ^ 64).
        { destruct Hacc as [[-> ->] | ->]; [exists 0; cbn; lia|].
          destruct (mod_as_shift (accumulated b + Z.of_nat (length rows))) as [k Hk].
          exists k. exact Hk. }
        destruct Hk as [k Hk]. rewrite Nat2Z.inj_add.
        split; [exists (k1 + k) | exists (k2 + k)]; lia.
      * apply (emit_panic_state ColumnValueString) in E. subst b1. cbn.
        split; exists 0; lia.
    + unfold FlushRowChangedEvents.
      destruct (runExecutor_state (executorRuns env) b)
        as (_ & Ha & _ & _ & (k & Hk)).
      destruct (runExecutor (executorRuns env) b) as [b1 sizes].
      cbn [fst snd] in *.
      match goal with |- context [runSink ColumnValueString ?b2 rest] =>
        destruct (IH b2) as ((k1 & H1) & (k2 & H2)) end.
      cbn [batchSizes sinkAfter rowsAccepted accumulated lastAccumulated] in *.
      rewrite foldr_app.
      assert (Hsum : ∀ (l1 : list Z) (z : Z), foldr Z.add z l1 = foldr Z.add 0 l1 + z).
      { induction l1 as [|x l1 IHl]; intros z; cbn; [lia | rewrite IHl; lia]. }
      rewrite Hsum.
      split; [exists (k1 + k) | exists k2]; lia.
Qed.

Lemma runSink_accumulated_range (calls : list (SinkCall V)) : ∀ b : dsgSink,
  0 ≤ accumulated b < 2 ^ 64 →
  0 ≤ accumulated (sinkAfter (runSink ColumnValueString b calls)) < 2 ^ 64.
Proof.
  induction calls as [|c rest IH]; intros b Hb; [exact Hb|].
  destruct c as [rows | ts env | ts | | | |]; cbn [runSink]; try (apply IH; exact Hb).
  - destruct (EmitRowChangedEvents ColumnValueString b rows) as [b1 sent | b1 sent] eqn:E.
    + cbn [sinkAfter]. apply IH.
      destruct (emit_returns_state ColumnValueString b b1 rows sent E)
        as (_ & _ & [[_ ->] | ->]); [exact Hb|].
      apply Z.mod_pos_bound. lia.
    + apply (emit_panic_state ColumnValueString) in E. subst b1. exact Hb.
  - unfold FlushRowChangedEvents.
    destruct (runExecutor_state (executorRuns env) b) as (_ & Ha & _).
    destruct (runExecutor (executorRuns env) b) as [b1 sizes].
    cbn [fst sinkAfter] in *. apply IH. cbn [accumulated]. rewrite Ha. exact Hb.
Qed.

(** X18. The sink's counters account for every row: after any sequence of
    calls on a new sink, up to a panic if there is one, [accumulated] is the
    number of events of the Emit calls that returned, as a [uint64], and the
    batch sizes the flushes reported, plus what is still pending, add up to
    the same number modulo 2^64.  The other calls of the sink interface do
    not count. *)
Theorem sink_accounts_for_every_row (calls : list (SinkCall V)) :
  accumulated (sinkAfter (runSink ColumnValueString newDsgSink calls))
  = Z.of_nat (rowsAccepted (runSink ColumnValueString newDsgSink calls)) mod 2 ^ 64
  ∧ (foldr Z.add 0 (batchSizes (runSink ColumnValueString newDsgSink calls))
     + (accumulated (sinkAfter (runSink ColumnValueString newDsgSink calls))
        - lastAccumulated (sinkAfter (runSink ColumnValueString newDsgSink calls))))
    mod 2 ^ 64
    = Z.of_nat (rowsAccepted (runSink ColumnValueString newDsgSink calls)) mod 2 ^ 64.
Proof.
  destruct (runSink_accounts calls newDsgSink) as ((k1 & H1) & (k2 & H2)).
  assert (Hr : 0 ≤ accumulated (sinkAfter (runSink ColumnValueString newDsgSink calls))
               < 2 ^ 64).
  { apply runSink_accumulated_range. cbn. lia. }
  cbn [newDsgSink accumulated lastAccumulated] in H1, H2. split.
  - rewrite <- (Z.mod_small _ _ Hr). apply (mod_eq_of_shift _ _ k2). lia.
  - apply (mod_eq_of_shift _ _ k1). lia.
Qed.

Lemma runSink_checkpoint (calls : list (SinkCall V)) : ∀ (b : dsgSink) (acc : option Z),
  sinkPanicked (runSink ColumnValueString b calls) = false →
  (acc = None ∨ acc = Some (checkpointTs b)) →
  checkpointTs (sinkAfter (runSink ColumnValueString b calls))
  = match foldl (λ acc c, match c with CallFlush ts _ => Some ts | _ => acc end) acc calls
    with
    | Some ts => ts
    | None => checkpointTs b
    end.
Proof.
  induction calls as [|c rest IH]; intros b acc Hp Hacc.
  - cbn. destruct Hacc as [-> | ->]; reflexivity.
  - destruct c as [rows | ts env | ts | | | |]; cbn [runSink foldl] in *;
      try (apply IH; assumption).
    + destruct (EmitRowChangedEvents ColumnValueString b rows) as [b1 sent | b1 sent] eqn:E;
        [|discriminate].
      destruct (emit_returns_state ColumnValueString b b1 rows sent E) as (Hc & _).
      cbn [sinkAfter sinkPanicked] in *. rewrite <- Hc.
      apply IH; [exact Hp | rewrite Hc; exact Hacc].
    + unfold FlushRowChangedEvents in *.
      destruct (runExecutor (executorRuns env) b) as [b1 sizes].
      cbn [sinkAfter sinkPanicked] in *.
      match goal with |- context [runSink ColumnValueString ?b2 rest] =>
        rewrite (IH b2 (Some ts) Hp (or_intror eq_refl)) end.
      destruct (foldl _ (Some ts) rest) eqn:Ef; [reflexivity|].
      exfalso. clear - Ef. revert Ef. generalize ts. induction rest as [|c rest IHr];
        intros t; [discriminate|]. destruct c; cbn [foldl]; apply IHr.
Qed.

(** X19. The checkpoint the sink stores is the resolved timestamp of the
    last flush, also when that is smaller than the one before it, and the
    initial value if there was no flush: [EmitCheckpointTs] and the other
    calls do not touch it. *)
Theorem checkpoint_is_last_flush (b : dsgSink) (calls : list (SinkCall V)) :
  sinkPanicked (runSink ColumnValueString b calls) = false →
  checkpointTs (sinkAfter (runSink ColumnValueString b calls))
  = match lastFlushTs calls with
    | Some ts => ts
    | None => checkpointTs b
    end.
Proof.
  intros Hp. apply (runSink_checkpoint calls b None Hp). left. reflexivity.
Qed.

End SinkRuns.

(** ** The statements above at sample batches *)


Lemma emit_sends_one_row_per_event_witness :
  ∃ b' sent,
    EmitRowChangedEvents (λ v : string, v) newDsgSink [sample_insert_row; sample_insert_row]
    = EmitReturns b' sent
    ∧ length sent = 2%nat
    ∧ checkpointTs b' = checkpointTs newDsgSink
    ∧ lastAccumulated b' = lastAccumulated newDsgSink.
Proof.
  eexists _, _. split; [reflexivity|].
  destruct (emit_sends_one_row_per_event (λ v : string, v) newDsgSink _
              [sample_insert_row; sample_insert_row] _ eq_refl)
    as (Hlen & Hcp & Hlast & _).
  split; [exact Hlen|]. split; [exact Hcp | exact Hlast].
Defined.

Lemma emit_encodes_by_first_event_witness :
  ∃ b' sent,
    EmitRowChangedEvents (λ v : string, v) newDsgSink [sample_update_row; sample_insert_row]
    = EmitReturns b' sent
    ∧ Forall2 (λ orow out,
                 ∃ row, orow = Some row
                        ∧ buildColumns (λ v : string, v) 1 (model.PreColumns row)
                          = Some (Columns out))
        [sample_update_row; sample_insert_row] sent.
Proof.
  eexists _, _. split; [reflexivity|].
  exact (emit_encodes_by_first_event (λ v : string, v) newDsgSink _
           {| model.RowTable := sample_table;
              model.PreColumns := [sample_col "a" "1"; sample_col "b" "2"];
              model.Columns := [sample_col "a" "1"; sample_col "b" "3"] |}
           [sample_insert_row] _ eq_refl).
Defined.

Lemma emit_panic_counts_nothing_witness :
  ∃ b' sent,
    EmitRowChangedEvents (λ v : string, v) newDsgSink [sample_insert_row; None]
    = EmitPanics b' sent
    ∧ b' = newDsgSink ∧ (length sent < length [sample_insert_row; None])%nat.
Proof.
  eexists _, _. split; [reflexivity|].
  destruct (emit_panic_counts_nothing (λ v : string, v) newDsgSink _
              [sample_insert_row; None] _ eq_refl) as (Hb & Hlen & _).
  split; [exact Hb | exact Hlen].
Defined.

Lemma flush_reports_rows_since_last_flush_witness :
  ∃ b1 sent,
    (0 ≤ accumulated newDsgSink < 2 ^ 64
     ∧ lastAccumulated newDsgSink = accumulated newDsgSink
     ∧ Z.of_nat (length [sample_insert_row; sample_insert_row]) < 2 ^ 63
     ∧ EmitRowChangedEvents (λ v : string, v) newDsgSink
         [sample_insert_row; sample_insert_row] = EmitReturns b1 sent
     ∧ executorRuns (mkFlushEnv 2 None) = 2%nat)
    ∧ FlushRowChangedEvents b1 77 (mkFlushEnv 2 None)
      = (mkSink 77 (accumulated b1) (accumulated b1), [2; 0], (77, None)).
Proof.
  eexists _, _.
  assert (H1 : 0 ≤ accumulated newDsgSink < 2 ^ 64) by (simpl; lia).
  assert (H3 : Z.of_nat (length [sample_insert_row; sample_insert_row]) < 2 ^ 63)
    by (simpl; lia).
  split.
  - split; [exact H1|]. split; [reflexivity|]. split; [exact H3|].
    split; reflexivity.
  - exact (flush_reports_rows_since_last_flush (λ v : string, v) newDsgSink _
             [sample_insert_row; sample_insert_row] _ 77 (mkFlushEnv 2 None) 1%nat
             H1 eq_refl H3 eq_refl eq_refl).
Defined.

Lemma checkpoint_is_last_flush_witness :
  sinkPanicked
    (runSink (λ v : string, v) newDsgSink
       [CallEmit [sample_insert_row]; CallFlush 5 (mkFlushEnv 1 None);
        CallEmitCheckpointTs 9; CallFlush 8 (mkFlushEnv 1 None); CallBarrier]) = false
  ∧ checkpointTs
      (sinkAfter
         (runSink (λ v : string, v) newDsgSink
            [CallEmit [sample_insert_row]; CallFlush 5 (mkFlushEnv 1 None);
             CallEmitCheckpointTs 9; CallFlush 8 (mkFlushEnv 1 None); CallBarrier])) = 8.
Proof.
  split; [reflexivity|].
  exact (checkpoint_is_last_flush (λ v : string, v) newDsgSink
           [CallEmit [sample_insert_row]; CallFlush 5 (mkFlushEnv 1 None);
            CallEmitCheckpointTs 9; CallFlush 8 (mkFlushEnv 1 None); CallBarrier] eq_refl).
Defined.

End DsgSinkFacts.

(** * Properties of the task configuration *)

Module ConfigFacts.
Import Config.

Local Open Scope Z_scope.

Section TaskFacts.

Context {DBConfig TableRule BinlogEventRule ColumnRule FilterRules : Type}.

Local Abbreviation Instance :=
  (@MySQLInstance DBConfig).
Local Abbreviation Task :=
  (@TaskConfig DBConfig TableRule BinlogEventRule ColumnRule FilterRules).

Variable names : Names.

(** What a resolved unit of an instance is: the entry of the named config
    if a name is given, the inline config otherwise. *)
Local Abbreviation resolved name table inline unit :=
  (if nonEmpty name then table !! name%string = Some unit else unit = inline).

Lemma find_none_all {A : Type} (f : A → bool) (l : list A) :
  List.find f l = None → Forall (λ x, f x = false) l.
Proof.
  intros H. apply Forall_forall. intros x Hx.
  apply list_elem_of_In in Hx. exact (List.find_none f l H x Hx).
Qed.

Lemma hasKey_true {T : Type} (m : gmap string (option T)) (name : string) :
  negb (hasKey m name) = false → is_Some (m !! name).
Proof. unfold hasKey. destruct (m !! name); [eauto | discriminate]. Qed.

(** Everything a successful iteration has checked. *)
Lemma adjustInstance_ok (c : Task) (i : nat) (sids : gmap Z nat)
    (oinst : option Instance) (inst' : Instance) (w : bool) :
  adjustInstance names c i sids oinst = InstOk inst' w →
  ∃ inst md ld sy,
    oinst = Some inst ∧ inst' = set_units inst md ld sy
    ∧ Verify (Some inst) = None
    ∧ sids !! ServerID inst = None
    ∧ (TaskMode c = ModeIncrement names → is_Some (Meta inst))
    ∧ Forall (λ name, is_Some (Routes c !! name)) (RouteRules inst)
    ∧ Forall (λ name, is_Some (Filters c !! name)) (FilterRules' inst)
    ∧ Forall (λ name, is_Some (ColumnMappings c !! name)) (ColumnMappingRules inst)
    ∧ (nonEmpty (BWListName inst) = true → is_Some (BWList c !! BWListName inst))
    ∧ resolved (MydumperConfigName inst) (Mydumpers c) (Mydumper inst) md
    ∧ resolved (LoaderConfigName inst) (Loaders c) (Loader inst) ld
    ∧ resolved (SyncerConfigName inst) (Syncers c) (Syncer inst) sy
    ∧ (fullOrAll names c = true →
       ∃ m, md = Some m ∧ (String.length (MydumperPath m) =? 0)%nat = false)
    ∧ w = warnsUnusedMeta names c inst.
Proof.
  unfold adjustInstance.
  destruct (Verify oinst) eqn:Hv; [discriminate|].
  destruct oinst as [inst|]; [|discriminate].
  destruct (sids !! ServerID inst) eqn:Hs; [discriminate|].
  destruct (negb (bool_decide (is_Some (Meta inst)))
            && String.eqb (TaskMode c) (ModeIncrement names)) eqn:Hm; [discriminate|].
  destruct (List.find _ (RouteRules inst)) eqn:Hr; [discriminate|].
  destruct (List.find _ (FilterRules' inst)) eqn:Hf; [discriminate|].
  destruct (List.find _ (ColumnMappingRules inst)) eqn:Hc; [discriminate|].
  destruct (nonEmpty (BWListName inst) && negb (hasKey (BWList c) (BWListName inst)))
    eqn:Hb; [discriminate|].
  unfold adjustUnits.
  destruct (if nonEmpty (MydumperConfigName inst)
            then Mydumpers c !! MydumperConfigName inst
            else Some (Mydumper inst)) as [md|] eqn:Hmd; [|discriminate].
  destruct (fullOrAll names c) eqn:Hfa.
  - destruct md as [m|]; [|discriminate].
    destruct (String.length (MydumperPath m) =? 0)%nat eqn:Hp; [discriminate|].
    destruct (if nonEmpty (LoaderConfigName inst)
              then Loaders c !! LoaderConfigName inst
              else Some (Loader inst)) as [ld|] eqn:Hld; [|discriminate].
    destruct (if nonEmpty (SyncerConfigName inst)
              then Syncers c !! SyncerConfigName inst
              else Some (Syncer inst)) as [sy|] eqn:Hsy; [|discriminate].
    intros [= <- <-]. exists inst, (Some m), ld, sy.
    repeat split; try assumption; try reflexivity.
    + intros Hmode. apply andb_false_iff in Hm as [Hm | Hm].
      * apply negb_false_iff, bool_decide_eq_true in Hm. exact Hm.
      * rewrite Hmode, String.eqb_refl in Hm. discriminate.
    + eapply Forall_impl; [apply find_none_all; exact Hr|].
      intros name. apply hasKey_true.
    + eapply Forall_impl; [apply find_none_all; exact Hf|].
      intros name. apply hasKey_true.
    + eapply Forall_impl; [apply find_none_all; exact Hc|].
      intros name. apply hasKey_true.
    + intros Hne. rewrite Hne in Hb. apply hasKey_true. exact Hb.
    + destruct (nonEmpty (MydumperConfigName inst)); congruence.
    + destruct (nonEmpty (LoaderConfigName inst)); congruence.
    + destruct (nonEmpty (SyncerConfigName inst)); congruence.
    + intros _. eauto.
  - destruct (if nonEmpty (LoaderConfigName inst)
              then Loaders c !! LoaderConfigName inst
              else Some (Loader inst)) as [ld|] eqn:Hld; [|discriminate].
    destruct (if nonEmpty (SyncerConfigName inst)
              then Syncers c !! SyncerConfigName inst
              else Some (Syncer inst)) as [sy|] eqn:Hsy; [|discriminate].
    intros [= <- <-]. exists inst, md, ld, sy.
    repeat split; try assumption; try reflexivity.
    + intros Hmode. apply andb_false_iff in Hm as [Hm | Hm].
      * apply negb_false_iff, bool_decide_eq_true in Hm. exact Hm.
      * rewrite Hmode, String.eqb_refl in Hm. discriminate.
    + eapply Forall_impl; [apply find_none_all; exact Hr|].
      intros name. apply hasKey_true.
    + eapply Forall_impl; [apply find_none_all; exact Hf|].
      intros name. apply hasKey_true.
    + eapply Forall_impl; [apply find_none_all; exact Hc|].
      intros name. apply hasKey_true.
    + intros Hne. rewrite Hne in Hb. apply hasKey_true. exact Hb.
    + destruct (nonEmpty (MydumperConfigName inst)); congruence.
    + destruct (nonEmpty (LoaderConfigName inst)); congruence.
    + destruct (nonEmpty (SyncerConfigName inst)); congruence.
    + discriminate.
Qed.

(** The relation between an instance before [adjust] and after a successful
    [adjust]. *)
Local Abbreviation adjustedFrom c oinst inst' :=
  (∃ inst md ld sy,
     oinst = Some inst ∧ inst' = set_units inst md ld sy
     ∧ Verify (Some inst) = None
     ∧ (TaskMode c = ModeIncrement names → is_Some (Meta inst))
     ∧ Forall (λ name, is_Some (Routes c !! name)) (RouteRules inst)
     ∧ Forall (λ name, is_Some (Filters c !! name)) (FilterRules' inst)
     ∧ Forall (λ name, is_Some (ColumnMappings c !! name)) (ColumnMappingRules inst)
     ∧ (nonEmpty (BWListName inst) = true → is_Some (BWList c !! BWListName inst))
     ∧ resolved (MydumperConfigName inst) (Mydumpers c) (Mydumper inst) md
     ∧ resolved (LoaderConfigName inst) (Loaders c) (Loader inst) ld
     ∧ resolved (SyncerConfigName inst) (Syncers c) (Syncer inst) sy
     ∧ (fullOrAll names c = true →
        ∃ m, md = Some m ∧ (String.length (MydumperPath m) =? 0)%nat = false)).

Lemma adjustInstances_ok (c : Task) (insts : list (option Instance)) :
  ∀ (i : nat) (sids : gmap Z nat) (insts' : list (option Instance)) (ws : list nat),
    adjustInstances names c i sids insts = LoopOk insts' ws →
    ∃ l, insts' = map Some l
         ∧ NoDup (map ServerID l)
         ∧ Forall (λ x, sids !! ServerID x = None) l
         ∧ Forall2 (λ oinst inst', adjustedFrom c oinst inst') insts l.
Proof.
  induction insts as [|oinst rest IH]; intros i sids insts' ws H; cbn [adjustInstances] in H.
  - injection H as <- <-. exists []. repeat split; constructor.
  - destruct (adjustInstance names c i sids oinst) as [inst' w | o w e | o w] eqn:E;
      [|discriminate|discriminate].
    destruct (adjustInstances names c (S i) (<[ServerID inst' := i]> sids) rest)
      as [rest' ws' | rest' ws' e | rest' ws'] eqn:Er; [|discriminate|discriminate].
    injection H as <- <-.
    destruct (IH _ _ _ _ Er) as (l & -> & Hnd & Hsids & Hall).
    destruct (adjustInstance_ok c i sids oinst inst' w E)
      as (inst & md & ld & sy & -> & -> & Hv & Hs & Hrest).
    exists (set_units inst md ld sy :: l). split; [reflexivity|].
    assert (Hother : Forall (λ x, ServerID x ≠ ServerID inst ∧ sids !! ServerID x = None) l).
    { eapply Forall_impl; [exact Hsids|]. cbn. intros x Hx.
      destruct (decide (ServerID inst = ServerID x)) as [Heq|Hne].
      - rewrite <- Heq, lookup_insert_eq in Hx. discriminate.
      - rewrite lookup_insert_ne in Hx by exact Hne. split; [congruence | exact Hx]. }
    split; [|split].
    + cbn [map]. constructor; [|exact Hnd].
      cbn [ServerID set_units]. intros Hin.
      apply list_elem_of_In, in_map_iff in Hin as (x & Hx & Hin).
      apply list_elem_of_In in Hin.
      rewrite Forall_forall in Hother. destruct (Hother x Hin) as [Hne _]. congruence.
    + constructor; [exact Hs|]. eapply Forall_impl; [exact Hother|]. cbn. tauto.
    + constructor; [|exact Hall].
      exists inst, md, ld, sy. destruct Hrest as (? & ? & ? & ? & ? & ? & ? & ? & ? & _).
      repeat split; assumption.
Qed.

(** What [adjust] has checked before it enters the loop. *)
Lemma adjust_ok_inv (c c' : Task) (ws : list nat) :
  adjust names c = AdjustOk c' ws →
  (String.length (Name c) =? 0)%nat = false
  ∧ (TaskMode c = ModeFull names ∨ TaskMode c = ModeIncrement names
     ∨ TaskMode c = ModeAll names)
  ∧ (Flavor c = MySQLFlavor names ∨ Flavor c = MariaDBFlavor names)
  ∧ is_Some (TargetDB c)
  ∧ MySQLInstances c ≠ []
  ∧ ∃ insts', adjustInstances names c 0 ∅ (MySQLInstances c) = LoopOk insts' ws
              ∧ c' = set_instances c insts'.
Proof.
  unfold adjust.
  destruct (String.length (Name c) =? 0)%nat; [discriminate|].
  destruct (String.eqb (TaskMode c) (ModeFull names)) eqn:E1;
    destruct (String.eqb (TaskMode c) (ModeIncrement names)) eqn:E2;
    destruct (String.eqb (TaskMode c) (ModeAll names)) eqn:E3;
    cbn [negb andb]; try discriminate;
    (destruct (String.eqb (Flavor c) (MySQLFlavor names)) eqn:F1;
     destruct (String.eqb (Flavor c) (MariaDBFlavor names)) eqn:F2;
     cbn [negb andb]; try discriminate;
     (destruct (TargetDB c) eqn:Ht; [|discriminate];
      destruct (MySQLInstances c) as [|o rest] eqn:Hi; [discriminate|];
      cbn [length Nat.eqb];
      destruct (adjustInstances names c 0 ∅ (o :: rest)) as [l w | l w e | l w] eqn:El;
      [|discriminate|discriminate];
      intros [= <- <-];
      rewrite ?String.eqb_eq in *;
      repeat split; eauto; discriminate)).
Qed.

(** X20. A task config that [adjust] accepts has no two instances with the
    same server id; every instance is present, has a database config and a
    server id of at least 1; and [adjust] has kept the number and the order
    of the instances. *)
Theorem adjust_ok_server_ids_distinct (c c' : Task) (ws : list nat) :
  adjust names c = AdjustOk c' ws →
  ∃ l, MySQLInstances c' = map Some l
       ∧ NoDup (map ServerID l)
       ∧ Forall (λ inst, 1 ≤ ServerID inst ∧ is_Some (Config inst)) l
       ∧ length l = length (MySQLInstances c)
       ∧ map (λ o, ServerID <$> o) (MySQLInstances c) = map (λ inst, Some (ServerID inst)) l.
Proof.
  intros H. destruct (adjust_ok_inv c c' ws H) as (_ & _ & _ & _ & _ & insts' & Hl & ->).
  destruct (adjustInstances_ok c _ _ _ _ _ Hl) as (l & -> & Hnd & _ & Hall).
  exists l. split; [reflexivity|]. split; [exact Hnd|].
  split; [|split].
  - clear - Hall. induction Hall as [|o x os xs Hx _ IH]; constructor; [|exact IH].
    destruct Hx as (inst & md & ld & sy & -> & -> & Hv & _).
    cbn [ServerID Config set_units]. unfold Verify in Hv.
    destruct (Config inst); [|discriminate].
    destruct (ServerID inst <? 1) eqn:E; [discriminate|].
    apply Z.ltb_ge in E. split; [exact E | eauto].
  - symmetry. eapply Forall2_length. exact Hall.
  - clear - Hall. induction Hall as [|o x os xs Hx _ IH]; [reflexivity|].
    destruct Hx as (inst & md & ld & sy & -> & -> & _).
    cbn [map fmap option_fmap option_map ServerID set_units]. rewrite IH. reflexivity.
Qed.

Lemma adjust_ok_instances (c c' : Task) (ws : list nat) :
  adjust names c = AdjustOk c' ws →
  ∃ l, c' = set_instances c (map Some l)
       ∧ Forall2 (λ oinst inst', adjustedFrom c oinst inst') (MySQLInstances c) l.
Proof.
  intros H. destruct (adjust_ok_inv c c' ws H) as (_ & _ & _ & _ & _ & insts' & Hl & ->).
  destruct (adjustInstances_ok c _ _ _ _ _ Hl) as (l & -> & _ & _ & Hall).
  exists l. split; [reflexivity | exact Hall].
Qed.

(** X21. In a task config that [adjust] accepts every reference of an
    instance resolves: each of its route, filter and column-mapping rule
    names is a key of the task's table of that kind, and so is its
    black-white list name unless that is empty. *)
Theorem adjust_ok_references_resolve (c c' : Task) (ws : list nat) :
  adjust names c = AdjustOk c' ws →
  Forall (λ oinst,
            ∃ inst, oinst = Some inst
                    ∧ Forall (λ name, is_Some (Routes c' !! name)) (RouteRules inst)
                    ∧ Forall (λ name, is_Some (Filters c' !! name)) (FilterRules' inst)
                    ∧ Forall (λ name, is_Some (ColumnMappings c' !! name))
                        (ColumnMappingRules inst)
                    ∧ (nonEmpty (BWListName inst) = true →
                       is_Some (BWList c' !! BWListName inst)))
         (MySQLInstances c').
Proof.
  intros H. destruct (adjust_ok_instances c c' ws H) as (l & -> & Hall).
  cbn [MySQLInstances Routes Filters ColumnMappings BWList set_instances].
  clear H. induction Hall as [|o x os xs Hx _ IH]; [constructor|].
  cbn [map]. constructor; [|exact IH].
  destruct Hx as (inst & md & ld & sy & -> & -> & _ & _ & Hr & Hf & Hc & Hb & _).
  eexists. split; [reflexivity|]. cbn [RouteRules FilterRules' ColumnMappingRules
                                       BWListName set_units].
  repeat split; assumption.
Qed.

Lemma length_eqb_false (s : string) : (String.length s =? 0)%nat = false → s ≠ "".
Proof. destruct s; [discriminate | discriminate]. Qed.

(** X22. What [adjust] requires depends on the task mode.  In a config it
    accepts the task has a name, one of the three modes, one of the two
    flavors, a target database and at least one instance; in incremental
    mode every instance has a meta; in full and in all mode every instance
    has a mydumper config with a non-empty mydumper path. *)
Theorem adjust_ok_mode_requirements (c c' : Task) (ws : list nat) :
  adjust names c = AdjustOk c' ws →
  Name c' ≠ ""
  ∧ (TaskMode c' = ModeFull names ∨ TaskMode c' = ModeIncrement names
     ∨ TaskMode c' = ModeAll names)
  ∧ (Flavor c' = MySQLFlavor names ∨ Flavor c' = MariaDBFlavor names)
  ∧ is_Some (TargetDB c')
  ∧ MySQLInstances c' ≠ []
  ∧ (TaskMode c' = ModeIncrement names →
     Forall (λ oinst, ∃ inst, oinst = Some inst ∧ is_Some (Meta inst)) (MySQLInstances c'))
  ∧ (TaskMode c' = ModeFull names ∨ TaskMode c' = ModeAll names →
     Forall (λ oinst, ∃ inst m, oinst = Some inst ∧ Mydumper inst = Some m
                                ∧ MydumperPath m ≠ "")
            (MySQLInstances c')).
Proof.
  intros H. destruct (adjust_ok_inv c c' ws H) as (Hn & Hm & Hf & Ht & Hi & _).
  destruct (adjust_ok_instances c c' ws H) as (l & -> & Hall).
  cbn [Name TaskMode Flavor TargetDB MySQLInstances set_instances].
  split; [apply length_eqb_false; exact Hn|].
  split; [exact Hm|]. split; [exact Hf|]. split; [exact Ht|].
  split; [|split].
  - destruct Hall; [contradiction | discriminate].
  - intros Hmode. clear - Hall Hmode.
    induction Hall as [|o x os xs Hx _ IH]; [constructor|].
    cbn [map]. constructor; [|exact IH].
    destruct Hx as (inst & md & ld & sy & -> & -> & _ & Hmeta & _).
    eexists. split; [reflexivity|]. cbn [Meta set_units]. apply Hmeta. exact Hmode.
  - intros Hmode.
    assert (Hfa : fullOrAll names c = true).
    { unfold fullOrAll. destruct Hmode as [-> | ->]; rewrite String.eqb_refl;
        [reflexivity | apply orb_true_r]. }
    clear - Hall Hfa. induction Hall as [|o x os xs Hx _ IH]; [constructor|].
    cbn [map]. constructor; [|exact IH].
    destruct Hx as (inst & md & ld & sy & -> & -> & Hx).
    destruct Hx as (_ & _ & _ & _ & _ & _ & _ & _ & _ & Hmd).
    destruct (Hmd Hfa) as (m & -> & Hp).
    exists (set_units inst (Some m) ld sy), m.
    split; [reflexivity|]. split; [reflexivity|]. apply length_eqb_false. exact Hp.
Qed.

(** X23. A successful [adjust] changes nothing but the three unit configs of
    the instances: where an instance names a mydumper, loader or syncer
    config, the unit becomes the entry of that name in the task's table;
    where it names none, the inline unit stays. *)
Theorem adjust_ok_resolves_named_units (c c' : Task) (ws : list nat) :
  adjust names c = AdjustOk c' ws →
  c' = set_instances c (MySQLInstances c')
  ∧ Forall2 (λ oinst oinst',
               ∃ inst inst',
                 oinst = Some inst ∧ oinst' = Some inst'
                 ∧ inst' = set_units inst (Mydumper inst') (Loader inst') (Syncer inst')
                 ∧ (if nonEmpty (MydumperConfigName inst)
                    then Mydumpers c !! MydumperConfigName inst = Some (Mydumper inst')
                    else Mydumper inst' = Mydumper inst)
                 ∧ (if nonEmpty (LoaderConfigName inst)
                    then Loaders c !! LoaderConfigName inst = Some (Loader inst')
                    else Loader inst' = Loader inst)
                 ∧ (if nonEmpty (SyncerConfigName inst)
                    then Syncers c !! SyncerConfigName inst = Some (Syncer inst')
                    else Syncer inst' = Syncer inst))
            (MySQLInstances c) (MySQLInstances c').
Proof.
  intros H. destruct (adjust_ok_instances c c' ws H) as (l & -> & Hall).
  split; [reflexivity|]. cbn [MySQLInstances set_instances].
  clear H. induction Hall as [|o x os xs Hx _ IH]; [constructor|].
  cbn [map]. constructor; [|exact IH].
  destruct Hx as (inst & md & ld & sy & -> & -> & Hx).
  destruct Hx as (_ & _ & _ & _ & _ & _ & Hmd & Hld & Hsy & _).
  exists inst, (set_units inst md ld sy).
  split; [reflexivity|]. split; [reflexivity|]. split; [reflexivity|].
  cbn [Mydumper Loader Syncer set_units]. repeat split; assumption.
Qed.

(** ** Errors and panics of [adjust] *)

(** How an iteration can fail with the duplicate-server-id error, and how
    it can panic. *)
Lemma adjustInstance_fail (c : Task) (i : nat) (sids : gmap Z nat)
    (oinst : option Instance) :
  (∀ o w a b sid,
     adjustInstance names c i sids oinst = InstErr o w (ErrSameServerID a b sid) →
     b = i ∧ ∃ inst, oinst = Some inst ∧ ServerID inst = sid ∧ sids !! sid = Some a)
  ∧ (∀ o w,
       adjustInstance names c i sids oinst = InstPanic o w →
       fullOrAll names c = true ∧ ∃ inst, o = Some inst ∧ Mydumper inst = None).
Proof.
  unfold adjustInstance.
  destruct (Verify oinst) eqn:Hv.
  { split; intros; discriminate. }
  destruct oinst as [inst|]; [|discriminate].
  destruct (sids !! ServerID inst) eqn:Hs.
  { split; [|intros; discriminate].
    intros o w a b sid [= _ _ <- <- <-]. split; [reflexivity|]. eauto. }
  destruct (negb (bool_decide (is_Some (Meta inst)))
            && String.eqb (TaskMode c) (ModeIncrement names)).
  { split; intros; discriminate. }
  destruct (List.find _ (RouteRules inst)). { split; intros; discriminate. }
  destruct (List.find _ (FilterRules' inst)). { split; intros; discriminate. }
  destruct (List.find _ (ColumnMappingRules inst)). { split; intros; discriminate. }
  destruct (nonEmpty (BWListName inst) && negb (hasKey (BWList c) (BWListName inst))).
  { split; intros; discriminate. }
  unfold adjustUnits.
  destruct (if nonEmpty (MydumperConfigName inst)
            then Mydumpers c !! MydumperConfigName inst
            else Some (Mydumper inst)) as [md|].
  2: { split; intros; discriminate. }
  destruct (fullOrAll names c) eqn:Hfa.
  - destruct md as [m|].
    + destruct (String.length (MydumperPath m) =? 0)%nat.
      { split; intros; discriminate. }
      destruct (if nonEmpty (LoaderConfigName inst)
                then Loaders c !! LoaderConfigName inst
                else Some (Loader inst)) as [ld|].
      2: { split; intros; discriminate. }
      destruct (if nonEmpty (SyncerConfigName inst)
                then Syncers c !! SyncerConfigName inst
                else Some (Syncer inst)) as [sy|]; split; intros; discriminate.
    + split; [intros; discriminate|].
      intros o w [= <- _]. split; [reflexivity|]. eexists. split; reflexivity.
  - destruct (if nonEmpty (LoaderConfigName inst)
              then Loaders c !! LoaderConfigName inst
              else Some (Loader inst)) as [ld|].
    2: { split; intros; discriminate. }
    destruct (if nonEmpty (SyncerConfigName inst)
              then Syncers c !! SyncerConfigName inst
              else Some (Syncer inst)) as [sy|]; split; intros; discriminate.
Qed.

Lemma adjustInstances_same_id (c : Task) (insts : list (option Instance)) :
  ∀ (pre : list (option Instance)) (sids : gmap Z nat)
    (insts' : list (option Instance)) (ws : list nat) (a b : nat) (sid : Z),
    (∀ s j, sids !! s = Some j →
            ∃ inst, pre !! j = Some (Some inst) ∧ ServerID inst = s) →
    adjustInstances names c (length pre) sids insts
    = LoopErr insts' ws (ErrSameServerID a b sid) →
    (a < b)%nat
    ∧ ∃ ia ib, (pre ++ insts) !! a = Some (Some ia) ∧ (pre ++ insts) !! b = Some (Some ib)
               ∧ ServerID ia = sid ∧ ServerID ib = sid.
Proof.
  induction insts as [|oinst rest IH]; intros pre sids insts' ws a b sid Hinv H;
    cbn [adjustInstances] in H; [discriminate|].
  destruct (adjustInstance names c (length pre) sids oinst) as [inst' w | o w e | o w] eqn:E.
  - destruct (adjustInstances names c (S (length pre)) (<[ServerID inst' := length pre]> sids)
                rest) as [r' w' | r' w' e' | r' w'] eqn:Er; try discriminate.
    injection H as _ _ ->.
    destruct (adjustInstance_ok c _ _ _ _ _ E) as (inst & md & ld & sy & -> & -> & _).
    cbn [ServerID set_units] in Er.
    assert (Hlen : S (length pre) = length (pre ++ [Some inst]))
      by (rewrite length_app; cbn; lia).
    rewrite Hlen in Er.
    replace (pre ++ Some inst :: rest) with ((pre ++ [Some inst]) ++ rest)
      by (rewrite <- app_assoc; reflexivity).
    eapply IH; [|exact Er].
    intros s j Hsj. destruct (decide (ServerID inst = s)) as [<-|Hne].
    + rewrite lookup_insert_eq in Hsj. injection Hsj as <-.
      exists inst. split; [|reflexivity].
      rewrite lookup_app_r by lia. rewrite Nat.sub_diag. reflexivity.
    + rewrite lookup_insert_ne in Hsj by exact Hne.
      destruct (Hinv s j Hsj) as (x & Hx & Hs). exists x. split; [|exact Hs].
      rewrite lookup_app_l; [exact Hx|]. eapply lookup_lt_Some. exact Hx.
  - injection H as _ _ ->.
    destruct (proj1 (adjustInstance_fail c _ _ _) _ _ _ _ _ E)
      as (-> & inst & -> & Hsid & Hsa).
    destruct (Hinv sid a Hsa) as (ia & Hia & Hs).
    pose proof (lookup_lt_Some _ _ _ Hia) as Hlt.
    split; [exact Hlt|]. exists ia, inst. repeat split; try assumption.
    + rewrite lookup_app_l; assumption.
    + rewrite lookup_app_r by lia. rewrite Nat.sub_diag. reflexivity.
  - discriminate.
Qed.

(** X24. The duplicate-server-id error of [adjust] is truthful: the two
    indices it names are different positions of the instance list, the first
    before the second, and the instances at both positions have the server
    id it names. *)
Theorem adjust_same_server_id_error (c c' : Task) (ws : list nat) (a b : nat) (sid : Z) :
  adjust names c = AdjustErr c' ws (ErrSameServerID a b sid) →
  (a < b)%nat
  ∧ ∃ ia ib, MySQLInstances c !! a = Some (Some ia)
             ∧ MySQLInstances c !! b = Some (Some ib)
             ∧ ServerID ia = sid ∧ ServerID ib = sid.
Proof.
  unfold adjust.
  destruct (String.length (Name c) =? 0)%nat; [discriminate|].
  destruct (negb _ && negb _ && negb _); [discriminate|].
  destruct (negb _ && negb _); [discriminate|].
  destruct (TargetDB c); [|discriminate].
  destruct (length (MySQLInstances c) =? 0)%nat; [discriminate|].
  destruct (adjustInstances names c 0 ∅ (MySQLInstances c)) as [l w | l w e | l w] eqn:E;
    try discriminate.
  intros [= _ _ ->].
  apply (adjustInstances_same_id c (MySQLInstances c) [] ∅ l w a b sid); [|exact E].
  intros s j Hsj. rewrite lookup_empty in Hsj. discriminate.
Qed.

Lemma adjustInstances_panic (c : Task) (insts : list (option Instance)) :
  ∀ (i : nat) (sids : gmap Z nat) (insts' : list (option Instance)) (ws : list nat),
    adjustInstances names c i sids insts = LoopPanic insts' ws →
    fullOrAll names c = true
    ∧ ∃ k inst, insts' !! k = Some (Some inst) ∧ Mydumper inst = None.
Proof.
  induction insts as [|oinst rest IH]; intros i sids insts' ws H;
    cbn [adjustInstances] in H; [discriminate|].
  destruct (adjustInstance names c i sids oinst) as [inst' w | o w e | o w] eqn:E.
  - destruct (adjustInstances names c (S i) (<[ServerID inst' := i]> sids) rest)
      as [r' w' | r' w' e' | r' w'] eqn:Er; try discriminate.
    injection H as <- _. destruct (IH _ _ _ _ Er) as (Hfa & k & inst & Hk & Hm).
    split; [exact Hfa|]. exists (S k), inst. split; [exact Hk | exact Hm].
  - discriminate.
  - injection H as <- _.
    destruct (proj2 (adjustInstance_fail c _ _ _) _ _ E) as (Hfa & inst & -> & Hm).
    split; [exact Hfa|]. exists 0%nat, inst. split; [reflexivity | exact Hm].
Qed.

(** X25. [adjust] can panic, and only in one way: the task mode is full or
    all and it has reached an instance without a mydumper config (no inline
    one and none named, or a named entry that is nil), whose mydumper path
    it then reads.  In any other mode it never panics. *)
Theorem adjust_panics_only_without_mydumper (c c' : Task) (ws : list nat) :
  adjust names c = AdjustPanic c' ws →
  (TaskMode c = ModeFull names ∨ TaskMode c = ModeAll names)
  ∧ ∃ k inst, MySQLInstances c' !! k = Some (Some inst) ∧ Mydumper inst = None.
Proof.
  unfold adjust.
  destruct (String.length (Name c) =? 0)%nat; [discriminate|].
  destruct (negb _ && negb _ && negb _); [discriminate|].
  destruct (negb _ && negb _); [discriminate|].
  destruct (TargetDB c); [|discriminate].
  destruct (length (MySQLInstances c) =? 0)%nat; [discriminate|].
  destruct (adjustInstances names c 0 ∅ (MySQLInstances c)) as [l w | l w e | l w] eqn:E;
    try discriminate.
  intros [= <- _]. destruct (adjustInstances_panic c _ _ _ _ _ E) as (Hfa & Hk).
  split; [|exact Hk].
  unfold fullOrAll in Hfa. apply orb_true_iff in Hfa as [Hfa | Hfa];
    apply String.eqb_eq in Hfa; auto.
Qed.

Lemma adjust_ok_top (c c' : Task) (ws : list nat) :
  adjust names c = AdjustOk c' ws →
  (String.length (Name c) =? 0)%nat = false
  ∧ negb (String.eqb (TaskMode c) (ModeFull names))
    && negb (String.eqb (TaskMode c) (ModeIncrement names))
    && negb (String.eqb (TaskMode c) (ModeAll names)) = false
  ∧ negb (String.eqb (Flavor c) (MySQLFlavor names))
    && negb (String.eqb (Flavor c) (MariaDBFlavor names)) = false
  ∧ ∃ db, TargetDB c = Some db.
Proof.
  unfold adjust.
  destruct (String.length (Name c) =? 0)%nat; [discriminate|].
  destruct (negb _ && negb _ && negb _); [discriminate|].
  destruct (negb _ && negb _); [discriminate|].
  destruct (TargetDB c); [|discriminate]. eauto.
Qed.

(** X26. [adjust] is not idempotent: it resolves a named mydumper config
    into the instance but keeps the name, and [Verify] rejects an instance
    that has both.  So if the first instance names a mydumper config whose
    entry is not nil, a second [adjust] of the accepted config fails with
    the error that only one of the two may be specified. *)
Theorem adjust_twice_rejects_named_mydumper (c c' : Task) (ws : list nat)
    (first : Instance) (rest : list (option Instance)) (m : MydumperConfig) :
  adjust names c = AdjustOk c' ws →
  MySQLInstances c = Some first :: rest →
  nonEmpty (MydumperConfigName first) = true →
  Mydumpers c !! MydumperConfigName first = Some (Some m) →
  adjust names c' = AdjustErr c' [] (ErrInstance 0 ErrBothMydumper).
Proof.
  intros H Hi Hne Hm.
  destruct (adjust_ok_top c c' ws H) as (Hn & Hmode & Hfl & db & Hdb).
  destruct (adjust_ok_instances c c' ws H) as (l & -> & Hall).
  rewrite Hi in Hall. inversion Hall as [|o x os xs Hx Hrest]; subst. clear Hall.
  destruct Hx as (inst & md & ld & sy & [= <-] & -> & Hv & Hx).
  destruct Hx as (_ & _ & _ & _ & _ & Hmd & _).
  rewrite Hne, Hm in Hmd. injection Hmd as <-.
  unfold adjust. cbn [Name TaskMode Flavor TargetDB MySQLInstances set_instances].
  rewrite Hn, Hmode, Hfl, Hdb. cbn [map length Nat.eqb adjustInstances].
  assert (Hv' : adjustInstance names (set_instances c (Some (set_units first (Some m) ld sy)
                                                        :: map Some xs))
                  0 ∅ (Some (set_units first (Some m) ld sy))
                = InstErr (Some (set_units first (Some m) ld sy)) false
                    (ErrInstance 0 ErrBothMydumper)).
  { unfold adjustInstance, Verify in *. cbn [Config ServerID MydumperConfigName Mydumper
                                              set_units].
    destruct (Config first); [|discriminate].
    destruct (ServerID first <? 1); [discriminate|].
    rewrite Hne. reflexivity. }
  rewrite Hv'. reflexivity.
Qed.

(** ** Sub task configs *)

Lemma subTaskConfig_none (c : Task) (oinst : option Instance) :
  subTaskConfig c oinst = None
  ↔ match oinst with
    | None => True
    | Some inst => TargetDB c = None ∨ Config inst = None ∨ Mydumper inst = None
                   ∨ Loader inst = None ∨ Syncer inst = None
    end.
Proof.
  unfold subTaskConfig. destruct oinst as [inst|]; [|tauto].
  destruct (TargetDB c); [|tauto].
  destruct (Config inst), (Mydumper inst), (Loader inst), (Syncer inst);
    split; try tauto; try discriminate;
    intros [H | [H | [H | [H | H]]]]; discriminate.
Qed.

(** X27. [SubTaskConfigs] panics exactly when some entry of the instance
    list is nil, or is an instance without database config, mydumper, loader
    or syncer config, or when there is an instance but no target database;
    with no instances it returns the empty list. *)
Theorem subTaskConfigs_panics_iff (c : Task) :
  SubTaskConfigs c = None
  ↔ Exists (λ oinst,
              match oinst with
              | None => True
              | Some inst => TargetDB c = None ∨ Config inst = None
                             ∨ Mydumper inst = None ∨ Loader inst = None
                             ∨ Syncer inst = None
              end)
           (MySQLInstances c).
Proof.
  unfold SubTaskConfigs. induction (MySQLInstances c) as [|oinst rest IH].
  - split; [discriminate | intros H; inversion H].
  - cbn [subTaskConfigsOf]. rewrite Exists_cons, <- IH, <- subTaskConfig_none.
    destruct (subTaskConfig c oinst) as [cfg|].
    + destruct (subTaskConfigsOf c rest); split; try discriminate; try tauto.
      intros [H | H]; discriminate.
    + tauto.
Qed.

Lemma subTaskConfigsOf_ok (c : Task) (db : DBConfig) (l : list Instance) :
  TargetDB c = Some db →
  Forall (λ x, is_Some (Config x) ∧ is_Some (Mydumper x) ∧ is_Some (Loader x)
               ∧ is_Some (Syncer x)) l →
  ∃ cfgs, subTaskConfigsOf c (map Some l) = Some cfgs
          ∧ map SubServerID cfgs = map ServerID l
          ∧ Forall2 (λ inst cfg,
                       SubRouteRules cfg = map (lookupOrNil (Routes c)) (RouteRules inst))
                    l cfgs.
Proof.
  intros Hdb Hall. induction Hall as [|x xs Hx _ IH].
  - exists []. repeat split. constructor.
  - destruct IH as (cfgs & Hcfgs & Hids & Hr).
    destruct Hx as ([from Hf] & [md Hmd] & [ld Hld] & [sy Hsy]).
    cbn [map subTaskConfigsOf]. unfold subTaskConfig.
    rewrite Hdb, Hf, Hmd, Hld, Hsy, Hcfgs.
    eexists. split; [reflexivity|]. cbn [map SubServerID]. rewrite Hids.
    split; [reflexivity|]. constructor; [reflexivity | exact Hr].
Qed.

Lemma lookupOrNil_routes (table : gmap string (option TableRule)) (names0 : list string) :
  Forall (λ name, is_Some (table !! name)) names0 →
  Forall2 (λ name rule, table !! name = Some rule) names0 (map (lookupOrNil table) names0).
Proof.
  induction 1 as [|name ns [r Hr] _ IH]; [constructor|].
  cbn [map]. constructor; [|exact IH]. unfold lookupOrNil. rewrite Hr. reflexivity.
Qed.

(** X28. [adjust] and [SubTaskConfigs] together: from a config that [adjust]
    accepted, in which moreover every instance has a mydumper, a loader and
    a syncer config, [SubTaskConfigs] returns one sub task config per
    instance, in order, with pairwise distinct server ids, and every route
    rule of a sub task config is the entry of the task's route table under
    the name the instance gave. *)
Theorem adjusted_config_gives_sub_tasks (c c' : Task) (ws : list nat) :
  adjust names c = AdjustOk c' ws →
  Forall (λ oinst, ∃ inst, oinst = Some inst ∧ is_Some (Mydumper inst)
                           ∧ is_Some (Loader inst) ∧ is_Some (Syncer inst))
         (MySQLInstances c') →
  ∃ cfgs, SubTaskConfigs c' = Some cfgs
          ∧ length cfgs = length (MySQLInstances c)
          ∧ NoDup (map SubServerID cfgs)
          ∧ Forall2 (λ oinst cfg,
                       ∃ inst, oinst = Some inst
                               ∧ SubServerID cfg = ServerID inst
                               ∧ Forall2 (λ name rule, Routes c' !! name = Some rule)
                                   (RouteRules inst) (SubRouteRules cfg))
                    (MySQLInstances c') cfgs.
Proof.
  intros H Hunits.
  destruct (adjust_ok_top c c' ws H) as (_ & _ & _ & db & Hdb).
  destruct (adjust_ok_inv c c' ws H) as (_ & _ & _ & _ & _ & insts' & Hl & ->).
  destruct (adjustInstances_ok c _ _ _ _ _ Hl) as (l & -> & Hnd & _ & Hall).
  unfold SubTaskConfigs. cbn [MySQLInstances set_instances] in *.
  assert (Hlen : length (MySQLInstances c) = length l)
    by (eapply Forall2_length; exact Hall).
  assert (Hgood : Forall (λ x, (is_Some (Config x) ∧ is_Some (Mydumper x)
                                ∧ is_Some (Loader x) ∧ is_Some (Syncer x))
                               ∧ Forall (λ name, is_Some (Routes c !! name))
                                   (RouteRules x)) l).
  { clear Hl Hnd Hlen H. induction Hall as [|o x os xs Hx _ IH]; [constructor|].
    cbn [map] in Hunits. apply Forall_cons in Hunits as [Hu Hunits].
    constructor; [|exact (IH Hunits)].
    destruct Hu as (x0 & [= <-] & Hmd & Hld & Hsy).
    destruct Hx as (inst & md0 & ld0 & sy0 & -> & Hxeq & Hv & _ & Hroutes & _).
    repeat split; try assumption.
    - rewrite Hxeq. cbn [Config set_units]. unfold Verify in Hv.
      destruct (Config inst); [eauto | discriminate].
    - rewrite Hxeq. cbn [RouteRules set_units]. exact Hroutes. }
  apply Forall_and in Hgood as [Hparts Hroutes].
  destruct (subTaskConfigsOf_ok (set_instances c (map Some l)) db l Hdb Hparts)
    as (cfgs & Hcfgs & Hids & Hr).
  exists cfgs. split; [exact Hcfgs|].
  split; [rewrite Hlen, <- (length_map ServerID l), <- Hids, length_map; reflexivity|].
  split; [rewrite Hids; exact Hnd|].
  cbn [Routes set_instances] in *.
  clear - Hids Hr Hroutes. revert cfgs Hids Hr.
  induction l as [|x l IH]; intros cfgs Hids Hr; inversion Hr as [|? cfg ? cfgs' Hx Hr']; subst.
  - constructor.
  - cbn [map] in *. injection Hids as Hid Hids.
    apply Forall_cons in Hroutes as [Hrx Hroutes].
    constructor; [|exact (IH Hroutes _ Hids Hr')].
    exists x. split; [reflexivity|]. split; [exact Hid|].
    rewrite Hx. apply lookupOrNil_routes. exact Hrx.
Qed.

End TaskFacts.

(** ** The statements above at the sample task *)

Lemma adjust_ok_server_ids_distinct_witness :
  ∃ c' ws,
    adjust sample_names (sample_task "all" [1; 2]) = AdjustOk c' ws
    ∧ ∃ l, MySQLInstances c' = map Some l ∧ NoDup (map ServerID l)
           ∧ length l = length (MySQLInstances (sample_task "all" [1; 2])).
Proof.
  eexists _, _. split; [vm_compute; reflexivity|].
  destruct (adjust_ok_server_ids_distinct sample_names (sample_task "all" [1; 2]) _ _ eq_refl)
    as (l & Hl & Hnd & _ & Hlen & _).
  exists l. split; [exact Hl|]. split; [exact Hnd | exact Hlen].
Defined.

Lemma adjust_ok_references_resolve_witness :
  ∃ c' ws,
    adjust sample_names (sample_task "all" [1; 2]) = AdjustOk c' ws
    ∧ Forall (λ oinst,
                ∃ inst, oinst = Some inst
                        ∧ Forall (λ name, is_Some (Routes c' !! name)) (RouteRules inst))
        (MySQLInstances c').
Proof.
  eexists _, _. split; [vm_compute; reflexivity|].
  eapply Forall_impl;
    [exact (adjust_ok_references_resolve sample_names (sample_task "all" [1; 2]) _ _ eq_refl)|].
  intros oinst (inst & Ho & Hr & _). exists inst. split; [exact Ho | exact Hr].
Defined.

Lemma adjust_ok_mode_requirements_witness :
  ∃ c' ws,
    adjust sample_names (sample_task "all" [1; 2]) = AdjustOk c' ws
    ∧ Name c' ≠ ""
    ∧ (TaskMode c' = ModeFull sample_names ∨ TaskMode c' = ModeAll sample_names)
    ∧ Forall (λ oinst, ∃ inst m, oinst = Some inst ∧ Mydumper inst = Some m
                                 ∧ MydumperPath m ≠ "")
        (MySQLInstances c').
Proof.
  eexists _, _. split; [vm_compute; reflexivity|].
  destruct (adjust_ok_mode_requirements sample_names (sample_task "all" [1; 2]) _ _ eq_refl)
    as (Hname & _ & _ & _ & _ & _ & Hfull).
  assert (Hmode : TaskMode (sample_task "all" [1; 2]) = ModeFull sample_names
                  ∨ TaskMode (sample_task "all" [1; 2]) = ModeAll sample_names)
    by (right; reflexivity).
  split; [exact Hname|]. split; [exact Hmode | exact (Hfull Hmode)].
Defined.

Lemma adjust_ok_resolves_named_units_witness :
  ∃ c' ws,
    adjust sample_names (sample_task "all" [1; 2]) = AdjustOk c' ws
    ∧ c' = set_instances (sample_task "all" [1; 2]) (MySQLInstances c').
Proof.
  eexists _, _. split; [vm_compute; reflexivity|].
  exact (proj1 (adjust_ok_resolves_named_units sample_names (sample_task "all" [1; 2])
                  _ _ eq_refl)).
Defined.

Lemma adjust_same_server_id_error_witness :
  ∃ c' ws,
    adjust sample_names (sample_task "all" [1; 2; 1]) = AdjustErr c' ws (ErrSameServerID 0 2 1)
    ∧ (0 < 2)%nat
    ∧ ∃ ia ib, MySQLInstances (sample_task "all" [1; 2; 1]) !! 0%nat = Some (Some ia)
               ∧ MySQLInstances (sample_task "all" [1; 2; 1]) !! 2%nat = Some (Some ib)
               ∧ ServerID ia = 1 ∧ ServerID ib = 1.
Proof.
  eexists _, _. split; [vm_compute; reflexivity|].
  exact (adjust_same_server_id_error sample_names (sample_task "all" [1; 2; 1]) _ _
           0%nat 2%nat 1 eq_refl).
Defined.

Lemma adjust_panics_only_without_mydumper_witness :
  ∃ c' ws,
    adjust sample_names (sample_bare_task "full" [1; 2]) = AdjustPanic c' ws
    ∧ (TaskMode (sample_bare_task "full" [1; 2]) = ModeFull sample_names
       ∨ TaskMode (sample_bare_task "full" [1; 2]) = ModeAll sample_names)
    ∧ ∃ k inst, MySQLInstances c' !! k = Some (Some inst) ∧ Mydumper inst = None.
Proof.
  eexists _, _. split; [vm_compute; reflexivity|].
  exact (adjust_panics_only_without_mydumper sample_names (sample_bare_task "full" [1; 2])
           _ _ eq_refl).
Defined.

Lemma adjust_twice_rejects_named_mydumper_witness :
  ∃ c' ws m,
    (adjust sample_names (sample_task "all" [1; 2]) = AdjustOk c' ws
     ∧ MySQLInstances (sample_task "all" [1; 2])
       = Some (sample_instance 1) :: [Some (sample_instance 2)]
     ∧ nonEmpty (MydumperConfigName (sample_instance 1)) = true
     ∧ Mydumpers (sample_task "all" [1; 2]) !! MydumperConfigName (sample_instance 1)
       = Some (Some m))
    ∧ adjust sample_names c' = AdjustErr c' [] (ErrInstance 0 ErrBothMydumper).
Proof.
  eexists _, _, _.
  assert (Hm : Mydumpers (sample_task "all" [1; 2]) !! MydumperConfigName (sample_instance 1)
               = Some (Some (mkMydumper "./bin/mydumper" 4 64 true "")))
    by (vm_compute; reflexivity).
  split.
  - split; [vm_compute; reflexivity|]. split; [reflexivity|]. split; [reflexivity | exact Hm].
  - exact (adjust_twice_rejects_named_mydumper sample_names (sample_task "all" [1; 2]) _ _
             (sample_instance 1) [Some (sample_instance 2)] _ eq_refl eq_refl eq_refl Hm).
Defined.

Lemma subTaskConfigs_panics_iff_witness :
  Mydumper (sample_instance 1) = None
  ∧ SubTaskConfigs (sample_task "all" [1; 2]) = None.
Proof.
  split; [reflexivity|].
  apply (proj2 (subTaskConfigs_panics_iff (sample_task "all" [1; 2]))).
  apply Exists_cons_hd. right. right. left. reflexivity.
Defined.

Lemma adjusted_config_gives_sub_tasks_witness :
  ∃ c' ws,
    (adjust sample_names (sample_task "all" [1; 2]) = AdjustOk c' ws
     ∧ Forall (λ oinst, ∃ inst, oinst = Some inst ∧ is_Some (Mydumper inst)
                                ∧ is_Some (Loader inst) ∧ is_Some (Syncer inst))
         (MySQLInstances c'))
    ∧ ∃ cfgs, SubTaskConfigs c' = Some cfgs
              ∧ length cfgs = length (MySQLInstances (sample_task "all" [1; 2]))
              ∧ NoDup (map SubServerID cfgs).
Proof.
  eexists _, _.
  match goal with
  | |- (?A ∧ ?F) ∧ _ =>
      assert (Hadj : A) by (vm_compute; reflexivity);
      assert (Hunits : F)
        by (repeat (constructor;
                    [eexists; split; [reflexivity|]; repeat split; eexists; reflexivity|]);
            constructor)
  end.
  split; [split; [exact Hadj | exact Hunits]|].
  destruct (adjusted_config_gives_sub_tasks sample_names (sample_task "all" [1; 2])
              _ _ Hadj Hunits) as (cfgs & Hc & Hlen & Hnd & _).
  exists cfgs. split; [exact Hc|]. split; [exact Hlen | exact Hnd].
Defined.

End ConfigFacts.
